(** * Football commentary analysis: event detection and intensity scoring

    A shallow embedding of the decision logic of
    - [information_extraction.py] (event pattern matcher, deduplicator),
    - [audio_volume.py]           (greedy volume peak scan),
    - [sentiment_analyzer.py]     (linguistic signals, intensity, summary),
    followed by the properties the specification states about them.

    Modelling conventions.
    - Python floats and ints are rationals ([Q]): a rational stands for the
      value a float holds. Every comparison of the source is the
      corresponding comparison of rationals, and [round(x, n)] is
      round-half-to-even at [n] decimals. The time difference of the
      deduplicator, the text/audio fusion, the averages of the summary, the
      sample indices of a segment and the times of the volume timeline are
      computed in double precision ([py.fadd], [py.fsub], [py.fmul],
      [py.fdiv]); the other arithmetic is exact.
    - Python [str] is [string] (8-bit characters); [lower], [isupper],
      [isalpha], [strip] and the regular-expression classes are their ASCII
      versions.
    - A Python [dict] whose keys are strings is a [gmap string _]; [d[k]] on
      a missing key raises, which is the [KeyError] result.
    - spaCy itself is outside the repository: the loaded model is a function
      from a text to its token annotations, and [None] stands for the
      module-level [nlp = None] left by a failed [spacy.load]. *)

From Stdlib Require Import QArith Qabs Qround Qcanon ZArith Lia Lqa String Ascii List.
From stdpp Require Import gmap strings list fin_maps sorting.

(** ** Python primitives *)

Module py.

(** Results of code that can raise [KeyError]. *)
Inductive result (A : Type) : Type :=
| Ok (a : A)
| KeyError (key : string).
Arguments Ok {A} a.
Arguments KeyError {A} key.

Definition bind {A B} (m : result A) (f : A → result B) : result B :=
  match m with
  | Ok a => f a
  | KeyError k => KeyError k
  end.

(** [for x in xs: body], threading the loop state [s]; a raising body
    ends the loop. *)
Fixpoint for_loop {S A} (body : S → A → result S) (xs : list A) (s : S)
    : result S :=
  match xs with
  | [] => Ok s
  | x :: xs' => bind (body s x) (for_loop body xs')
  end.

(** Values stored in the heterogeneous analysis dictionaries. A Python
    [bool] is a number (0 or 1) wherever arithmetic reads it. *)
Inductive value : Type :=
| Num (q : Q)
| Bool (b : bool).

Definition num_of (v : value) : Q :=
  match v with
  | Num q => q
  | Bool true => 1
  | Bool false => 0
  end.

Definition Qltb (x y : Q) : bool := negb (Qle_bool y x).

Definition truthy (v : value) : bool :=
  match v with
  | Num q => negb (Qeq_bool q 0)
  | Bool b => b
  end.

(** [d[k]] *)
Definition getitem {V} (d : gmap string V) (k : string) : result V :=
  match d !! k with
  | Some v => Ok v
  | None => KeyError k
  end.

(** [d[k]] on a record field that may be absent. *)
Definition item {V} (k : string) (field : option V) : result V :=
  match field with
  | Some v => Ok v
  | None => KeyError k
  end.

(** [d.get(k, default)] on a field that may be absent. *)
Definition get {V} (field : option V) (default : V) : V :=
  match field with
  | Some v => v
  | None => default
  end.

Definition Qmin (x y : Q) : Q := if Qle_bool x y then x else y.
Definition Qmax (x y : Q) : Q := if Qle_bool y x then x else y.

(** Round-half-to-even to an integer. *)
Definition round_half_even (y : Q) : Z :=
  let f := Qfloor y in
  match (y - inject_Z f ?= 1 # 2)%Q with
  | Lt => f
  | Gt => (f + 1)%Z
  | Eq => if Z.even f then f else (f + 1)%Z
  end.

(** [round(x, ndigits)]; the result is kept in lowest terms. *)
Definition round (x : Q) (ndigits : nat) : Q :=
  let scale := inject_Z (10 ^ Z.of_nat ndigits) in
  Qred (inject_Z (round_half_even (x * scale)) / scale).

(** A Python [float] is an IEEE 754 binary64 number, and an arithmetic
    operation on floats returns the double nearest to the exact result, a
    tie going to the even significand. *)

(** [2^e] for an integer exponent of either sign. *)
Definition pow2 (e : Z) : Q :=
  if (0 <=? e)%Z then inject_Z (2 ^ e) else 1 # Z.to_pos (2 ^ (- e)).

(** [floor(log2(x))] for a positive [x]. *)
Definition ilog2 (x : Q) : Z :=
  let k := (Z.log2 (Qnum x) - Z.log2 (Zpos (Qden x)))%Z in
  if Qle_bool (pow2 k) x then k else (k - 1)%Z.

(** The exponent of the last place of [x] in a format of [prec] significant
    bits whose smallest exponent is [emin]. *)
Definition ulp_exp (prec emin : Z) (x : Q) : Z :=
  Z.max (ilog2 (Qabs x) - (prec - 1)) emin.

(** The nearest number of the format, ties to even. Results beyond the
    largest number of the format, which IEEE arithmetic turns into an
    infinity, are left finite. *)
Definition round_to (prec emin : Z) (x : Q) : Q :=
  if Qeq_bool x 0 then 0
  else
    let e := ulp_exp prec emin x in
    Qred (inject_Z (round_half_even (x / pow2 e)) * pow2 e).

(** The double nearest to [x]: how a literal or an exact result becomes a
    [float]. *)
Definition float (x : Q) : Q := round_to 53 (-1074) x.

(** [x + y], [x - y], [x * y] and [x / y] on floats. *)
Definition fadd (x y : Q) : Q := float (x + y).
Definition fsub (x y : Q) : Q := float (x - y).
Definition fmul (x y : Q) : Q := float (x * y).
Definition fdiv (x y : Q) : Q := float (x / y).

(** Character classes (ASCII). *)
Definition code (c : ascii) : N := N_of_ascii c.

Definition between (lo hi c : ascii) : bool :=
  (code lo <=? code c)%N && (code c <=? code hi)%N.

Definition isupper (c : ascii) : bool := between "A" "Z" c.
Definition islower (c : ascii) : bool := between "a" "z" c.
Definition isalpha (c : ascii) : bool := isupper c || islower c.
Definition isdigit (c : ascii) : bool := between "0" "9" c.

Definition lower_char (c : ascii) : ascii :=
  if isupper c then ascii_of_N (code c + 32) else c.
Definition upper_char (c : ascii) : ascii :=
  if islower c then ascii_of_N (code c - 32) else c.

(** [str.lower()] *)
Definition lower (s : string) : string :=
  string_of_list_ascii (map lower_char (list_ascii_of_string s)).


(** Whitespace removed by [str.strip()]: tab, LF, VT, FF, CR, the four
    separators 28-31 and the space. *)
Definition isspace (c : ascii) : bool :=
  ((9 <=? code c)%N && (code c <=? 13)%N)
  || ((28 <=? code c)%N && (code c <=? 32)%N).

Fixpoint lstrip (cs : list ascii) : list ascii :=
  match cs with
  | c :: cs' => if isspace c then lstrip cs' else cs
  | [] => []
  end.

(** [str.strip()] *)
Definition strip (s : string) : string :=
  string_of_list_ascii
    (rev (lstrip (rev (lstrip (list_ascii_of_string s))))).

(** [s.count(c)] for a one-character needle, and
    [sum(1 for c in s if p(c))]. *)
Definition count_if (p : ascii → bool) (s : string) : Z :=
  Z.of_nat (length (List.filter p (list_ascii_of_string s))).

Definition count_char (c : ascii) (s : string) : Z :=
  count_if (Ascii.eqb c) s.

(** [x in xs] for a collection of strings. *)
Definition contains (xs : list string) (x : string) : bool :=
  existsb (String.eqb x) xs.

(** [l[:n]]: a negative [n] counts from the end. *)
Definition slice_to {A} (l : list A) (n : Z) : list A :=
  if (0 <=? n)%Z then take (Z.to_nat n) l
  else take (Z.to_nat (Z.of_nat (length l) + n)) l.

(** [sorted(l, key=key)] and [sorted(l, key=key, reverse=True)]. Python's
    sort is stable in both directions: elements with equal keys keep their
    original order. [place] puts [x], which preceded every element of the
    sorted [l], before the first element that may not stay ahead of it. *)
Fixpoint place {A} (key : A → Q) (reverse : bool) (x : A) (l : list A)
    : list A :=
  match l with
  | [] => [x]
  | y :: l' =>
      if (if reverse then Qltb (key x) (key y) else Qltb (key y) (key x))
      then y :: place key reverse x l'
      else x :: l
  end.

Definition sorted {A} (l : list A) (key : A → Q) (reverse : bool) : list A :=
  fold_right (place key reverse) [] l.

(** [int(x)]: truncation towards zero. *)
Definition int (x : Q) : Z := Z.quot (Qnum x) (Zpos (Qden x)).

(** [x // y] for a positive integer [y], as an integer: the floor. *)
Definition floordiv (x : Q) (y : Z) : Z := Qfloor (x / inject_Z y).

(** A slice bound clipped to [0, len]; a negative bound counts from the
    end. *)
Definition clip (len i : Z) : nat :=
  Z.to_nat (if (i <? 0)%Z then Z.max (len + i) 0 else Z.min i len).

(** [l[a:b]] *)
Definition slice {A} (l : list A) (a b : Z) : list A :=
  let n := Z.of_nat (length l) in
  take (clip n b - clip n a) (drop (clip n a) l).

(** [prefix] is how the text at this position starts. *)
Fixpoint starts_with (prefix text : list ascii) : bool :=
  match prefix, text with
  | [], _ => true
  | _ :: _, [] => false
  | p :: prefix', c :: text' => Ascii.eqb p c && starts_with prefix' text'
  end.

Fixpoint occurs_in (needle text : list ascii) : bool :=
  starts_with needle text
  || match text with
     | [] => false
     | _ :: text' => occurs_in needle text'
     end.

(** [needle in text] for two strings. *)
Definition str_in (needle text : string) : bool :=
  occurs_in (list_ascii_of_string needle) (list_ascii_of_string text).

(** [s[:n]] for a string. *)
Definition str_slice_to (s : string) (n : Z) : string :=
  string_of_list_ascii (py.slice_to (list_ascii_of_string s) n).





End py.

(** [x ← m; k] sequences two steps and propagates a raised [KeyError]. *)
#[global] Instance result_bind : MBind py.result := λ A B f m, py.bind m f.
#[global] Instance result_ret : MRet py.result := @py.Ok.

(** ** The fragment of [re] used by the pattern tables *)

Module re.

Inductive atom : Type :=
| Chr (c : ascii)              (* a literal character *)
| Range (lo hi : ascii).       (* [lo-hi] *)

Inductive regex : Type :=
| Eps
| At (a : atom)
| Cat (r1 r2 : regex)          (* r1r2 *)
| Alt (r1 r2 : regex)          (* r1|r2 *)
| Opt (r : regex)              (* r? *)
| AtLeast (n : nat) (a : atom) (* a{n,} *)
| WordB                        (* \b *)
| Never.                       (* the empty alternation *)

(** [ignorecase] is the flag [re.IGNORECASE]. *)
Definition atom_match (ignorecase : bool) (a : atom) (c : ascii) : bool :=
  match a with
  | Chr x =>
      if ignorecase then Ascii.eqb (py.lower_char c) (py.lower_char x)
      else Ascii.eqb c x
  | Range lo hi =>
      py.between lo hi c
      || (ignorecase
          && (py.between lo hi (py.lower_char c)
              || py.between lo hi (py.upper_char c)))
  end.

(** [\w] *)
Definition is_word (c : ascii) : bool :=
  py.isalpha c || py.isdigit c || Ascii.eqb c "_".

Definition is_word_at (c : option ascii) : bool :=
  match c with
  | Some c => is_word c
  | None => false
  end.

(** [\b] holds between a word character and a non-word character (or an
    end of the text). *)
Definition word_boundary (prev : option ascii) (rest : list ascii) : bool :=
  xorb (is_word_at prev) (is_word_at (head rest)).

(** Backtracking matcher in continuation style: [prev] is the character
    before the current position, [k] receives the position after the
    match. *)
Fixpoint atleast (ignorecase : bool) (a : atom) (n : nat)
    (prev : option ascii) (s : list ascii)
    (k : option ascii → list ascii → bool) {struct s} : bool :=
  match n, s with
  | O, [] => k prev []
  | O, c :: s' =>
      (atom_match ignorecase a c && atleast ignorecase a O (Some c) s' k)
      || k prev s
  | S n', c :: s' =>
      atom_match ignorecase a c && atleast ignorecase a n' (Some c) s' k
  | S _, [] => false
  end.

Fixpoint matches (ignorecase : bool) (r : regex)
    (prev : option ascii) (s : list ascii)
    (k : option ascii → list ascii → bool) : bool :=
  match r with
  | Eps => k prev s
  | At a =>
      match s with
      | c :: s' => atom_match ignorecase a c && k (Some c) s'
      | [] => false
      end
  | Cat r1 r2 =>
      matches ignorecase r1 prev s (λ p t, matches ignorecase r2 p t k)
  | Alt r1 r2 =>
      matches ignorecase r1 prev s k || matches ignorecase r2 prev s k
  | Opt r1 => matches ignorecase r1 prev s k || k prev s
  | AtLeast n a => atleast ignorecase a n prev s k
  | WordB => word_boundary prev s && k prev s
  | Never => false
  end.

Fixpoint search_from (ignorecase : bool) (r : regex)
    (prev : option ascii) (s : list ascii) : bool :=
  matches ignorecase r prev s (λ _ _, true)
  || match s with
     | c :: s' => search_from ignorecase r (Some c) s'
     | [] => false
     end.

(** [re.search(pattern, text)] and [re.search(pattern, text,
    re.IGNORECASE)], read as truth values. *)
Definition search (pattern : regex) (text : string)
    (ignorecase : bool) : bool :=
  search_from ignorecase pattern None (list_ascii_of_string text).

(** Pattern syntax. *)
Definition lit (s : string) : regex :=
  fold_right (λ c r, Cat (At (Chr c)) r) Eps (list_ascii_of_string s).

Definition seq (rs : list regex) : regex := fold_right Cat Eps rs.

Definition alts (rs : list regex) : regex := fold_right Alt Never rs.

(** [\b(a|b|...)\b] *)
Definition word_alts (rs : list regex) : regex :=
  seq [WordB; alts rs; WordB].

(** [xc?y]: literal [x], an optional character [c], literal [y]. *)
Definition lit_opt (x : string) (c : ascii) (y : string) : regex :=
  seq [lit x; Opt (At (Chr c)); lit y].

End re.

(** ** information_extraction.py *)

Module information_extraction.
Import re.

Definition GOAL_TIME_WINDOW : Q := 15.
Definition EVENT_TIME_WINDOW : Q := 10.

(** The dictionary [EVENT_PATTERNS] in insertion order, which is the order
    [.items()] iterates in. *)
Definition EVENT_PATTERNS : list (string * list regex) :=
  [ ("goal",
     [ word_alts [lit "he scores"; lit "scores!"; lit "scored!";
                  lit_opt "it" "'" "s a goal"; lit "what a goal";
                  lit "brilliant goal"];
       word_alts [lit_opt "put" "s" " it in"; lit "into the net";
                  lit "back of the net"; lit_opt "find" "s" " the net";
                  lit "roof of the net"];
       word_alts [lit "first goal"; lit "second goal"; lit "third goal";
                  lit "opening goal"; lit_opt "open" "s" " the scoring"];
       word_alts [lit "brilliant finish"; lit "lovely finish";
                  lit "clinical finish"; lit "tucks it away"];
       word_alts [lit_opt "break" "s" " the deadlock";
                  lit "doubles the lead"; lit_opt "seal" "s" " the victory"];
       word_alts [lit "smashed in the rebound"; lit "and it's in"];
       word_alts [lit "one null"; lit "two null"; lit "three null";
                  lit "four null"; lit "five null"];
       word_alts [lit "one one"; lit "two one"; lit "three one";
                  lit "two two"; lit "three two"];
       word_alts [lit "1-0"; lit "2-0"; lit "3-0"; lit "4-0"; lit "1-1";
                  lit "2-1"; lit "3-1"; lit "2-2"; lit "3-2"] ]);
    ("foul",
     [ word_alts [lit "foul"; lit_opt "foul" "s" EmptyString; lit "fouled";
                  lit "tackle"; lit "tackled"; lit "brought down";
                  lit "pulled back"];
       word_alts [lit_opt "trip" "s" EmptyString; lit "tripped"; lit "push";
                  lit "pushed"; lit "shoved"] ]);
    ("yellow_card",
     [ word_alts [lit "yellow card"; lit "booked"; lit "booking";
                  lit "caution"; lit "cautioned"];
       word_alts [lit "shown yellow"; lit_opt "get" "s" " a yellow";
                  lit_opt "receive" "s" " a yellow"] ]);
    ("red_card",
     [ word_alts [lit "red card"; lit "sent off"; lit "sending off";
                  lit "dismissed"; lit "ejected"];
       word_alts [lit "straight red"; lit "second yellow";
                  lit "off he goes"] ]);
    ("offside",
     [ word_alts [lit "offside"; lit_opt "off" "-" "side";
                  lit "flag is up"; lit_opt "linesman" "'" "s flag"] ]);
    ("substitution",
     [ word_alts [lit "substitution"; lit "sub"; lit "replaced";
                  lit "replacing"; lit_opt "goe" "s" " off"];
       word_alts [lit_opt "bring" "s" " on"; lit_opt "take" "s" " off"] ]);
    ("injury",
     [ word_alts [lit "injury"; lit "hurt"; lit "treatment";
                  lit "stretcher"; lit "medical"];
       word_alts [lit "holding"; lit "injured"; lit "limping";
                  lit "medic"] ]) ].

(** Transcript segment; a key the dictionary lacks is [None]. *)
Record Segment : Type := {
  seg_start : option Q;
  seg_end : option Q;
  seg_text : option string
}.

Record Event : Type := {
  ev_type : string;
  ev_text : string;
  ev_time : Q
}.

(** [any(re.search(p, text_lower) for p in patterns)] *)
Definition any_match (patterns : list regex) (text_lower : string) : bool :=
  existsb (λ p, search p text_lower false) patterns.

(** The inner loop over [EVENT_PATTERNS.items()]: the first category with
    a matching pattern appends one event and breaks. *)
Fixpoint match_patterns (items : list (string * list regex))
    (text text_lower : string) (start_time : Q) (events : list Event)
    : list Event :=
  match items with
  | [] => events
  | (event_type, patterns) :: items' =>
      if any_match patterns text_lower
      then events ++ [ {| ev_type := event_type;
                          ev_text := py.strip text;
                          ev_time := start_time |} ]
      else match_patterns items' text text_lower start_time events
  end.

(** Body of the first loop of [detect_events_with_timestamps]. *)
Definition match_segment (events : list Event) (segment : Segment)
    : py.result (list Event) :=
  text ← py.item "text" (seg_text segment);
  start_time ← py.item "start" (seg_start segment);
  let text_lower := py.lower text in
  mret (match_patterns EVENT_PATTERNS text text_lower start_time events).

Definition window_of (event : Event) : Q :=
  if String.eqb (ev_type event) "goal"
  then GOAL_TIME_WINDOW else EVENT_TIME_WINDOW.

(** The condition inside [any(...)] of the second loop; the difference of
    the two times is a float subtraction. *)
Definition suppresses (event e : Event) : bool :=
  String.eqb (ev_type e) (ev_type event)
  && py.Qltb (Qabs (py.fsub (ev_time e) (ev_time event))) (window_of event).

(** Body of the second loop. *)
Definition dedup_step (deduplicated : list Event) (event : Event)
    : list Event :=
  if negb (existsb (suppresses event) deduplicated)
  then deduplicated ++ [event]
  else deduplicated.

(** The second loop, started from [deduplicated = []]. *)
Definition deduplicate (events : list Event) : list Event :=
  fold_left dedup_step events [].

Definition detect_events_with_timestamps (segments : list Segment)
    : py.result (list Event) :=
  events ← py.for_loop match_segment segments [];
  mret (deduplicate events).

Definition FOOTBALL_CONTEXT_PATTERNS : list regex :=
  [ word_alts [lit "goal"; lit "score"; lit "win"; lit "match"; lit "game";
               lit "play"];
    word_alts [lit "premier league"; lit "cup"; lit "final"; lit "semifinal"];
    word_alts [lit "striker"; lit "defender"; lit "goalkeeper";
               lit "midfielder"; lit "manager"];
    word_alts [lit "kick"; lit "shot"; lit "corner"; lit "penalty";
               lit "free kick"] ].

Definition STADIUM_KEYWORDS : list string :=
  [ "stadium"; "arena"; "ground"; "park"; "field" ].

Definition OFFICIAL_KEYWORDS : list string :=
  [ "referee"; "ref"; "official"; "linesman"; "assistant referee";
    "fourth official"; "var"; "video assistant"; "assistant"; "in charge" ].

(** What the code reads of a spaCy entity span and of a sentence. *)
Record Entity : Type := {
  label_ : string;
  ent_text : string
}.

Record Sentence : Type := {
  sent_text : string;
  sent_ents : list Entity
}.

(** A loaded pipeline, as [extract_entities] uses it: [nlp(text).sents],
    each sentence with its [ents]. *)
Definition Pipeline : Type := string → list Sentence.

(** The collections [extract_entities] fills. The returned lists are
    [list(s)] of these sets, in an order Python does not specify. *)
Record Entities : Type := {
  persons : gset string;
  teams : gset string;
  possible_teams : gset string;
  stadiums : gset string;
  locations : gset string;
  officials : gset string;
  player_team_map : gmap string string
}.

Definition no_entities : Entities :=
  {| persons := ∅; teams := ∅; possible_teams := ∅; stadiums := ∅;
     locations := ∅; officials := ∅; player_team_map := ∅ |}.

(** [collection.add(value)] for each of the six sets, and
    [player_team_map[person] = team]. *)
Definition add_person (value : string) (c : Entities) : Entities :=
  {| persons := {[ value ]} ∪ persons c; teams := teams c;
     possible_teams := possible_teams c; stadiums := stadiums c;
     locations := locations c; officials := officials c;
     player_team_map := player_team_map c |}.

Definition add_team (value : string) (c : Entities) : Entities :=
  {| persons := persons c; teams := {[ value ]} ∪ teams c;
     possible_teams := possible_teams c; stadiums := stadiums c;
     locations := locations c; officials := officials c;
     player_team_map := player_team_map c |}.

Definition add_possible_team (value : string) (c : Entities) : Entities :=
  {| persons := persons c; teams := teams c;
     possible_teams := {[ value ]} ∪ possible_teams c; stadiums := stadiums c;
     locations := locations c; officials := officials c;
     player_team_map := player_team_map c |}.

Definition add_stadium (value : string) (c : Entities) : Entities :=
  {| persons := persons c; teams := teams c;
     possible_teams := possible_teams c; stadiums := {[ value ]} ∪ stadiums c;
     locations := locations c; officials := officials c;
     player_team_map := player_team_map c |}.

Definition add_location (value : string) (c : Entities) : Entities :=
  {| persons := persons c; teams := teams c;
     possible_teams := possible_teams c; stadiums := stadiums c;
     locations := {[ value ]} ∪ locations c; officials := officials c;
     player_team_map := player_team_map c |}.

Definition add_official (value : string) (c : Entities) : Entities :=
  {| persons := persons c; teams := teams c;
     possible_teams := possible_teams c; stadiums := stadiums c;
     locations := locations c; officials := {[ value ]} ∪ officials c;
     player_team_map := player_team_map c |}.

Definition assign_team (person team : string) (c : Entities) : Entities :=
  {| persons := persons c; teams := teams c;
     possible_teams := possible_teams c; stadiums := stadiums c;
     locations := locations c; officials := officials c;
     player_team_map := <[ person := team ]> (player_team_map c) |}.

(** [any(k in value.lower() for k in STADIUM_KEYWORDS)] *)
Definition names_stadium (value : string) : bool :=
  existsb (λ k, py.str_in k (py.lower value)) STADIUM_KEYWORDS.

(** Body of the loop over [sent.ents]; the state is the collections with
    [sent_persons] and [sent_teams]. *)
Definition entity_step (has_football_context has_official_context : bool)
    (state : Entities * list string * list string) (ent : Entity)
    : Entities * list string * list string :=
  let '(c, sent_persons, sent_teams) := state in
  let label := label_ ent in
  let value := py.strip (ent_text ent) in
  if String.eqb label "PERSON" then
    if has_official_context then
      (add_official value c, sent_persons, sent_teams)
    else (add_person value c, sent_persons ++ [value], sent_teams)
  else if py.contains ["ORG"; "NORP"; "GPE"] label then
    if has_football_context then
      (add_team value c, sent_persons, sent_teams ++ [value])
    else (add_possible_team value c, sent_persons, sent_teams)
  else if py.contains ["FAC"; "LOC"] label then
    if names_stadium value then (add_stadium value c, sent_persons, sent_teams)
    else (add_location value c, sent_persons, sent_teams)
  else state.

(** [if person not in player_team_map: player_team_map[person] = team] *)
Definition associate (primary_team : string) (c : Entities) (person : string)
    : Entities :=
  match player_team_map c !! person with
  | None => assign_team person primary_team c
  | Some _ => c
  end.

(** Body of the loop over [doc.sents]. *)
Definition sentence_step (c : Entities) (sent : Sentence) : Entities :=
  let sent_lower := py.lower (sent_text sent) in
  let has_football_context :=
    existsb (λ p, search p sent_lower false) FOOTBALL_CONTEXT_PATTERNS in
  let has_official_context :=
    existsb (λ keyword, py.str_in keyword sent_lower) OFFICIAL_KEYWORDS in
  let '(c, sent_persons, sent_teams) :=
    fold_left (entity_step has_football_context has_official_context)
      (sent_ents sent) (c, [], []) in
  match sent_teams, sent_persons with
  | primary_team :: _, _ :: _ =>
      fold_left (associate primary_team) sent_persons c
  | _, _ => c
  end.

Definition extract_entities (nlp : option Pipeline) (text : string) : Entities :=
  match nlp with
  | None => no_entities
  | Some nlp => fold_left sentence_step (nlp text) no_entities
  end.

(** The dictionary [extract_information] returns. *)
Record Information : Type := {
  entities : Entities;
  events : list Event;
  event_summary : gmap string (list Event)
}.

(** [summary.setdefault(e["type"], []).append(e)] *)
Definition group_step (summary : gmap string (list Event)) (e : Event)
    : gmap string (list Event) :=
  <[ ev_type e := default [] (summary !! ev_type e) ++ [e] ]> summary.

(** [extract_information(text, segments=None)]: a missing or empty
    [segments] gives no events. *)
Definition extract_information (nlp : option Pipeline) (text : string)
    (segments : option (list Segment)) : py.result Information :=
  let entities := extract_entities nlp text in
  events ← match segments with
           | Some ((_ :: _) as segments) =>
               detect_events_with_timestamps segments
           | _ => mret []
           end;
  let summary := fold_left group_step events ∅ in
  mret {| entities := entities; events := events; event_summary := summary |}.

End information_extraction.

(** ** audio_volume.py *)

Module audio_volume.

(** A point of the timeline returned by [get_volume_timeline]. *)
Record LoudnessSample : Type := {
  ls_time : Q;
  ls_volume : Q
}.

Record Peak : Type := {
  pk_time : Q;
  pk_volume : Q;
  pk_type : string
}.

(** Body of the loop of [detect_volume_peaks]; the state is
    [(peaks, last_peak_time)]. *)
Definition peak_step (threshold min_gap_seconds : Q)
    (state : list Peak * Q) (point : LoudnessSample) : list Peak * Q :=
  let '(peaks, last_peak_time) := state in
  if Qle_bool threshold (ls_volume point) then
    if Qle_bool min_gap_seconds (ls_time point - last_peak_time) then
      (peaks ++ [ {| pk_time := ls_time point;
                     pk_volume := ls_volume point;
                     pk_type := "high_volume_moment" |} ],
       ls_time point)
    else state
  else state.

(** [detect_volume_peaks] on the timeline that
    [get_volume_timeline(audio_path, window_seconds=1.0)] returned; the
    audio decoding behind the timeline is not part of the model. *)
Definition detect_volume_peaks (timeline : list LoudnessSample)
    (threshold min_gap_seconds : Q) : list Peak :=
  fst (fold_left (peak_step threshold min_gap_seconds) timeline
         ([], - min_gap_seconds)%Q).

Definition default_threshold : Q := 0.6.
Definition default_min_gap_seconds : Q := 10.

Import information_extraction.
Local Open Scope Q_scope.

(** A call that can raise [ValueError]. *)
Inductive outcome (A : Type) : Type :=
| Returned (a : A)
| ValueError.
Arguments Returned {A} a.
Arguments ValueError {A}.

Definition and_then {A B} (m : outcome A) (f : A → outcome B) : outcome B :=
  match m with
  | Returned a => f a
  | ValueError => ValueError
  end.

(** [range(0, stop, step)]; a zero step raises [ValueError]. *)
Definition range (stop step : Z) : outcome (list Z) :=
  if (step =? 0)%Z then ValueError
  else
    let count :=
      if (0 <? step)%Z then ((stop + step - 1) / step)%Z
      else ((- stop + - step - 1) / - step)%Z in
    Returned (map (λ k, (step * Z.of_nat k)%Z) (seq 0 (Z.to_nat count))).

(** [calculate_peak]: [np.max(np.abs(chunk))], which raises [ValueError]
    on an empty array. *)
Definition calculate_peak (audio_chunk : list Q) : outcome Q :=
  match audio_chunk with
  | [] => ValueError
  | x :: rest => Returned (fold_left (λ m y, py.Qmax m (Qabs y)) rest (Qabs x))
  end.

(** [min(rms / (global_rms * 2), 1.0) if global_rms > 0 else 0] *)
Definition normalize_rms (rms global_rms : Q) : Q :=
  if py.Qltb 0 global_rms then py.Qmin (rms / (global_rms * 2)) 1 else 0.

(** [min(peak / global_peak, 1.0) if global_peak > 0 else 0] *)
Definition normalize_peak (peak global_peak : Q) : Q :=
  if py.Qltb 0 global_peak then py.Qmin (peak / global_peak) 1 else 0.

(** [get_volume_timeline] on the [(sample_rate, audio_data)] that
    [load_audio] returned. [calculate_rms] stands for the source's
    [np.sqrt(np.mean(chunk ** 2))], which has no rational model. The
    number of samples in a window is taken from the exact product: it is
    the code's for every window that is a whole number of samples, as the
    windows of one and two seconds are. The volumes are normalised and
    rounded exactly, where numpy works on single-precision numbers. *)
Definition get_volume_timeline (calculate_rms : list Q → Q)
    (sample_rate : positive) (audio_data : list Q) (window_seconds : Q)
    : outcome (list LoudnessSample) :=
  let window_samples := py.int (window_seconds * inject_Z (Zpos sample_rate)) in
  let global_rms := calculate_rms audio_data in
  and_then (range (Z.of_nat (length audio_data)) window_samples)
    (λ starts,
       Returned
         (fold_left
            (λ timeline i,
               let chunk := py.slice audio_data i (i + window_samples) in
               if (0 <? Z.of_nat (length chunk))%Z then
                 let rms := calculate_rms chunk in
                 let rms_normalized := normalize_rms rms global_rms in
                 timeline
                 ++ [ {| ls_time :=
                           py.round
                             (py.fdiv (inject_Z i)
                                (inject_Z (Zpos sample_rate))) 2;
                         ls_volume := py.round rms_normalized 3 |} ]
               else timeline)
            starts [])).

(** [detect_volume_peaks(audio_path, threshold, min_gap_seconds)] from the
    loaded audio: the scan over the one-second timeline. *)
Definition detect_volume_peaks_of_audio (calculate_rms : list Q → Q)
    (sample_rate : positive) (audio_data : list Q)
    (threshold min_gap_seconds : Q) : outcome (list Peak) :=
  and_then (get_volume_timeline calculate_rms sample_rate audio_data 1)
    (λ timeline,
       Returned (detect_volume_peaks timeline threshold min_gap_seconds)).
(** An element of the list [get_volume_for_segments] returns: the segment
    with the three keys added. *)
Record VolumeRecord : Type := {
  vr_segment : Segment;
  vr_rms : Q;
  vr_peak : Q;
  vr_volume_score : Q
}.

(** The clamped sample range of a segment; the times are floats, and so
    are their products with the sample rate. *)
Definition sample_range (sample_rate : positive) (n : Z)
    (segment : Segment) : Z * Z :=
  let start_time := py.get (seg_start segment) 0 in
  let end_time :=
    py.get (seg_end segment) (py.fadd start_time 5) in
  let start_idx := py.int (py.fmul start_time (inject_Z (Zpos sample_rate))) in
  let end_idx := py.int (py.fmul end_time (inject_Z (Zpos sample_rate))) in
  let start_idx := Z.max 0 (Z.min start_idx (n - 1)) in
  let end_idx := Z.max (start_idx + 1) (Z.min end_idx n) in
  (start_idx, end_idx).

(** Body of the segment loop of [get_volume_for_segments]. *)
Definition volume_of_segment (calculate_rms : list Q → Q)
    (sample_rate : positive) (audio_data : list Q) (global_rms global_peak : Q)
    (segment : Segment) : outcome VolumeRecord :=
  let '(start_idx, end_idx) :=
    sample_range sample_rate (Z.of_nat (length audio_data)) segment in
  let chunk := py.slice audio_data start_idx end_idx in
  and_then
    (if (0 <? Z.of_nat (length chunk))%Z then
       let rms := calculate_rms chunk in
       and_then (calculate_peak chunk)
         (λ peak,
            let rms_normalized := normalize_rms rms global_rms in
            let peak_normalized := normalize_peak peak global_peak in
            let volume_score :=
              rms_normalized * 0.7 + peak_normalized * 0.3 in
            Returned (rms_normalized, peak_normalized, volume_score))
     else Returned (0, 0, 0))
    (λ '(rms_normalized, peak_normalized, volume_score),
       Returned {| vr_segment := segment;
                   vr_rms := py.round rms_normalized 3;
                   vr_peak := py.round peak_normalized 3;
                   vr_volume_score := py.round volume_score 3 |}).

(** [for x in xs: results.append(f(x))] where [f] may raise. *)
Fixpoint collect {A B} (f : A → outcome B) (xs : list A) (results : list B)
    : outcome (list B) :=
  match xs with
  | [] => Returned results
  | x :: xs' => and_then (f x) (λ y, collect f xs' (results ++ [y]))
  end.

(** [get_volume_for_segments] on the [(sample_rate, audio_data)] that
    [load_audio] returned. *)
Definition get_volume_for_segments (calculate_rms : list Q → Q)
    (sample_rate : positive) (audio_data : list Q)
    (segments : list Segment)
    : outcome (list VolumeRecord) :=
  let global_rms := calculate_rms audio_data in
  and_then (calculate_peak audio_data)
    (λ global_peak,
       collect
         (volume_of_segment calculate_rms sample_rate audio_data
            global_rms global_peak)
         segments []).

End audio_volume.

(** ** sentiment_analyzer.py *)

Module sentiment_analyzer.
Import re.
Import information_extraction.

(** What the code reads of a spaCy token. *)
Record Token : Type := {
  lemma_ : string;
  pos_ : string;
  is_punct : bool;
  is_space : bool
}.

(** A loaded pipeline: [nlp(text)] is the token sequence [doc]. The
    module-level [nlp] is [None] when [spacy.load] raised [OSError]. *)
Definition Language : Type := string → list Token.

Definition EXCITEMENT_LEMMAS : list string :=
  [ "goal"; "score"; "brilliant"; "amazing"; "incredible"; "fantastic";
    "unbelievable"; "wow"; "beautiful"; "stunning"; "magnificent";
    "sensational"; "spectacular"; "wonderful"; "superb"; "perfect";
    "genius"; "magic"; "masterclass"; "clinical"; "unstoppable" ].

Definition TENSION_LEMMAS : list string :=
  [ "foul"; "card"; "injury"; "hurt"; "miss"; "save"; "block";
    "dangerous"; "close"; "almost"; "nearly"; "offside"; "controversial" ].

Definition INTENSIFIERS : list string :=
  [ "very"; "so"; "really"; "absolutely"; "completely"; "totally";
    "incredibly"; "extremely"; "truly"; "just" ].

Definition NEGATIONS : list string :=
  [ "not"; "no"; "never"; "none"; "nothing"; "neither"; "nobody" ].

Definition INTENSITY_PATTERNS : gmap string (list regex) :=
  {[ "high" :=
       [ AtLeast 2 (Chr "!");                      (* !{2,} *)
         AtLeast 3 (Range "A" "Z");                (* [A-Z]{3,} *)
         word_alts [lit "GOAL"; lit "YES"; lit "WOW"; lit "OH"];
         seq [lit "what a ";
              alts [lit "goal"; lit "strike"; lit "save"; lit "finish";
                    lit "pass"; lit "hit"]];
         alts [lit "brilliant"; lit "amazing"; lit "incredible";
               lit "unbelievable"; lit "sensational"] ];
     "medium" :=
       [ At (Chr "!");
         alts [lit "good"; lit "nice"; lit "well done"; lit "great"];
         alts [lit "chance"; lit "shot"; lit "opportunity"; lit "attack"] ];
     "low" :=
       [ alts [lit "pass"; lit "possession"; lit "back"; lit "sideways"];
         alts [lit "waiting"; lit "looking"; lit "patient"; lit "calm"] ] ]}.

(** Counters of the token loop of [analyze_with_spacy]. *)
Record Counts : Type := {
  excitement_count : Z;
  tension_count : Z;
  intensifier_count : Z;
  has_negation : bool
}.

Definition count_token (c : Counts) (token : Token) : Counts :=
  let lemma := py.lower (lemma_ token) in
  {| excitement_count :=
       if py.contains EXCITEMENT_LEMMAS lemma
       then (excitement_count c + 1)%Z else excitement_count c;
     tension_count :=
       if py.contains TENSION_LEMMAS lemma
       then (tension_count c + 1)%Z else tension_count c;
     intensifier_count :=
       if py.contains INTENSIFIERS lemma
       then (intensifier_count c + 1)%Z else intensifier_count c;
     has_negation :=
       if py.contains NEGATIONS lemma then true else has_negation c |}.

Definition len {A} (l : list A) : Z := Z.of_nat (length l).

Definition analyze_with_spacy (nlp : option Language) (text : string)
    : gmap string py.value :=
  match nlp with
  | None =>
      {[ "excitement_score" := py.Num 0;
         "tension_score" := py.Num 0;
         "has_intensifier" := py.Bool false;
         "has_negation" := py.Bool false ]}
  | Some nlp =>
      let doc := nlp text in
      let c := fold_left count_token doc
                 {| excitement_count := 0; tension_count := 0;
                    intensifier_count := 0; has_negation := false |} in
      let adjectives :=
        List.filter (λ token, py.contains ["ADJ"; "ADV"] (pos_ token)) doc in
      let strong_adj_count :=
        len (List.filter
               (λ adj, py.contains EXCITEMENT_LEMMAS (py.lower (lemma_ adj)))
               adjectives) in
      let word_count :=
        len (List.filter (λ t, negb (is_punct t) && negb (is_space t)) doc) in
      let excitement_score :=
        ((inject_Z (excitement_count c) + inject_Z strong_adj_count * 0.5)
         / inject_Z (Z.max word_count 1))%Q in
      let tension_score :=
        (inject_Z (tension_count c) / inject_Z (Z.max word_count 1))%Q in
      {[ "excitement_score" := py.Num (py.Qmin (excitement_score * 3) 1);
         "tension_score" := py.Num (py.Qmin (tension_score * 3) 1);
         "has_intensifier" := py.Bool (0 <? intensifier_count c)%Z;
         "has_negation" := py.Bool (has_negation c);
         "adjective_count" := py.Num (inject_Z (len adjectives));
         "word_count" := py.Num (inject_Z word_count) ]}
  end.

(** [for pattern in patterns: if re.search(pattern, text, re.IGNORECASE):
    score += bonus] *)
Definition add_pattern_bonus (patterns : list regex) (text : string)
    (bonus score : Q) : Q :=
  fold_left
    (λ score pattern,
       if search pattern text true then (score + bonus)%Q else score)
    patterns score.

Definition calculate_intensity (nlp : option Language) (text : string)
    : py.result Q :=
  let score := 0%Q in
  let spacy_analysis := analyze_with_spacy nlp text in
  excitement ← py.getitem spacy_analysis "excitement_score";
  let score := (score + py.num_of excitement * 0.4)%Q in
  tension ← py.getitem spacy_analysis "tension_score";
  let score := (score + py.num_of tension * 0.2)%Q in
  has_intensifier ← py.getitem spacy_analysis "has_intensifier";
  let score :=
    if py.truthy has_intensifier then (score + 0.1)%Q else score in
  high ← py.getitem INTENSITY_PATTERNS "high";
  let score := add_pattern_bonus high text 0.2 score in
  medium ← py.getitem INTENSITY_PATTERNS "medium";
  let score := add_pattern_bonus medium text 0.08 score in
  let exclamation_count := py.count_char "!" text in
  let score :=
    (score + py.Qmin (inject_Z exclamation_count * 0.08) 0.25)%Q in
  let question_count := py.count_char "?" text in
  let score := (score + py.Qmin (inject_Z question_count * 0.05) 0.1)%Q in
  let caps_chars := py.count_if py.isupper text in
  let alpha_chars := py.count_if py.isalpha text in
  let score :=
    if (0 <? alpha_chars)%Z then
      let caps_ratio := (inject_Z caps_chars / inject_Z alpha_chars)%Q in
      if py.Qltb 0.3 caps_ratio then (score + 0.15)%Q else score
    else score in
  mret (py.Qmin score 1).

Definition classify_moment (intensity : Q) : string :=
  if Qle_bool 0.6 intensity then "exciting"
  else if Qle_bool 0.3 intensity then "moderate"
  else "calm".

Definition get_sentiment_label (intensity tension_score : Q) : string :=
  if Qle_bool 0.7 intensity then "very_exciting"
  else if Qle_bool 0.5 intensity then
    if py.Qltb 0.3 tension_score then "tense" else "exciting"
  else if Qle_bool 0.3 intensity then "moderate"
  else "calm".

(** [calculate_intensity_with_volume(text, volume_score)]: the weighted
    sum and the bonus are float operations on the float literals [0.6],
    [0.4] and [0.1]. *)
Definition calculate_intensity_with_volume (nlp : option Language)
    (text : string) (volume_score : Q) : py.result Q :=
  text_intensity ← calculate_intensity nlp text;
  let combined_intensity :=
    py.fadd (py.fmul text_intensity (py.float 0.6))
      (py.fmul volume_score (py.float 0.4)) in
  let combined_intensity :=
    if py.Qltb 0.5 text_intensity && py.Qltb 0.5 volume_score
    then py.Qmin (py.fadd combined_intensity (py.float 0.1)) 1
    else combined_intensity in
  mret (py.round combined_intensity 2).

(** An element of [segments_with_volume]: the keys [analyze_sentiment]
    reads from it. *)
Record SegmentWithVolume : Type := {
  sv_start : option Q;
  sv_volume_score : option Q
}.

Record LinguisticFeatures : Type := {
  lf_excitement_score : Q;
  lf_tension_score : Q;
  lf_has_intensifier : py.value;
  lf_word_count : py.value
}.

(** An element of the list [analyze_sentiment] returns. [ir_sentiment] is
    optional because [get_intensity_summary] reads it with a default;
    [ir_audio_features] holds the [volume_score] of the optional
    [audio_features] entry. *)
Record IntensityRecord : Type := {
  ir_time : Q;
  ir_text : string;
  ir_intensity : Q;
  ir_mood : string;
  ir_sentiment : option string;
  ir_linguistic_features : LinguisticFeatures;
  ir_audio_features : option Q
}.

(** The key under which a start time is stored and looked up:
    [round(start, 1)]. *)
Definition time_key (start : Q) : Qc := Q2Qc (py.round start 1).

(** The volume lookup built at the start of [analyze_sentiment]; [None]
    and the empty list both leave it empty. *)
Definition build_volume_lookup
    (segments_with_volume : option (list SegmentWithVolume)) : gmap Qc Q :=
  match segments_with_volume with
  | None => ∅
  | Some segs =>
      fold_left
        (λ volume_lookup seg,
           <[ time_key (py.get (sv_start seg) 0%Q) :=
                py.get (sv_volume_score seg) 0%Q ]> volume_lookup)
        segs ∅
  end.

(** Body of the segment loop of [analyze_sentiment], up to the record it
    appends. *)
Definition analyze_segment (nlp : option Language)
    (volume_lookup : gmap Qc Q) (segment : Segment)
    : py.result IntensityRecord :=
  let text := py.get (seg_text segment) EmptyString in
  let start_time := py.get (seg_start segment) 0%Q in
  let spacy_analysis := analyze_with_spacy nlp text in
  let volume_score := py.get (volume_lookup !! time_key start_time) 0%Q in
  intensity ←
    (if py.Qltb 0 volume_score
     then calculate_intensity_with_volume nlp text volume_score
     else calculate_intensity nlp text);
  tension ← py.getitem spacy_analysis "tension_score";
  excitement_score ← py.getitem spacy_analysis "excitement_score";
  tension_score ← py.getitem spacy_analysis "tension_score";
  has_intensifier ← py.getitem spacy_analysis "has_intensifier";
  word_count ← py.getitem spacy_analysis "word_count";
  mret {| ir_time := start_time;
          ir_text := py.strip text;
          ir_intensity := intensity;
          ir_mood := classify_moment intensity;
          ir_sentiment :=
            Some (get_sentiment_label intensity (py.num_of tension));
          ir_linguistic_features :=
            {| lf_excitement_score := py.round (py.num_of excitement_score) 2;
               lf_tension_score := py.round (py.num_of tension_score) 2;
               lf_has_intensifier := has_intensifier;
               lf_word_count := word_count |};
          ir_audio_features :=
            if py.Qltb 0 volume_score then Some volume_score else None |}.

Definition analyze_sentiment (nlp : option Language)
    (segments : list Segment)
    (segments_with_volume : option (list SegmentWithVolume))
    : py.result (list IntensityRecord) :=
  let volume_lookup := build_volume_lookup segments_with_volume in
  py.for_loop
    (λ results segment,
       result ← analyze_segment nlp volume_lookup segment;
       mret (results ++ [result]))
    segments [].

Record IntensitySummary : Type := {
  average_intensity : Q;
  peak_intensity : Q;
  peak_moment_time : Q;
  mood_distribution : gmap string Z;
  sentiment_distribution : gmap string Z;
  total_segments : Z;
  exciting_percentage : Q
}.

(** [d[k] += 1] *)
Definition increment (d : gmap string Z) (k : string)
    : py.result (gmap string Z) :=
  n ← py.getitem d k;
  mret (<[ k := (n + 1)%Z ]> d).

(** Body of the counting loop of [get_intensity_summary]. *)
Definition tally (state : gmap string Z * gmap string Z)
    (m : IntensityRecord) : py.result (gmap string Z * gmap string Z) :=
  moods ← increment state.1 (ir_mood m);
  sentiments ← increment state.2 (py.get (ir_sentiment m) "calm");
  mret (moods, sentiments).

(** [max(analyzed, key=lambda x: x["intensity"]) if analyzed else None]:
    the first record of greatest intensity. *)
Definition peak_of (analyzed : list IntensityRecord)
    : option IntensityRecord :=
  match analyzed with
  | [] => None
  | m :: rest =>
      Some (fold_left
              (λ best x,
                 if py.Qltb (ir_intensity best) (ir_intensity x)
                 then x else best)
              rest m)
  end.

(** [get_intensity_summary(analyzed)]: [sum] adds the intensities up from
    the left in floats, and both quotients are float divisions. *)
Definition get_intensity_summary (analyzed : list IntensityRecord)
    : py.result IntensitySummary :=
  let moods : gmap string Z :=
    {[ "exciting" := 0%Z; "moderate" := 0%Z; "calm" := 0%Z ]} in
  let sentiments : gmap string Z :=
    {[ "very_exciting" := 0%Z; "exciting" := 0%Z; "tense" := 0%Z;
       "moderate" := 0%Z; "calm" := 0%Z ]} in
  counted ← py.for_loop tally analyzed (moods, sentiments);
  let moods := counted.1 in
  let sentiments := counted.2 in
  let total := len analyzed in
  let avg_intensity :=
    if (0 <? total)%Z
    then py.fdiv
           (fold_left (λ acc m, py.fadd acc (ir_intensity m)) analyzed 0%Q)
           (inject_Z total)
    else 0%Q in
  let peak := peak_of analyzed in
  exciting_percentage ←
    (if (0 <? total)%Z
     then exciting ← py.getitem moods "exciting";
          mret (py.round
                  (py.fmul (py.fdiv (inject_Z exciting) (inject_Z total)) 100)
                  1)
     else mret 0%Q);
  mret {| average_intensity := py.round avg_intensity 2;
          peak_intensity :=
            match peak with
            | Some peak => py.round (ir_intensity peak) 2
            | None => 0%Q
            end;
          peak_moment_time :=
            match peak with
            | Some peak => ir_time peak
            | None => 0%Q
            end;
          mood_distribution := moods;
          sentiment_distribution := sentiments;
          total_segments := total;
          exciting_percentage := exciting_percentage |}.

(** [get_exciting_moments(analyzed, threshold=0.5)] *)
Definition get_exciting_moments (analyzed : list IntensityRecord)
    (threshold : Q) : list IntensityRecord :=
  List.filter (λ m, Qle_bool threshold (ir_intensity m)) analyzed.

(** [get_peak_moments(analyzed, top_n=5)] *)
Definition get_peak_moments (analyzed : list IntensityRecord) (top_n : Z)
    : list IntensityRecord :=
  let sorted_moments := py.sorted analyzed ir_intensity true in
  py.slice_to sorted_moments top_n.

End sentiment_analyzer.

(** ** insights.py *)

Module insights.
Import information_extraction.

(** An event as [generate_event_timeline] reads it: every key is read with
    a default, so every key may be absent. *)
Record EventDict : Type := {
  ed_time : option Q;
  ed_type : option string;
  ed_text : option string
}.

(** An event returned by [detect_events_with_timestamps], read that way. *)
Definition as_dict (e : Event) : EventDict :=
  {| ed_time := Some (ev_time e); ed_type := Some (ev_type e);
     ed_text := Some (ev_text e) |}.

Record TimelineEntry : Type := {
  te_time : Q;
  te_minute : Z;
  te_type : string;
  te_description : string
}.

(** [generate_event_timeline(events)] *)
Definition generate_event_timeline (events : list EventDict)
    : list TimelineEntry :=
  fold_left
    (λ timeline event,
       timeline
       ++ [ {| te_time := py.round (py.get (ed_time event) 0%Q) 1;
               te_minute := py.floordiv (py.get (ed_time event) 0%Q) 60;
               te_type := py.get (ed_type event) "unknown";
               te_description :=
                 py.str_slice_to (py.get (ed_text event) EmptyString) 100 |} ])
    (py.sorted events (λ x, py.get (ed_time x) 0%Q) false) [].


End insights.

(** ** main.py *)

Module main.
Import information_extraction audio_volume sentiment_analyzer.

(** The two keys [analyze_sentiment] reads from such a record. *)
Definition as_segment_with_volume (r : VolumeRecord)
    : SegmentWithVolume :=
  {| sv_start :=
       seg_start (vr_segment r);
     sv_volume_score := Some (vr_volume_score r) |}.

(** The two steps of [analyze_match] that join audio and text:
    [segments_with_volume = get_volume_for_segments(audio, segments)] and
    [analyzed = analyze_sentiment(segments, segments_with_volume)]. The
    outer [None] is a [ValueError] of the first step. *)
Definition analyze_with_audio (nlp : option Language)
    (calculate_rms : list Q → Q) (sample_rate : positive)
    (audio_data : list Q) (segments : list Segment)
    : option (py.result (list IntensityRecord)) :=
  match get_volume_for_segments calculate_rms sample_rate audio_data segments with
  | Returned segments_with_volume =>
      Some (analyze_sentiment nlp segments
              (Some (as_segment_with_volume <$> segments_with_volume)))
  | ValueError => None
  end.

End main.

(** ** The specification's vocabulary *)

Module spec.
Import information_extraction audio_volume sentiment_analyzer.
Local Open Scope Q_scope.

(** The fixed priority order of the event categories. *)
Definition PRIORITY : list string :=
  [ "goal"; "foul"; "yellow_card"; "red_card"; "offside"; "substitution";
    "injury" ].

(** Some pattern of category [c] matches the lowercased text. *)
Definition category_matches (c : string) (text_lower : string) : Prop :=
  ∃ patterns,
    (c, patterns) ∈ EVENT_PATTERNS ∧ any_match patterns text_lower = true.

(** [c] is the first category, in priority order, that matches. *)
Definition first_match (c : string) (text_lower : string) : Prop :=
  ∃ i, PRIORITY !! i = Some c
       ∧ category_matches c text_lower
       ∧ ∀ j c', (j < i)%nat → PRIORITY !! j = Some c' →
                 ¬ category_matches c' text_lower.

(** Suppression window of an event type: 15 s for goals, 10 s otherwise. *)
Definition window (type : string) : Q :=
  if decide (type = "goal") then 15 else 10.

(** An accepted event of the same type lies within the candidate's
    window. *)
Definition within_window (candidate accepted : Event) : Prop :=
  ev_type accepted = ev_type candidate
  ∧ Qabs (ev_time candidate - ev_time accepted) < window (ev_type candidate).

(** The same test as the code makes it: on the float difference of the
    two times. *)
Definition measured_within (candidate accepted : Event) : Prop :=
  ev_type accepted = ev_type candidate
  ∧ Qabs (py.fsub (ev_time accepted) (ev_time candidate))
    < window (ev_type candidate).

(** Samples in non-decreasing time order. *)
Definition chronological (timeline : list LoudnessSample) : Prop :=
  ∀ i j a b, (i ≤ j)%nat → timeline !! i = Some a → timeline !! j = Some b →
             ls_time a <= ls_time b.


(** The weighted sum as the code computes it, in floats. *)
Definition weighted (text_intensity volume_score : Q) : Q :=
  py.fadd (py.fmul text_intensity (py.float 0.6))
    (py.fmul volume_score (py.float 0.4)).


(** A value with at most two decimal places. *)
Definition two_decimal (x : Q) : Prop := ∃ n : Z, x == inject_Z n / 100.

(** The summary of an empty record list. *)
Definition empty_summary : IntensitySummary :=
  {| average_intensity := 0;
     peak_intensity := 0;
     peak_moment_time := 0;
     mood_distribution :=
       {[ "exciting" := 0%Z; "moderate" := 0%Z; "calm" := 0%Z ]};
     sentiment_distribution :=
       {[ "very_exciting" := 0%Z; "exciting" := 0%Z; "tense" := 0%Z;
          "moderate" := 0%Z; "calm" := 0%Z ]};
     total_segments := 0;
     exciting_percentage := 0 |}.

(** The event the matcher builds for category [c]. *)
Definition event_of (c text : string) (start_time : Q) : Event :=
  {| ev_type := c; ev_text := py.strip text; ev_time := start_time |}.

Definition goal_at (text : string) (time : Q) : Event :=
  {| ev_type := "goal"; ev_text := text; ev_time := time |}.

(** Two goals at the floats [0.1] and [15.1]: the values held are less than
    15 apart, their float difference is [15.0]. *)
Definition boundary_first : Event := goal_at "first" (py.float 0.1).
Definition boundary_second : Event := goal_at "second" (py.float 15.1).

(** Lists in which no element is suppressed by an earlier one: the
    invariant of the deduplicator's accepted list. *)
Inductive separated : list Event → Prop :=
| separated_nil : separated []
| separated_snoc l e :
    separated l → existsb (suppresses e) l = false → separated (l ++ [e]).

(** The gap the scan keeps between an earlier peak [p] and a later one. *)
Definition spaced (gap : Q) (p q : Peak) : Prop :=
  gap <= pk_time q - pk_time p.

Definition not_after (a b : LoudnessSample) : Prop :=
  ls_time a <= ls_time b.

(** A pipeline that annotates every text as seven words, one of them the
    noun "goal". *)
Definition word (lemma pos : string) : Token :=
  {| lemma_ := lemma; pos_ := pos; is_punct := false; is_space := false |}.

Definition seven_words : Language :=
  λ _, [ word "a" "DET"; word "goal" "NOUN"; word "b" "X"; word "c" "X";
         word "d" "X"; word "e" "X"; word "f" "X" ].


Definition segment_at (start : Q) (text : string) : Segment :=
  {| seg_start := Some start; seg_end := None; seg_text := Some text |}.

(** Volumes 0.7 at 5 s, 0.8 at 8 s, 0.65 at 20 s. *)
Definition scenario_timeline : list LoudnessSample :=
  [ {| ls_time := 5; ls_volume := 0.7 |};
    {| ls_time := 8; ls_volume := 0.8 |};
    {| ls_time := 20; ls_volume := 0.65 |} ].

End spec.

(** ** Vocabulary of the further properties *)

Module spec_ext.
Import information_extraction audio_volume sentiment_analyzer insights main spec.
Local Open Scope Q_scope.

(** A segment that carries both keys the matcher reads. *)
Definition complete (segment : Segment) : Prop :=
  is_Some (seg_text segment) ∧ is_Some (seg_start segment).

(** The events of type [T], in their order. *)
Definition of_type (T : string) (events : list Event) : list Event :=
  List.filter (λ e, String.eqb (ev_type e) T) events.

Definition scenario_goals : list Event :=
  [goal_at "first" 100; goal_at "again" 108; goal_at "second" 200].

(** The event comes from this segment: its time is the segment's start, its
    text the stripped segment text, its type the first matching category. *)
Definition detected_in (segment : Segment) (e : Event) : Prop :=
  ∃ text, seg_text segment = Some text
          ∧ seg_start segment = Some (ev_time e)
          ∧ ev_text e = py.strip text
          ∧ first_match (ev_type e) (py.lower text).

Definition scenario_segments : list Segment :=
  [ segment_at 12 "And it's in! What a goal";
    segment_at 20 "Back of the net";
    segment_at 95 "That is a yellow card" ].

(** The peak record the scan appends for a sample. *)
Definition peak_at (point : LoudnessSample) : Peak :=
  {| pk_time := ls_time point; pk_volume := ls_volume point;
     pk_type := "high_volume_moment" |}.

(** [last_peak_time] agrees with the recorded peaks: the time of the last
    one, or the initial [-min_gap_seconds]. *)
Definition tracks (gap : Q) (peaks : list Peak) (last_peak_time : Q) : Prop :=
  match last peaks with
  | Some p => last_peak_time = pk_time p
  | None => last_peak_time = (- gap)%Q
  end.

(** Order of two neighbours in the output of [sorted]. *)
Definition in_order {A} (key : A → Q) (reverse : bool) (a b : A) : Prop :=
  if reverse then key b <= key a else key a <= key b.

(** The choice [max] makes between its running best and the next record. *)
Definition keep_greater (best x : IntensityRecord) : IntensityRecord :=
  if py.Qltb (ir_intensity best) (ir_intensity x) then x else best.

(** What [analyze_sentiment] stores for a segment, given the volume lookup:
    the record's time, text and labels follow from the segment and from the
    stored intensity, and [audio_features] is present exactly for a
    positive looked-up volume. *)
Definition record_of (volume_lookup : gmap Qc Q) (segment : Segment)
    (r : IntensityRecord) : Prop :=
  let volume_score :=
    py.get (volume_lookup !! time_key (py.get (seg_start segment) 0)) 0 in
  ir_time r = py.get (seg_start segment) 0
  ∧ ir_text r = py.strip (py.get (seg_text segment) EmptyString)
  ∧ ir_mood r = classify_moment (ir_intensity r)
  ∧ (∃ tension, ir_sentiment r
                = Some (get_sentiment_label (ir_intensity r) tension))
  ∧ ir_audio_features r
    = (if py.Qltb 0 volume_score then Some volume_score else None)
  ∧ (volume_score <= 1 → 0 <= ir_intensity r <= 1).

Definition is_exciting (m : IntensityRecord) : bool :=
  String.eqb (ir_mood m) "exciting".

Definition sentiment_excited (m : IntensityRecord) : bool :=
  py.contains ["very_exciting"; "exciting"; "tense"]
    (py.get (ir_sentiment m) "calm").

Definition MOODS : list string := ["exciting"; "moderate"; "calm"].
Definition SENTIMENTS : list string :=
  ["very_exciting"; "exciting"; "tense"; "moderate"; "calm"].

(** The sentiment the summary counts a record under. *)
Definition sentiment_of (m : IntensityRecord) : string :=
  py.get (ir_sentiment m) "calm".

(** A record whose labels are keys of the summary's two counters. *)
Definition labelled (m : IntensityRecord) : Prop :=
  ir_mood m ∈ MOODS ∧ sentiment_of m ∈ SENTIMENTS.

(** How many records carry the label. *)
Definition count_label (label_of : IntensityRecord → string) (label : string)
    (analyzed : list IntensityRecord) : Z :=
  Z.of_nat (length (List.filter (λ m, String.eqb (label_of m) label) analyzed)).

(** The counters [get_intensity_summary] starts from. *)
Definition initial_moods : gmap string Z :=
  {[ "exciting" := 0%Z; "moderate" := 0%Z; "calm" := 0%Z ]}.
Definition initial_sentiments : gmap string Z :=
  {[ "very_exciting" := 0%Z; "exciting" := 0%Z; "tense" := 0%Z;
     "moderate" := 0%Z; "calm" := 0%Z ]}.

(** [sum(m["intensity"] for m in analyzed)], added up in floats. *)
Definition total_intensity (analyzed : list IntensityRecord) : Q :=
  fold_left (λ acc m, py.fadd acc (ir_intensity m)) analyzed 0.

(** Three segments and the volumes measured for the first two. *)
Definition sample_segments : list Segment :=
  [ segment_at 0 "GOAL!!! What a strike"; segment_at 4.5 "a b";
    segment_at 9 "Oh no, that is a foul" ].

Definition sample_volumes : list SegmentWithVolume :=
  [ {| sv_start := Some 0; sv_volume_score := Some 0.9 |};
    {| sv_start := Some 4.5; sv_volume_score := Some 0.2 |} ].

Definition sample_records : list IntensityRecord :=
  Eval vm_compute in
    match analyze_sentiment (Some seven_words) sample_segments
            (Some sample_volumes) with
    | py.Ok records => records
    | py.KeyError _ => []
    end.

(** The key a volume entry is stored under, and the volume stored. *)
Definition key_of (seg : SegmentWithVolume) : Qc :=
  time_key (py.get (sv_start seg) 0).
Definition volume_of (seg : SegmentWithVolume) : Q :=
  py.get (sv_volume_score seg) 0.

(** A token whose lowercased lemma is in the vocabulary. *)
Definition in_vocabulary (vocabulary : list string) (token : Token) : bool :=
  py.contains vocabulary (py.lower (lemma_ token)).

(** The timeline point the loop appends for the window starting at sample
    [i]. *)
Definition point_at (calculate_rms : list Q → Q) (sample_rate : positive)
    (audio_data : list Q) (window_samples i : Z) : LoudnessSample :=
  {| ls_time :=
       py.round (py.fdiv (inject_Z i) (inject_Z (Zpos sample_rate))) 2;
     ls_volume :=
       py.round
         (normalize_rms
            (calculate_rms (py.slice audio_data i (i + window_samples)))
            (calculate_rms audio_data)) 3 |}.

(** The number of windows: [len(audio_data) / window_samples], rounded up. *)
Definition window_count (audio_data : list Q) (window_samples : Z) : nat :=
  Z.to_nat ((Z.of_nat (length audio_data) + window_samples - 1) / window_samples).

(** A stand-in for the root mean square: the largest absolute sample. *)
Definition loudest (chunk : list Q) : Q :=
  match calculate_peak chunk with
  | Returned peak => peak
  | ValueError => 0
  end.

(** A short track: five samples at two samples per second. *)
Definition sample_audio : list Q := [0.1; 0.2; -0.5; 0.3; 0.9].

(** What [analyze_match] gets for the sample segments on that track, with
    the largest absolute sample standing in for the root mean square. *)
Definition sample_records_audio : list IntensityRecord :=
  Eval vm_compute in
    match analyze_with_audio (Some seven_words) loudest 2
            sample_audio sample_segments with
    | Some (py.Ok records) => records
    | _ => []
    end.

(** A record whose three values lie in [0,1]. *)
Definition normalized (r : VolumeRecord) : Prop :=
  0 <= vr_rms r <= 1 ∧ 0 <= vr_peak r <= 1 ∧ 0 <= vr_volume_score r <= 1.

(** The time an event is sorted and bucketed by: its [time], or 0. *)
Definition time_of (event : EventDict) : Q := py.get (ed_time event) 0.

(** The timeline entry written for an event. *)
Definition entry_for (event : EventDict) (entry : TimelineEntry) : Prop :=
  te_time entry = py.round (time_of event) 1
  ∧ inject_Z (60 * te_minute entry) <= time_of event
  ∧ time_of event < inject_Z (60 * te_minute entry + 60)
  ∧ te_type entry = py.get (ed_type event) "unknown"
  ∧ list_ascii_of_string (te_description entry)
    = take 100 (list_ascii_of_string (py.get (ed_text event) EmptyString)).
(** The entry the loop of [generate_event_timeline] appends for an event. *)
Definition entry_of (event : EventDict) : TimelineEntry :=
  {| te_time := py.round (py.get (ed_time event) 0) 1;
     te_minute := py.floordiv (py.get (ed_time event) 0) 60;
     te_type := py.get (ed_type event) "unknown";
     te_description :=
       py.str_slice_to (py.get (ed_text event) EmptyString) 100 |}.

(** What [extract_entities] keeps true of its collections: every player of
    the player-team map is a recorded person and the team a recorded team;
    stadiums hold only values naming a stadium and locations only values
    that do not. *)
Definition consistent (c : Entities) : Prop :=
  (∀ person team, player_team_map c !! person = Some team →
                  person ∈ persons c ∧ team ∈ teams c)
  ∧ (∀ value, value ∈ stadiums c → names_stadium value = true)
  ∧ (∀ value, value ∈ locations c → names_stadium value = false).

(** [c] has everything [c0] has, with the same team for every player
    already mapped. *)
Definition extends (c0 c : Entities) : Prop :=
  persons c0 ⊆ persons c ∧ teams c0 ⊆ teams c
  ∧ possible_teams c0 ⊆ possible_teams c ∧ stadiums c0 ⊆ stadiums c
  ∧ locations c0 ⊆ locations c ∧ officials c0 ⊆ officials c
  ∧ player_team_map c0 ⊆ player_team_map c.
(** Two sentences naming the same player beside different clubs, and the
    pipeline that returns them for every text. *)
Definition sample_sentences : list Sentence * list Sentence :=
  ( [ {| sent_text := "Kane scores a goal for Spurs";
         sent_ents := [ {| label_ := "PERSON"; ent_text := "Kane" |};
                        {| label_ := "ORG"; ent_text := "Spurs" |} ] |} ],
    [ {| sent_text := "Kane wins the ball in the match against Arsenal";
         sent_ents := [ {| label_ := "PERSON"; ent_text := "Kane" |};
                        {| label_ := "ORG"; ent_text := "Arsenal" |} ] |} ] ).

Definition sample_pipeline : Pipeline :=
  λ _, sample_sentences.1 ++ sample_sentences.2.


(** A record as another producer could hand it to the summary: its mood is
    not one of the three the summary counts. *)
Definition foreign_record : IntensityRecord :=
  {| ir_time := 12; ir_text := "kick-off"; ir_intensity := 0.4;
     ir_mood := "thrilling"; ir_sentiment := Some "moderate";
     ir_linguistic_features :=
       {| lf_excitement_score := 0; lf_tension_score := 0;
          lf_has_intensifier := py.Bool false; lf_word_count := py.Num 1 |};
     ir_audio_features := None |}.

(** A text with every letter lowered, as a list of characters. *)
Definition lower_list (s : list ascii) : list ascii := map py.lower_char s.

(** Continuations that do not see the case of what is left. *)
Definition case_blind (k k' : option ascii → list ascii → bool) : Prop :=
  ∀ p t, k' (py.lower_char <$> p) (lower_list t) = k p t.

End spec_ext.

(** * Properties *)

(** ** Comparisons and rounding of rationals *)

Section rationals.
Local Open Scope Q_scope.

Lemma Qltb_lt (x y : Q) : py.Qltb x y = true ↔ x < y.
Proof.
  unfold py.Qltb.
  rewrite negb_true_iff, <- not_true_iff_false, Qle_bool_iff.
  split; [apply Qnot_le_lt | apply Qlt_not_le].
Qed.

Lemma Qltb_ge (x y : Q) : py.Qltb x y = false ↔ y <= x.
Proof.
  unfold py.Qltb. rewrite negb_false_iff. apply Qle_bool_iff.
Qed.

Lemma Qmin_cases (x y : Q) :
  (x <= y ∧ py.Qmin x y = x) ∨ (y < x ∧ py.Qmin x y = y).
Proof.
  unfold py.Qmin. destruct (Qle_bool x y) eqn:E.
  - left. by apply Qle_bool_iff in E.
  - right. split; [|done]. apply Qnot_le_lt. intros H.
    apply Qle_bool_iff in H. congruence.
Qed.

Lemma Qmin_bounds (x : Q) : 0 <= x → 0 <= py.Qmin x 1 <= 1.
Proof. intros H. destruct (Qmin_cases x 1) as [[? ->]|[? ->]]; lra. Qed.

Lemma Qmin_nonneg (x y : Q) : 0 <= x → 0 <= y → 0 <= py.Qmin x y.
Proof. intros Hx Hy. destruct (Qmin_cases x y) as [[? ->]|[? ->]]; lra. Qed.

End rationals.

(** ** Rounding *)

Section rounding.
Local Open Scope Q_scope.

Lemma round_half_even_comp (x y : Q) :
  x == y → py.round_half_even x = py.round_half_even y.
Proof.
  intros H. unfold py.round_half_even.
  rewrite (Qfloor_comp x y H).
  by rewrite H.
Qed.

Lemma round_half_even_Z (k : Z) : py.round_half_even (inject_Z k) = k.
Proof.
  unfold py.round_half_even. rewrite Qfloor_Z.
  assert (inject_Z k - inject_Z k < 1 # 2) as ->%Qlt_alt by lra. done.
Qed.

Lemma round_half_even_near (y : Q) :
  py.round_half_even y = Qfloor y
  ∨ (py.round_half_even y = (Qfloor y + 1)%Z ∧ inject_Z (Qfloor y) < y).
Proof.
  unfold py.round_half_even.
  destruct (Qcompare_spec (y - inject_Z (Qfloor y)) (1 # 2)) as [H|H|H].
  - destruct (Z.even (Qfloor y)); [by left|right]. split; [done|]. lra.
  - by left.
  - right. split; [done|]. lra.
Qed.

Lemma round_half_even_bounds (y : Q) (n m : Z) :
  inject_Z n <= y <= inject_Z m → (n ≤ py.round_half_even y ≤ m)%Z.
Proof.
  intros [Hn Hm].
  pose proof (Qfloor_resp_le _ _ Hn) as Hfn. rewrite Qfloor_Z in Hfn.
  destruct (round_half_even_near y) as [->|[-> Hlt]].
  - split; [done|]. pose proof (Qfloor_resp_le _ _ Hm) as Hfm.
    by rewrite Qfloor_Z in Hfm.
  - split; [lia|].
    assert (inject_Z (Qfloor y) < inject_Z m) as Hf by lra.
    rewrite <- Zlt_Qlt in Hf. lia.
Qed.

Lemma scale_pos (ndigits : nat) : 0 < inject_Z (10 ^ Z.of_nat ndigits).
Proof.
  replace 0 with (inject_Z 0) by done. rewrite <- Zlt_Qlt.
  apply Z.pow_pos_nonneg; lia.
Qed.

Lemma round_eq (x : Q) (ndigits : nat) :
  py.round x ndigits
  == inject_Z (py.round_half_even (x * inject_Z (10 ^ Z.of_nat ndigits)))
     / inject_Z (10 ^ Z.of_nat ndigits).
Proof. unfold py.round. apply Qred_correct. Qed.

Lemma round_comp (x y : Q) (ndigits : nat) :
  x == y → py.round x ndigits = py.round y ndigits.
Proof.
  intros H. unfold py.round.
  rewrite (round_half_even_comp (x * _) (y * inject_Z (10 ^ Z.of_nat ndigits))); [done|].
  by rewrite H.
Qed.

Lemma round_idempotent (x : Q) (ndigits : nat) :
  py.round (py.round x ndigits) ndigits = py.round x ndigits.
Proof.
  rewrite (round_comp _ _ ndigits (round_eq x ndigits)).
  unfold py.round.
  set (s := inject_Z (10 ^ Z.of_nat ndigits)).
  set (k := py.round_half_even (x * s)).
  rewrite (round_half_even_comp (inject_Z k / s * s) (inject_Z k)).
  - by rewrite round_half_even_Z.
  - field. apply Qnot_eq_sym, Qlt_not_eq, scale_pos.
Qed.

Lemma round_unit_interval (x : Q) : 0 <= x <= 1 → 0 <= py.round x 2 <= 1.
Proof.
  intros Hx. rewrite round_eq.
  change (inject_Z (10 ^ Z.of_nat 2)) with 100.
  destruct (round_half_even_bounds (x * 100) 0 100) as [H0 H1].
  { change (inject_Z 0) with 0. change (inject_Z 100) with 100. lra. }
  rewrite Zle_Qle in H0, H1.
  change (inject_Z 0) with 0 in H0. change (inject_Z 100) with 100 in H1.
  split.
  - apply Qle_shift_div_l; lra.
  - apply Qle_shift_div_r; lra.
Qed.

Lemma round_two_decimal (x : Q) : spec.two_decimal (py.round x 2).
Proof. eexists. apply round_eq. Qed.

Lemma round_half_even_monotone (x y : Q) :
  x <= y → (py.round_half_even x ≤ py.round_half_even y)%Z.
Proof.
  intros Hxy. pose proof (Qfloor_resp_le _ _ Hxy) as Hf.
  destruct (decide (Qfloor x = Qfloor y)) as [E|E].
  - unfold py.round_half_even. rewrite <- E.
    destruct (Qcompare_spec (x - inject_Z (Qfloor x)) (1 # 2));
    destruct (Qcompare_spec (y - inject_Z (Qfloor x)) (1 # 2));
    try destruct (Z.even (Qfloor x)); try lia; lra.
  - assert (Hlt : (Qfloor x + 1 ≤ Qfloor y)%Z) by lia.
    destruct (round_half_even_near x) as [->|[-> _]];
    destruct (round_half_even_near y) as [->|[-> _]]; lia.
Qed.

Lemma round_monotone (x y : Q) (ndigits : nat) :
  x <= y → py.round x ndigits <= py.round y ndigits.
Proof.
  intros Hxy. rewrite !round_eq.
  pose proof (scale_pos ndigits) as Hs.
  set (s := inject_Z (10 ^ Z.of_nat ndigits)) in *.
  assert (Hm : (py.round_half_even (x * s) ≤ py.round_half_even (y * s))%Z).
  { apply round_half_even_monotone. by apply Qmult_le_compat_r; [|apply Qlt_le_weak]. }
  rewrite Zle_Qle in Hm.
  apply Qle_shift_div_l; [done|].
  unfold Qdiv. rewrite <- Qmult_assoc, (Qmult_comm (/ s)), Qmult_inv_r, Qmult_1_r.
  - done.
  - by apply Qnot_eq_sym, Qlt_not_eq.
Qed.

End rounding.

(** ** Double-precision rounding *)

Section floats.
Local Open Scope Q_scope.

Lemma pow2_nonneg_exp (e : Z) : (0 ≤ e)%Z → py.pow2 e = inject_Z (2 ^ e).
Proof. intros H. unfold py.pow2. by rewrite (proj2 (Z.leb_le 0 e) H). Qed.

Lemma pow2_neg_exp (e : Z) : (e < 0)%Z → py.pow2 e == 1 / inject_Z (2 ^ (- e)).
Proof.
  intros H. unfold py.pow2. rewrite (proj2 (Z.leb_gt 0 e) H).
  assert (0 < 2 ^ (- e))%Z as Hp by (apply Z.pow_pos_nonneg; lia).
  unfold Qeq, Qdiv, Qmult, Qinv, inject_Z. simpl.
  destruct (2 ^ (- e))%Z as [|p|p] eqn:E; [lia| |lia]. simpl. lia.
Qed.

Lemma pow2_pos (e : Z) : 0 < py.pow2 e.
Proof.
  unfold py.pow2. destruct (0 <=? e)%Z eqn:E.
  - apply Z.leb_le in E. change 0 with (inject_Z 0). rewrite <- Zlt_Qlt.
    apply Z.pow_pos_nonneg; lia.
  - done.
Qed.

Lemma pow2_add (a b : Z) : py.pow2 (a + b) == py.pow2 a * py.pow2 b.
Proof.
  assert (Hpos : ∀ n, (0 ≤ n)%Z → ¬ inject_Z (2 ^ n) == 0).
  { intros n Hn H. unfold Qeq in H. simpl in H.
    pose proof (Z.pow_pos_nonneg 2 n). lia. }
  assert (Hsplit : ∀ n m, (0 ≤ n)%Z → (0 ≤ m)%Z →
            inject_Z (2 ^ (n + m)) == inject_Z (2 ^ n) * inject_Z (2 ^ m)).
  { intros n m Hn Hm. by rewrite Z.pow_add_r, inject_Z_mult. }
  destruct (Z.leb_spec 0 a) as [Ha|Ha], (Z.leb_spec 0 b) as [Hb|Hb].
  - rewrite !pow2_nonneg_exp by lia. by apply Hsplit.
  - rewrite (pow2_nonneg_exp a), (pow2_neg_exp b) by lia.
    destruct (Z.leb_spec 0 (a + b)) as [Hab|Hab].
    + rewrite pow2_nonneg_exp by lia.
      assert (inject_Z (2 ^ a) == inject_Z (2 ^ (a + b)) * inject_Z (2 ^ (- b)))
        as -> by (rewrite <- Hsplit by lia; by replace (a + b + - b)%Z with a by lia).
      field. apply Hpos. lia.
    + rewrite pow2_neg_exp by lia.
      assert (inject_Z (2 ^ (- b))
              == inject_Z (2 ^ a) * inject_Z (2 ^ (- (a + b)))) as ->
        by (rewrite <- Hsplit by lia; by replace (a + - (a + b))%Z with (- b)%Z by lia).
      field. split; apply Hpos; lia.
  - rewrite (pow2_neg_exp a), (pow2_nonneg_exp b) by lia.
    destruct (Z.leb_spec 0 (a + b)) as [Hab|Hab].
    + rewrite pow2_nonneg_exp by lia.
      assert (inject_Z (2 ^ b) == inject_Z (2 ^ (a + b)) * inject_Z (2 ^ (- a)))
        as -> by (rewrite <- Hsplit by lia; by replace (a + b + - a)%Z with b by lia).
      field. apply Hpos. lia.
    + rewrite pow2_neg_exp by lia.
      assert (inject_Z (2 ^ (- a))
              == inject_Z (2 ^ b) * inject_Z (2 ^ (- (a + b)))) as ->
        by (rewrite <- Hsplit by lia; by replace (b + - (a + b))%Z with (- a)%Z by lia).
      field. split; apply Hpos; lia.
  - rewrite !pow2_neg_exp by lia.
    replace (- (a + b))%Z with ((- a) + (- b))%Z by lia.
    rewrite (Hsplit (- a) (- b))%Z by lia. field. split; apply Hpos; lia.
Qed.

Lemma pow2_0 : py.pow2 0 == 1.
Proof. done. Qed.

Lemma pow2_inv (e : Z) : py.pow2 e * py.pow2 (- e) == 1.
Proof. rewrite <- pow2_add. by replace (e + - e)%Z with 0%Z by lia. Qed.

Lemma pow2_ge_1 (e : Z) : (0 ≤ e)%Z → 1 <= py.pow2 e.
Proof.
  intros H. rewrite pow2_nonneg_exp by done. change 1 with (inject_Z 1).
  rewrite <- Zle_Qle. pose proof (Z.pow_pos_nonneg 2 e ltac:(lia) H). lia.
Qed.

Lemma pow2_le (a b : Z) : (a ≤ b)%Z → py.pow2 a <= py.pow2 b.
Proof.
  intros H. replace b with (a + (b - a))%Z by lia. rewrite pow2_add.
  pose proof (pow2_pos a). pose proof (pow2_ge_1 (b - a) ltac:(lia)). nra.
Qed.

Lemma pow2_lt (a b : Z) : (a < b)%Z → py.pow2 a < py.pow2 b.
Proof.
  intros H. replace b with (a + 1 + (b - a - 1))%Z by lia.
  rewrite !pow2_add. change (py.pow2 1) with 2.
  pose proof (pow2_pos a). pose proof (pow2_ge_1 (b - a - 1) ltac:(lia)). nra.
Qed.

Lemma pow2_div (x : Q) (e : Z) : x / py.pow2 e == x * py.pow2 (- e).
Proof.
  pose proof (pow2_pos e) as Hp. pose proof (pow2_inv e) as Hi.
  assert (¬ py.pow2 e == 0) as Hne by lra.
  apply (Qmult_inj_r _ _ (py.pow2 e)); [done|].
  rewrite Qmult_comm, Qmult_div_r by done.
  rewrite <- Qmult_assoc, (Qmult_comm (py.pow2 (- e))), Hi. ring.
Qed.

Lemma log2_bounds (n : Z) :
  (0 < n)%Z → inject_Z n < py.pow2 (Z.log2 n + 1) ∧ py.pow2 (Z.log2 n) <= inject_Z n.
Proof.
  intros H. pose proof (Z.log2_nonneg n) as Hl.
  destruct (Z.log2_spec n H) as [Hlo Hhi].
  rewrite !pow2_nonneg_exp by lia. rewrite <- Zlt_Qlt, <- Zle_Qle.
  replace (Z.log2 n + 1)%Z with (Z.succ (Z.log2 n)) by lia. done.
Qed.

Lemma ilog2_spec (x : Q) :
  0 < x → py.pow2 (py.ilog2 x) <= x ∧ x < py.pow2 (py.ilog2 x + 1).
Proof.
  intros Hx. unfold py.ilog2.
  set (a := Z.log2 (Qnum x)). set (b := Z.log2 (Z.pos (Qden x))).
  assert (0 < Qnum x)%Z as Hn.
  { destruct x as [n d]. unfold Qlt in Hx. simpl in *. lia. }
  destruct (log2_bounds (Qnum x) Hn) as [Hnu Hnl].
  destruct (log2_bounds (Z.pos (Qden x))) as [Hdu Hdl]; [done|].
  fold a in Hnu, Hnl. fold b in Hdu, Hdl.
  assert (Hxe : x == inject_Z (Qnum x) / inject_Z (Z.pos (Qden x))).
  { rewrite <- Qmake_Qdiv. by destruct x. }
  assert (0 < inject_Z (Z.pos (Qden x))) as Hd by done.
  set (n := inject_Z (Qnum x)) in *. set (d := inject_Z (Z.pos (Qden x))) in *.
  assert (Hnx : n == x * d) by (rewrite Hxe; field; lra).
  pose proof (pow2_pos b) as Hpb. pose proof (pow2_pos (a - b)) as Hpab.
  pose proof (pow2_pos (a - b - 1)) as Hpab1.
  assert (Ha : py.pow2 a == py.pow2 (a - b) * py.pow2 b).
  { rewrite <- pow2_add. by replace (a - b + b)%Z with a by lia. }
  assert (Ha1 : py.pow2 (a + 1) == py.pow2 (a - b) * py.pow2 (b + 1) ).
  { rewrite <- pow2_add. by replace (a - b + (b + 1))%Z with (a + 1)%Z by lia. }
  assert (Hb1 : py.pow2 (b + 1) == 2 * py.pow2 b).
  { rewrite pow2_add. change (py.pow2 1) with 2. ring. }
  assert (Hab1 : py.pow2 (a - b) == 2 * py.pow2 (a - b - 1)).
  { replace (a - b)%Z with (a - b - 1 + 1)%Z at 1 by lia.
    rewrite pow2_add. change (py.pow2 1) with 2. ring. }
  destruct (Qle_bool (py.pow2 (a - b)) x) eqn:E.
  - apply Qle_bool_iff in E. split; [done|].
    replace (a - b + 1)%Z with (a - b - 1 + 2)%Z by lia.
    rewrite pow2_add. change (py.pow2 2) with 4.
    (* x * d = n < 2^(a+1) = 2^(a-b) * 2 * 2^b <= 2^(a-b) * 2 * d *)
    assert (x * d < py.pow2 (a - b) * 2 * d) by nra.
    assert (x < py.pow2 (a - b) * 2) by nra. lra.
  - assert (x < py.pow2 (a - b)) as Hlt.
    { apply Qnot_le_lt. intros H. apply Qle_bool_iff in H. congruence. }
    replace (a - b - 1 + 1)%Z with (a - b)%Z by lia. split; [|done].
    (* 2^(a-b-1) * 2 * 2^b = 2^a <= n = x d < x * 2 * 2^b *)
    assert (py.pow2 (a - b - 1) * (2 * py.pow2 b) <= x * (2 * py.pow2 b)).
    { assert (py.pow2 (a - b - 1) * (2 * py.pow2 b) <= x * d) by nra.
      assert (x * d <= x * (2 * py.pow2 b)) by nra. lra. }
    nra.
Qed.

Lemma ilog2_unique (x : Q) (k : Z) :
  py.pow2 k <= x → x < py.pow2 (k + 1) → py.ilog2 x = k.
Proof.
  intros Hl Hu. pose proof (pow2_pos k) as Hp.
  destruct (ilog2_spec x) as [Hl' Hu']; [lra|].
  destruct (Z.lt_trichotomy (py.ilog2 x) k) as [H|[H|H]]; [|done|].
  - pose proof (pow2_le (py.ilog2 x + 1) k ltac:(lia)). lra.
  - pose proof (pow2_le (k + 1) (py.ilog2 x) ltac:(lia)). lra.
Qed.

Lemma ilog2_comp (x y : Q) : 0 < x → x == y → py.ilog2 x = py.ilog2 y.
Proof.
  intros Hx H. destruct (ilog2_spec y) as [Hl Hu]; [lra|].
  apply ilog2_unique; lra.
Qed.

Lemma ilog2_monotone (x y : Q) : 0 < x → x <= y → (py.ilog2 x ≤ py.ilog2 y)%Z.
Proof.
  intros Hx Hxy.
  destruct (ilog2_spec x) as [Hl Hu]; [done|].
  destruct (ilog2_spec y) as [Hl' Hu']; [lra|].
  destruct (Z.le_gt_cases (py.ilog2 x) (py.ilog2 y)) as [H|H]; [done|].
  pose proof (pow2_le (py.ilog2 y + 1) (py.ilog2 x) ltac:(lia)). lra.
Qed.


(** Round-half-to-even is the nearest integer, the even one at a tie. *)
Lemma round_half_even_spec (y : Q) :
  let k := py.round_half_even y in
  - (1 # 2) <= y - inject_Z k <= 1 # 2
  ∧ (Qabs (y - inject_Z k) == 1 # 2 → Z.even k = true).
Proof.
  cbv zeta. unfold py.round_half_even.
  pose proof (Qfloor_le y) as Hl. pose proof (Qlt_floor y) as Hu.
  rewrite inject_Z_plus in Hu. change (inject_Z 1) with 1 in Hu.
  set (f := Qfloor y) in *.
  destruct (Qcompare_spec (y - inject_Z f) (1 # 2)) as [H|H|H].
  - destruct (Z.even f) eqn:E.
    + split; [lra | done].
    + rewrite inject_Z_plus. change (inject_Z 1) with 1. split; [lra|].
      intros _. rewrite Z.even_add, E. done.
  - split; [lra|]. intros Ha. rewrite Qabs_pos in Ha by lra. lra.
  - rewrite inject_Z_plus. change (inject_Z 1) with 1. split; [lra|].
    intros Ha. rewrite Qabs_neg in Ha by lra. lra.
Qed.

Lemma round_half_even_unique (y : Q) (k : Z) :
  - (1 # 2) <= y - inject_Z k <= 1 # 2 →
  (Qabs (y - inject_Z k) == 1 # 2 → Z.even k = true) →
  py.round_half_even y = k.
Proof.
  intros Hk He. destruct (round_half_even_spec y) as [Hr Hre].
  set (r := py.round_half_even y) in *.
  assert (inject_Z r <= inject_Z (k + 1)) as Hd1
    by (rewrite inject_Z_plus; change (inject_Z 1) with 1; lra).
  assert (inject_Z k <= inject_Z (r + 1)) as Hd2
    by (rewrite inject_Z_plus; change (inject_Z 1) with 1; lra).
  rewrite <- Zle_Qle in Hd1, Hd2.
  destruct (decide (r = k)) as [|Hne]; [done|]. exfalso.
  assert (r = k + 1 ∨ r = k - 1)%Z as [E|E] by lia.
  - assert (y - inject_Z k == 1 # 2) as Hy.
    { rewrite E, inject_Z_plus in Hr. change (inject_Z 1) with 1 in Hr. lra. }
    assert (y - inject_Z r == - (1 # 2)) as Hy'.
    { rewrite E, inject_Z_plus. change (inject_Z 1) with 1. lra. }
    assert (Z.even k = true) as Ek by (apply He; rewrite Hy; done).
    assert (Z.even r = true) as Er by (apply Hre; rewrite Hy'; done).
    rewrite E, Z.even_add, Ek in Er. done.
  - assert (y - inject_Z k == - (1 # 2)) as Hy.
    { rewrite E in Hr. unfold Z.sub in Hr. rewrite inject_Z_plus in Hr.
      change (inject_Z (- (1))) with (- 1) in Hr. lra. }
    assert (y - inject_Z r == 1 # 2) as Hy'.
    { rewrite E. unfold Z.sub. rewrite inject_Z_plus.
      change (inject_Z (- (1))) with (- 1). lra. }
    assert (Z.even k = true) as Ek by (apply He; rewrite Hy; done).
    assert (Z.even r = true) as Er by (apply Hre; rewrite Hy'; done).
    rewrite E, Z.even_sub, Ek in Er. done.
Qed.

Lemma round_half_even_opp (y : Q) :
  py.round_half_even (- y) = (- py.round_half_even y)%Z.
Proof.
  destruct (round_half_even_spec y) as [Hr He].
  apply round_half_even_unique.
  - rewrite inject_Z_opp. lra.
  - intros Ha. rewrite Z.even_opp. apply He. rewrite <- Ha.
    rewrite inject_Z_opp.
    rewrite <- (Qabs_opp (y - _)). apply Qabs_wd. ring.
Qed.

Lemma round_half_even_le (y : Q) (m : Z) :
  y <= inject_Z m → (py.round_half_even y ≤ m)%Z.
Proof.
  intros H. rewrite <- (round_half_even_Z m). by apply round_half_even_monotone.
Qed.

Lemma round_half_even_ge (y : Q) (n : Z) :
  inject_Z n <= y → (n ≤ py.round_half_even y)%Z.
Proof.
  intros H. rewrite <- (round_half_even_Z n). by apply round_half_even_monotone.
Qed.

Lemma Qabs_nonzero (x : Q) : ¬ x == 0 → 0 < Qabs x.
Proof.
  intros H. destruct (Qlt_le_dec x 0) as [Hn|Hp].
  - rewrite Qabs_neg by lra. lra.
  - rewrite Qabs_pos by lra.
    destruct (Qlt_le_dec 0 x) as [|Hle]; [done|]. exfalso. apply H. lra.
Qed.

Lemma ilog2_abs_pos (x : Q) : 0 < x → py.ilog2 (Qabs x) = py.ilog2 x.
Proof.
  intros H. apply ilog2_comp; rewrite Qabs_pos; lra.
Qed.

Section format.
Variables prec emin : Z.
Hypothesis prec_pos : (1 ≤ prec)%Z.

Local Abbreviation ulp_exp := (py.ulp_exp prec emin).

Lemma round_to_zero (x : Q) : x == 0 → py.round_to prec emin x = 0.
Proof. intros H. unfold py.round_to. by rewrite (proj2 (Qeq_bool_iff x 0) H). Qed.

Lemma round_to_eq (x : Q) :
  ¬ x == 0 →
  py.round_to prec emin x
  == inject_Z (py.round_half_even (x / py.pow2 (ulp_exp x))) * py.pow2 (ulp_exp x).
Proof.
  intros H. unfold py.round_to.
  destruct (Qeq_bool x 0) eqn:E; [by apply Qeq_bool_iff in E|].
  apply Qred_correct.
Qed.

Lemma ulp_exp_comp (x y : Q) : ¬ x == 0 → x == y → ulp_exp x = ulp_exp y.
Proof.
  intros Hx H. unfold py.ulp_exp. f_equal. f_equal.
  apply ilog2_comp; [by apply Qabs_nonzero | by rewrite H].
Qed.

Lemma round_to_comp (x y : Q) :
  x == y → py.round_to prec emin x = py.round_to prec emin y.
Proof.
  intros H. unfold py.round_to.
  destruct (Qeq_bool x 0) eqn:Ex, (Qeq_bool y 0) eqn:Ey; try done.
  - apply Qeq_bool_iff in Ex. apply Qeq_bool_neq in Ey. exfalso. apply Ey.
    by rewrite <- H.
  - apply Qeq_bool_iff in Ey. apply Qeq_bool_neq in Ex. exfalso. apply Ex.
    by rewrite H.
  - apply Qeq_bool_neq in Ex. fold (ulp_exp x) (ulp_exp y).
    rewrite (ulp_exp_comp x y Ex H). apply Qred_complete.
    rewrite (round_half_even_comp (x / _) (y / py.pow2 (ulp_exp y))); [done|].
    by rewrite H.
Qed.

Lemma ulp_exp_upper (x : Q) : ¬ x == 0 → Qabs x < py.pow2 (ulp_exp x + prec).
Proof.
  intros H. destruct (ilog2_spec (Qabs x) (Qabs_nonzero x H)) as [_ Hu].
  eapply Qlt_le_trans; [exact Hu|]. apply pow2_le. unfold py.ulp_exp. lia.
Qed.

Lemma ulp_exp_lower (x : Q) :
  ¬ x == 0 → (emin < ulp_exp x)%Z → py.pow2 (ulp_exp x + (prec - 1)) <= Qabs x.
Proof.
  intros H He. destruct (ilog2_spec (Qabs x) (Qabs_nonzero x H)) as [Hl _].
  eapply Qle_trans; [|exact Hl]. apply pow2_le. unfold py.ulp_exp in *. lia.
Qed.

Lemma scaled_upper (x : Q) :
  0 < x → x / py.pow2 (ulp_exp x) < inject_Z (2 ^ prec).
Proof.
  intros Hx. assert (¬ x == 0) as Hne by lra.
  pose proof (ulp_exp_upper x Hne) as H. rewrite Qabs_pos in H by lra.
  rewrite pow2_add, (pow2_nonneg_exp prec) in H by lia.
  pose proof (pow2_pos (ulp_exp x)) as Hp.
  apply Qlt_shift_div_r; [done|]. lra.
Qed.

Lemma scaled_lower (x : Q) :
  0 < x → (emin < ulp_exp x)%Z →
  inject_Z (2 ^ (prec - 1)) <= x / py.pow2 (ulp_exp x).
Proof.
  intros Hx He. assert (¬ x == 0) as Hne by lra.
  pose proof (ulp_exp_lower x Hne He) as H. rewrite Qabs_pos in H by lra.
  rewrite pow2_add, (pow2_nonneg_exp (prec - 1)) in H by lia.
  pose proof (pow2_pos (ulp_exp x)) as Hp.
  apply Qle_shift_div_l; [done|]. lra.
Qed.

Lemma round_to_nonneg (x : Q) : 0 <= x → 0 <= py.round_to prec emin x.
Proof.
  intros Hx. destruct (Qeq_dec x 0) as [E|E].
  - by rewrite (round_to_zero x E).
  - rewrite round_to_eq by done.
    pose proof (pow2_pos (ulp_exp x)) as Hp.
    assert (0 <= x / py.pow2 (ulp_exp x)) as Hs.
    { apply Qle_shift_div_l; [done|]. lra. }
    pose proof (round_half_even_ge _ 0 Hs) as Hr. rewrite Zle_Qle in Hr.
    change (inject_Z 0) with 0 in Hr. nra.
Qed.

Lemma round_to_opp (x : Q) :
  py.round_to prec emin (- x) == - py.round_to prec emin x.
Proof.
  destruct (Qeq_dec x 0) as [E|E].
  - rewrite (round_to_zero x E), (round_to_zero (- x)); [done | lra].
  - assert (¬ - x == 0) as E' by lra.
    rewrite !round_to_eq by done.
    assert (ulp_exp (- x) = ulp_exp x) as ->.
    { unfold py.ulp_exp. f_equal. f_equal.
      apply ilog2_comp; [by apply Qabs_nonzero | apply Qabs_opp]. }
    rewrite (round_half_even_comp (- x / _) (- (x / py.pow2 (ulp_exp x)))).
    + rewrite round_half_even_opp, inject_Z_opp. ring.
    + pose proof (pow2_pos (ulp_exp x)). field. lra.
Qed.

Lemma round_to_upper (x : Q) :
  0 < x → py.round_to prec emin x <= py.pow2 (ulp_exp x + prec).
Proof.
  intros Hx. rewrite round_to_eq by lra.
  pose proof (scaled_upper x Hx) as Hs.
  pose proof (round_half_even_le _ (2 ^ prec) (Qlt_le_weak _ _ Hs)) as Hr.
  rewrite Zle_Qle in Hr.
  rewrite pow2_add, (pow2_nonneg_exp prec) by lia.
  pose proof (pow2_pos (ulp_exp x)). nra.
Qed.

Lemma round_to_lower (x : Q) :
  0 < x → (emin < ulp_exp x)%Z →
  py.pow2 (ulp_exp x + (prec - 1)) <= py.round_to prec emin x.
Proof.
  intros Hx He. rewrite round_to_eq by lra.
  pose proof (scaled_lower x Hx He) as Hs.
  pose proof (round_half_even_ge _ _ Hs) as Hr. rewrite Zle_Qle in Hr.
  rewrite pow2_add, (pow2_nonneg_exp (prec - 1)) by lia.
  pose proof (pow2_pos (ulp_exp x)). nra.
Qed.

Lemma round_to_monotone_pos (x y : Q) :
  0 < x → x <= y → py.round_to prec emin x <= py.round_to prec emin y.
Proof.
  intros Hx Hxy.
  assert (ulp_exp x ≤ ulp_exp y)%Z as He.
  { unfold py.ulp_exp. apply Z.max_le_compat_r, Z.sub_le_mono_r.
    rewrite !ilog2_abs_pos by lra. by apply ilog2_monotone. }
  destruct (decide (ulp_exp x = ulp_exp y)) as [E|E].
  - rewrite !round_to_eq by lra. rewrite E.
    pose proof (pow2_pos (ulp_exp y)) as Hp.
    assert (x / py.pow2 (ulp_exp y) <= y / py.pow2 (ulp_exp y)) as Hs.
    { apply Qmult_le_compat_r; [done|]. apply Qinv_le_0_compat. lra. }
    pose proof (round_half_even_monotone _ _ Hs) as Hr. rewrite Zle_Qle in Hr.
    nra.
  - eapply Qle_trans; [by apply round_to_upper|].
    eapply Qle_trans; [|apply round_to_lower; [lra | unfold py.ulp_exp in *; lia]].
    apply pow2_le. lia.
Qed.

Lemma round_to_monotone (x y : Q) :
  x <= y → py.round_to prec emin x <= py.round_to prec emin y.
Proof.
  intros Hxy.
  destruct (Qlt_le_dec 0 x) as [Hx|Hx].
  - by apply round_to_monotone_pos.
  - destruct (Qlt_le_dec y 0) as [Hy|Hy].
    + assert (py.round_to prec emin (- y) <= py.round_to prec emin (- x)) as H
        by (apply round_to_monotone_pos; lra).
      rewrite !round_to_opp in H. lra.
    + assert (py.round_to prec emin (- x) >= 0) as H1
        by (apply round_to_nonneg; lra).
      rewrite round_to_opp in H1.
      pose proof (round_to_nonneg y Hy). lra.
Qed.

(** Numbers of the format are fixed points of the rounding. *)
Lemma round_to_fix_pos (m e : Z) :
  (0 < m < 2 ^ prec)%Z → (emin ≤ e)%Z →
  py.round_to prec emin (inject_Z m * py.pow2 e) == inject_Z m * py.pow2 e.
Proof.
  intros Hm He. set (x := inject_Z m * py.pow2 e).
  pose proof (pow2_pos e) as Hpe.
  assert (0 < inject_Z m) as Hm0.
  { change 0 with (inject_Z 0). rewrite <- Zlt_Qlt. lia. }
  assert (0 < x) as Hx by (unfold x; nra).
  assert (ulp_exp x ≤ e)%Z as HE.
  { unfold py.ulp_exp. apply Z.max_lub; [|done].
    assert (py.ilog2 (Qabs x) < prec + e)%Z; [|lia].
    rewrite ilog2_abs_pos by done.
    destruct (ilog2_spec x Hx) as [Hl _].
    destruct (Z.lt_ge_cases (py.ilog2 x) (prec + e)) as [|Hge]; [done|].
    exfalso. pose proof (pow2_le _ _ Hge) as Hp.
    rewrite pow2_add, (pow2_nonneg_exp prec) in Hp by lia.
    assert (inject_Z m < inject_Z (2 ^ prec)) by (rewrite <- Zlt_Qlt; lia).
    assert (x == inject_Z m * py.pow2 e) as Hxe by done. nra. }
  rewrite round_to_eq by lra.
  assert (x == inject_Z m * py.pow2 e) as Hxe by done.
  set (E := ulp_exp x) in *. clearbody E. clearbody x.
  assert (x / py.pow2 E == inject_Z (m * 2 ^ (e - E))) as Hs.
  { rewrite pow2_div, Hxe, inject_Z_mult.
    rewrite <- (pow2_nonneg_exp (e - E)) by lia.
    rewrite <- Qmult_assoc, <- pow2_add.
    by replace (e + - E)%Z with (e - E)%Z by lia. }
  rewrite (round_half_even_comp _ _ Hs), round_half_even_Z.
  rewrite inject_Z_mult, <- (pow2_nonneg_exp (e - E)) by lia.
  rewrite <- Qmult_assoc, <- pow2_add, Hxe.
  by replace (e - E + E)%Z with e by lia.
Qed.

Lemma round_to_fix (m e : Z) :
  (Z.abs m ≤ 2 ^ prec)%Z → (emin ≤ e)%Z →
  py.round_to prec emin (inject_Z m * py.pow2 e) == inject_Z m * py.pow2 e.
Proof.
  intros Hm He.
  assert (Hpos : ∀ k, (0 < k ≤ 2 ^ prec)%Z →
            py.round_to prec emin (inject_Z k * py.pow2 e) == inject_Z k * py.pow2 e).
  { intros k Hk. destruct (decide (k = 2 ^ prec)%Z) as [->|Hne].
    - assert (inject_Z (2 ^ prec) * py.pow2 e
              == inject_Z (2 ^ (prec - 1)) * py.pow2 (e + 1)) as Hx.
      { rewrite <- !pow2_nonneg_exp, <- !pow2_add by lia.
        by replace (prec - 1 + (e + 1))%Z with (prec + e)%Z by lia. }
      rewrite (round_to_comp _ _ Hx), Hx. apply round_to_fix_pos; [|lia].
      split; [apply Z.pow_pos_nonneg; lia|].
      apply Z.pow_lt_mono_r; lia.
    - apply round_to_fix_pos; [lia | done]. }
  destruct (Z.lt_trichotomy m 0) as [Hn|[->|Hp]].
  - assert (inject_Z m * py.pow2 e == - (inject_Z (- m) * py.pow2 e)) as Hx
      by (rewrite inject_Z_opp; ring).
    rewrite (round_to_comp _ _ Hx), round_to_opp, Hpos by lia.
    rewrite inject_Z_opp. ring.
  - rewrite round_to_zero; [|ring]. ring.
  - apply Hpos. lia.
Qed.

Lemma round_to_significand (x : Q) :
  ¬ x == 0 →
  (Z.abs (py.round_half_even (x / py.pow2 (ulp_exp x))) ≤ 2 ^ prec)%Z.
Proof.
  intros Hx. pose proof (ulp_exp_upper x Hx) as Hu.
  pose proof (pow2_pos (ulp_exp x)) as Hp.
  rewrite pow2_add, (pow2_nonneg_exp prec) in Hu by lia.
  assert (- inject_Z (2 ^ prec) <= x / py.pow2 (ulp_exp x) <= inject_Z (2 ^ prec))
    as [Hl Hh].
  { assert (HA := Qle_Qabs x). assert (HB := Qle_Qabs (- x)).
    rewrite Qabs_opp in HB.
    split.
    - apply Qle_shift_div_l; [done|]. lra.
    - apply Qle_shift_div_r; [done|]. lra. }
  rewrite <- inject_Z_opp in Hl.
  apply round_half_even_ge in Hl. apply round_half_even_le in Hh. lia.
Qed.

Lemma round_to_idempotent (x : Q) :
  py.round_to prec emin (py.round_to prec emin x) == py.round_to prec emin x.
Proof.
  destruct (Qeq_dec x 0) as [E|E].
  - rewrite (round_to_zero x E). by rewrite round_to_zero.
  - rewrite (round_to_comp _ _ (round_to_eq x E)).
    etransitivity; [|symmetry; by apply round_to_eq].
    apply round_to_fix; [by apply round_to_significand|].
    unfold py.ulp_exp. lia.
Qed.

(** Small integers are numbers of the format, and the rounding of an
    integer is an integer. *)
Lemma round_to_small_integer (k : Z) :
  (emin ≤ 0)%Z → (Z.abs k ≤ 2 ^ prec)%Z →
  py.round_to prec emin (inject_Z k) == inject_Z k.
Proof.
  intros He Hk.
  assert (inject_Z k == inject_Z k * py.pow2 0) as Hx by (rewrite pow2_0; ring).
  rewrite (round_to_comp _ _ Hx), round_to_fix by done. rewrite pow2_0. ring.
Qed.

Lemma round_to_integer (k : Z) :
  (emin ≤ 0)%Z → ∃ n : Z, py.round_to prec emin (inject_Z k) == inject_Z n.
Proof.
  intros He. destruct (Z_le_gt_dec (Z.abs k) (2 ^ prec)) as [Hk|Hk].
  - exists k. by apply round_to_small_integer.
  - assert (¬ inject_Z k == 0) as Hne.
    { intros H. unfold Qeq in H. simpl in H.
      pose proof (Z.pow_pos_nonneg 2 prec ltac:(lia) ltac:(lia)). lia. }
    assert (0 ≤ ulp_exp (inject_Z k))%Z as HE.
    { unfold py.ulp_exp. apply Z.max_le_iff. left.
      assert (prec ≤ py.ilog2 (Qabs (inject_Z k)))%Z; [|lia].
      destruct (ilog2_spec (Qabs (inject_Z k)) (Qabs_nonzero _ Hne)) as [_ Hu].
      destruct (Z.le_gt_cases prec (py.ilog2 (Qabs (inject_Z k)))) as [|Hlt]; [done|].
      exfalso.
      pose proof (pow2_le (py.ilog2 (Qabs (inject_Z k)) + 1) prec ltac:(lia)) as Hp.
      rewrite (pow2_nonneg_exp prec) in Hp by lia.
      set (l := py.ilog2 (Qabs (inject_Z k))) in *.
      change (Qabs (inject_Z k)) with (inject_Z (Z.abs k)) in Hu.
      assert (inject_Z (Z.abs k) < inject_Z (2 ^ prec)) as Hc by lra.
      rewrite <- Zlt_Qlt in Hc. lia. }
    eexists. rewrite round_to_eq by done.
    rewrite (pow2_nonneg_exp (ulp_exp (inject_Z k))) at 2 by done.
    by rewrite <- inject_Z_mult.
Qed.

End format.

Lemma float_comp (x y : Q) : x == y → py.float x = py.float y.
Proof. apply round_to_comp. Qed.

Lemma float_monotone (x y : Q) : x <= y → py.float x <= py.float y.
Proof. by apply round_to_monotone. Qed.

Lemma float_nonneg (x : Q) : 0 <= x → 0 <= py.float x.
Proof. by apply round_to_nonneg. Qed.

Lemma float_opp (x : Q) : py.float (- x) == - py.float x.
Proof. by apply round_to_opp. Qed.

Lemma float_idempotent (x : Q) : py.float (py.float x) == py.float x.
Proof. by apply round_to_idempotent. Qed.

Lemma float_small_integer (k : Z) :
  (Z.abs k ≤ 2 ^ 53)%Z → py.float (inject_Z k) == inject_Z k.
Proof. by apply round_to_small_integer. Qed.

Lemma float_integer (k : Z) : ∃ n : Z, py.float (inject_Z k) == inject_Z n.
Proof. by apply round_to_integer. Qed.

(** Rounding does not cross a double. *)
Lemma float_le_double (x r : Q) : py.float r == r → x <= r → py.float x <= r.
Proof. intros Hr H. rewrite <- Hr. by apply float_monotone. Qed.

Lemma float_ge_double (x r : Q) : py.float r == r → r <= x → r <= py.float x.
Proof. intros Hr H. rewrite <- Hr. by apply float_monotone. Qed.

Lemma float_abs (x : Q) : Qabs (py.float x) == py.float (Qabs x).
Proof.
  destruct (Qlt_le_dec x 0) as [H|H].
  - rewrite (float_comp (Qabs x) (- x)) by (apply Qabs_neg; lra).
    rewrite float_opp.
    assert (py.float x <= 0); [|by apply Qabs_neg].
    apply (float_le_double x 0); [done | lra].
  - rewrite (float_comp (Qabs x) x) by (by apply Qabs_pos).
    apply Qabs_pos. by apply float_nonneg.
Qed.

End floats.

(** ** Lists *)

Section ordered_pairs.
Context {A : Type} (R : relation A).

Lemma StronglySorted_of_lookup (l : list A) :
  (∀ i j a b, (i < j)%nat → l !! i = Some a → l !! j = Some b → R a b) →
  StronglySorted R l.
Proof.
  induction l as [|x l IH]; intros H; constructor.
  - apply IH. intros i j a b Hij Ha Hb.
    apply (H (S i) (S j)); [lia | done | done].
  - apply Forall_lookup. intros k y Hy.
    apply (H 0%nat (S k)); [lia | done | done].
Qed.

Lemma StronglySorted_lookup (l : list A) :
  StronglySorted R l →
  ∀ i j a b, (i < j)%nat → l !! i = Some a → l !! j = Some b → R a b.
Proof.
  induction 1 as [|x l _ IH Hx]; intros i j a b Hij Ha Hb.
  - done.
  - destruct j as [|j]; [lia|]. simpl in Hb.
    destruct i as [|i]; simpl in Ha.
    + injection Ha as <-. by eapply Forall_lookup_1 in Hx.
    + apply (IH i j); [lia | done | done].
Qed.

End ordered_pairs.

Section first_found.
Context {A : Type} (f : A → bool).

Lemma find_first (l : list A) (x : A) :
  find f l = Some x →
  ∃ i, l !! i = Some x ∧ f x = true
       ∧ ∀ j y, (j < i)%nat → l !! j = Some y → f y = false.
Proof.
  induction l as [|a l IH]; simpl; [done|].
  destruct (f a) eqn:E.
  - intros [= <-]. exists 0%nat. split_and!; [done | done | lia].
  - intros H. destruct (IH H) as (i & Hi & Hx & Hbefore).
    exists (S i). split_and!; [done | done |].
    intros [|j] y Hj; simpl; [by intros [= <-] | apply Hbefore; lia].
Qed.

Lemma find_none_lookup (l : list A) :
  find f l = None → ∀ j y, l !! j = Some y → f y = false.
Proof.
  intros H j y Hy. apply (find_none f l H).
  apply list_elem_of_In. by eapply list_elem_of_lookup_2.
Qed.

End first_found.

(** ** Event pattern matcher *)

Section matcher.
Import re information_extraction spec.
Local Open Scope Q_scope.

(** The loop with [break] finds the first item whose patterns match. *)
Lemma match_patterns_find (items : list (string * list regex))
    (text text_lower : string) (start_time : Q) (events : list Event) :
  match_patterns items text text_lower start_time events
  = events ++ match find (λ it, any_match it.2 text_lower) items with
              | Some it => [event_of it.1 text start_time]
              | None => []
              end.
Proof.
  induction items as [|[c ps] items IH]; simpl.
  - by rewrite app_nil_r.
  - destruct (any_match ps text_lower); [done | apply IH].
Qed.

Lemma priority_is_table_order : PRIORITY = EVENT_PATTERNS.*1.
Proof. reflexivity. Qed.

Lemma EVENT_PATTERNS_keys_distinct : NoDup (EVENT_PATTERNS.*1).
Proof. apply (bool_decide_unpack _). by vm_compute. Qed.

Lemma category_matches_at (j : nat) (c : string) (ps : list regex)
    (text_lower : string) :
  EVENT_PATTERNS !! j = Some (c, ps) →
  category_matches c text_lower ↔ any_match ps text_lower = true.
Proof.
  intros Hj. split.
  - intros (ps' & Hin & Hm).
    apply list_elem_of_lookup_1 in Hin as [k Hk].
    assert (k = j) as ->.
    { apply (NoDup_lookup _ _ _ c EVENT_PATTERNS_keys_distinct);
        rewrite list_lookup_fmap; [by rewrite Hk | by rewrite Hj]. }
    by simplify_eq.
  - intros Hm. exists ps. split; [by eapply list_elem_of_lookup_2 | done].
Qed.

Lemma priority_lookup (j : nat) (c : string) :
  PRIORITY !! j = Some c → ∃ ps, EVENT_PATTERNS !! j = Some (c, ps).
Proof.
  rewrite priority_is_table_order, list_lookup_fmap.
  destruct (EVENT_PATTERNS !! j) as [[c' ps]|]; [|done].
  intros [= <-]. by exists ps.
Qed.

Lemma found_is_first_match (it : string * list regex) (text_lower : string) :
  find (λ it, any_match it.2 text_lower) EVENT_PATTERNS = Some it →
  first_match it.1 text_lower.
Proof.
  intros H. apply find_first in H as (i & Hi & Hm & Hbefore).
  destruct it as [c ps]. exists i. split_and!.
  - by rewrite priority_is_table_order, list_lookup_fmap, Hi.
  - by apply (category_matches_at i c ps).
  - intros j c' Hj Hc'. apply priority_lookup in Hc' as [ps' Hps'].
    rewrite (category_matches_at j c' ps') by done.
    specialize (Hbefore j (c', ps') Hj Hps'). simpl in Hbefore.
    by rewrite Hbefore.
Qed.

Lemma none_found_no_match (text_lower : string) :
  find (λ it, any_match it.2 text_lower) EVENT_PATTERNS = None →
  ∀ c, ¬ category_matches c text_lower.
Proof.
  intros H c (ps & Hin & Hm).
  apply list_elem_of_lookup_1 in Hin as [k Hk].
  pose proof (find_none_lookup _ _ H k (c, ps) Hk) as Hn. simpl in Hn.
  by rewrite Hn in Hm.
Qed.

Lemma first_match_goal (c text_lower : string) :
  first_match c text_lower → category_matches "goal" text_lower → c = "goal".
Proof.
  intros (i & Hi & _ & Hbefore) Hgoal.
  destruct i as [|i]; [by injection Hi|].
  destruct (Hbefore 0%nat "goal"); [lia | done | done].
Qed.

(** C4: for one segment the matcher appends at most one event; its type
    is the first category, in the order goal, foul, yellow_card, red_card,
    offside, substitution, injury, with a pattern matching the lowercased
    text; no event means no category matches; a text matched by a goal
    pattern is a goal whatever else it matches. *)
Theorem match_segment_first_category
    (events : list Event) (text : string) (start_time : Q)
    (end_time : option Q) :
  let segment := {| seg_start := Some start_time; seg_end := end_time;
                    seg_text := Some text |} in
  let text_lower := py.lower text in
  ∃ new,
    match_segment events segment = py.Ok (events ++ new)
    ∧ (length new ≤ 1)%nat
    ∧ (∀ e, e ∈ new →
            first_match (ev_type e) text_lower
            ∧ ev_text e = py.strip text ∧ ev_time e = start_time)
    ∧ (new = [] → ∀ c, ¬ category_matches c text_lower)
    ∧ (category_matches "goal" text_lower →
       ∃ e, new = [e] ∧ ev_type e = "goal").
Proof.
  intros segment text_lower. subst segment.
  change (match_segment events _)
    with (py.Ok (match_patterns EVENT_PATTERNS text text_lower
                   start_time events)).
  rewrite match_patterns_find.
  destruct (find _ EVENT_PATTERNS) as [it|] eqn:E.
  - apply found_is_first_match in E.
    exists [event_of it.1 text start_time]. split_and!; [done | simpl; lia | | done |].
    + intros e ->%list_elem_of_singleton. done.
    + intros Hgoal. eexists. split; [done|]. simpl.
      by apply (first_match_goal _ text_lower).
  - exists []. split_and!; [done | simpl; lia | | |].
    + by intros e ?%elem_of_nil.
    + intros _. by apply none_found_no_match.
    + intros Hgoal. by destruct (none_found_no_match _ E "goal").
Qed.

Example goal_before_foul :
  match_patterns EVENT_PATTERNS "What a goal! And a yellow card for the foul."
    (py.lower "What a goal! And a yellow card for the foul.") 12 []
  = [event_of "goal" "What a goal! And a yellow card for the foul." 12].
Proof. reflexivity. Qed.

End matcher.

(** ** Event deduplicator *)

Section deduplicator.
Import information_extraction spec.
Local Open Scope Q_scope.

Lemma window_of_spec (event : Event) : window_of event = window (ev_type event).
Proof.
  unfold window_of, window.
  destruct (String.eqb_spec (ev_type event) "goal"); case_decide; done.
Qed.

Lemma suppresses_spec (candidate accepted : Event) :
  suppresses candidate accepted = true ↔ measured_within candidate accepted.
Proof.
  unfold suppresses, measured_within.
  by rewrite andb_true_iff, String.eqb_eq, Qltb_lt, window_of_spec.
Qed.

Lemma window_double (type : string) :
  py.float (window type) == window type
  ∧ py.float (- window type) == - window type.
Proof. unfold window. by case_decide. Qed.

(** The float difference never falls below the window when the times are
    a window apart: a suppressed candidate is within the window. *)
Lemma measured_is_within (candidate accepted : Event) :
  measured_within candidate accepted → within_window candidate accepted.
Proof.
  intros [Ht Hm]. split; [done|].
  destruct (window_double (ev_type candidate)) as [Hw Hw'].
  set (w := window (ev_type candidate)) in *.
  rewrite (Qabs_Qminus (ev_time candidate) (ev_time accepted)).
  set (d := ev_time accepted - ev_time candidate).
  apply Qnot_le_lt. intros Hle. apply (Qlt_not_le _ _ Hm).
  unfold py.fsub. fold d.
  destruct (Qlt_le_dec d 0) as [Hd|Hd].
  - rewrite Qabs_neg in Hle by lra.
    assert (py.float d <= - w) by (apply float_le_double; [done | lra]).
    assert (0 <= w) by (subst w; unfold window; by case_decide).
    rewrite Qabs_neg by lra. lra.
  - rewrite Qabs_pos in Hle by done.
    assert (w <= py.float d) by (by apply float_ge_double).
    assert (0 <= w) by (subst w; unfold window; by case_decide).
    rewrite Qabs_pos by lra. done.
Qed.

Lemma existsb_suppresses (candidate : Event) (accepted : list Event) :
  existsb (suppresses candidate) accepted = true
  ↔ ∃ a, a ∈ accepted ∧ measured_within candidate a.
Proof.
  rewrite existsb_exists.
  split; intros (a & Ha & Hs); exists a.
  - by rewrite list_elem_of_In, <- suppresses_spec.
  - by rewrite <- list_elem_of_In, suppresses_spec.
Qed.

Lemma deduplicate_snoc (events : list Event) (event : Event) :
  deduplicate (events ++ [event]) = dedup_step (deduplicate events) event.
Proof. unfold deduplicate. by rewrite fold_left_app. Qed.

Lemma dedup_step_cases (accepted : list Event) (candidate : Event) :
  ((∀ a, a ∈ accepted → ¬ measured_within candidate a)
   ∧ dedup_step accepted candidate = accepted ++ [candidate])
  ∨ ((∃ a, a ∈ accepted ∧ measured_within candidate a)
     ∧ dedup_step accepted candidate = accepted).
Proof.
  unfold dedup_step.
  destruct (existsb (suppresses candidate) accepted) eqn:E; simpl.
  - right. split; [by apply existsb_suppresses | done].
  - left. split; [| done].
    intros a Ha Hw.
    apply not_true_iff_false in E. apply E, existsb_suppresses. eauto.
Qed.

Lemma snoc_neq {A} (l : list A) (x : A) : l ++ [x] ≠ l.
Proof.
  intros H. apply (f_equal length) in H.
  rewrite length_app in H. simpl in H. lia.
Qed.

(** Accepted events stay, in place, while the loop runs on. *)
Lemma dedup_loop_extends (events acc : list Event) :
  ∃ rest, fold_left dedup_step events acc = acc ++ rest.
Proof.
  revert acc. induction events as [|e events IH]; intros acc; simpl.
  - exists []. by rewrite app_nil_r.
  - destruct (IH (dedup_step acc e)) as [rest ->].
    destruct (dedup_step_cases acc e) as [[_ ->]|[_ ->]].
    + exists (e :: rest). by rewrite <- app_assoc.
    + by exists rest.
Qed.

Lemma dedup_loop_extends_snoc (pre post : list Event) (e : Event) l :
  deduplicate (pre ++ [e]) = l →
  ∃ rest, deduplicate (pre ++ e :: post) = l ++ rest.
Proof.
  intros <-.
  replace (pre ++ e :: post) with ((pre ++ [e]) ++ post)
    by by rewrite <- app_assoc.
  unfold deduplicate at 1. rewrite fold_left_app.
  apply dedup_loop_extends.
Qed.

Lemma dedup_loop_sublist (events acc : list Event) :
  fold_left dedup_step events acc `sublist_of` acc ++ events.
Proof.
  revert acc. induction events as [|e events IH]; intros acc; simpl.
  - by rewrite app_nil_r.
  - etrans; [apply IH|].
    destruct (dedup_step_cases acc e) as [[_ ->]|[_ ->]].
    + by rewrite <- app_assoc.
    + apply sublist_app; [done | by apply sublist_cons].
Qed.

Lemma deduplicate_separated (events : list Event) :
  separated (deduplicate events).
Proof.
  induction events as [|e events IH] using rev_ind.
  - constructor.
  - rewrite deduplicate_snoc. unfold dedup_step.
    destruct (existsb (suppresses e) (deduplicate events)) eqn:E; simpl.
    + done.
    + by constructor.
Qed.

Lemma deduplicate_fixes_separated (events : list Event) :
  separated events → deduplicate events = events.
Proof.
  induction 1 as [|l e _ IH E].
  - done.
  - rewrite deduplicate_snoc, IH. unfold dedup_step. by rewrite E.
Qed.

(** C5, as amended: candidates are taken in their original order; the
    candidate that follows the prefix [pre] is accepted exactly when no event
    accepted from [pre] has its type and a time whose float difference from
    the candidate's is below its window (15 s for a goal, 10 s otherwise).
    A candidate at least a window away from every accepted event of its
    type is accepted, and a rejected candidate is less than a window away
    from one. An accepted event is never dropped later; goals at 100, 108
    and 200 leave the goals at 100 and 200. *)
Theorem deduplicate_accepts_iff_clear
    (pre post : list Event) (candidate : Event) :
  let accepted := deduplicate pre in
  let clear := ∀ a, a ∈ accepted → ¬ measured_within candidate a in
  (deduplicate (pre ++ [candidate]) = accepted ++ [candidate] ↔ clear)
  ∧ (deduplicate (pre ++ [candidate]) = accepted ↔ ¬ clear)
  ∧ ((∀ a, a ∈ accepted → ¬ within_window candidate a) → clear)
  ∧ (¬ clear → ∃ a, a ∈ accepted ∧ within_window candidate a)
  ∧ (∃ rest, deduplicate (pre ++ candidate :: post)
             = deduplicate (pre ++ [candidate]) ++ rest)
  ∧ deduplicate (pre ++ candidate :: post) `sublist_of` pre ++ candidate :: post
  ∧ window "goal" = 15
  ∧ (∀ type, type ≠ "goal" → window type = 10)
  ∧ ∀ t1 t2 t3,
      deduplicate [goal_at t1 100; goal_at t2 108; goal_at t3 200]
      = [goal_at t1 100; goal_at t3 200].
Proof.
  intros accepted clear. subst accepted clear.
  rewrite deduplicate_snoc.
  assert (Hexact : (∀ a, a ∈ deduplicate pre → ¬ within_window candidate a) →
                   ∀ a, a ∈ deduplicate pre → ¬ measured_within candidate a).
  { intros H a Ha Hm. by apply (H a Ha), measured_is_within. }
  assert (Hrest : ∃ rest, deduplicate (pre ++ candidate :: post)
                          = dedup_step (deduplicate pre) candidate ++ rest).
  { apply dedup_loop_extends_snoc. by rewrite deduplicate_snoc. }
  assert (Hsub : deduplicate (pre ++ candidate :: post)
                 `sublist_of` pre ++ candidate :: post)
    by apply (dedup_loop_sublist _ []).
  assert (Hgoal : window "goal" = 15) by done.
  assert (Hother : ∀ type, type ≠ "goal" → window type = 10).
  { intros type Hne. unfold window. by case_decide. }
  assert (Hscenario : ∀ t1 t2 t3,
            deduplicate [goal_at t1 100; goal_at t2 108; goal_at t3 200]
            = [goal_at t1 100; goal_at t3 200]).
  { intros t1 t2 t3. vm_compute. reflexivity. }
  destruct (dedup_step_cases (deduplicate pre) candidate)
    as [[Hc Hs]|[(a & Ha & Hw) Hs]]; rewrite Hs in *;
    split_and!; try done.
  - split; [intros H; by apply snoc_neq in H | done].
  - split; [intros H; symmetry in H; by apply snoc_neq in H
           | intros Hc; by destruct (Hc a Ha)].
  - split; [intros _ Hc; by apply (Hc a) | done].
  - intros _. exists a. split; [done | by apply measured_is_within].
Qed.

(** C5, as stated, fails at the boundary: the goal at the float 15.1 is
    accepted after the goal at the float 0.1 although the two times are less
    than 15 apart, because their float difference is exactly 15. *)
Lemma deduplicate_boundary_goals :
  deduplicate ([boundary_first] ++ [boundary_second])
  = deduplicate [boundary_first] ++ [boundary_second]
  ∧ boundary_first ∈ deduplicate [boundary_first]
  ∧ within_window boundary_second boundary_first.
Proof.
  split_and!.
  - vm_compute. reflexivity.
  - vm_compute. apply list_elem_of_here.
  - split; [reflexivity|]. vm_compute. reflexivity.
Qed.

(** The goal at the float 16.4 after the goal at the float 1.4: the float
    difference is 14.999999999999998, and the second goal is dropped. *)
Example deduplicate_float_times :
  deduplicate [goal_at "first" (py.float 1.4); goal_at "second" (py.float 16.4)]
  = [goal_at "first" (py.float 1.4)].
Proof. vm_compute. reflexivity. Qed.

(** C6: the deduplication pass leaves its own output unchanged, also as
    the last step of [detect_events_with_timestamps]. *)
Theorem deduplicate_idempotent :
  (∀ events, deduplicate (deduplicate events) = deduplicate events)
  ∧ ∀ segments,
      (out ← detect_events_with_timestamps segments; mret (deduplicate out))
      = detect_events_with_timestamps segments.
Proof.
  assert (Hi : ∀ events, deduplicate (deduplicate events) = deduplicate events).
  { intros events.
    apply deduplicate_fixes_separated, deduplicate_separated. }
  split; [done|].
  intros segments. unfold detect_events_with_timestamps.
  destruct (py.for_loop match_segment segments []) as [events|k]; simpl.
  - unfold mret, result_ret. by rewrite Hi.
  - done.
Qed.

End deduplicator.

(** ** Volume peak detector *)

Section peaks.
Import audio_volume spec.
Local Open Scope Q_scope.

(** Invariant of the scan. Every recorded peak is loud enough and not
    later than [last]; recorded peaks are pairwise spaced; and either the
    gap is non-negative, or the samples still to come are in time order
    and, once a peak exists, none of them precedes [last]. *)
Lemma peak_loop_invariant (threshold gap : Q)
    (timeline : list LoudnessSample) (peaks : list Peak) (last : Q) :
  Forall (λ p, threshold <= pk_volume p) peaks →
  Forall (λ p, pk_time p <= last) peaks →
  StronglySorted (spaced gap) peaks →
  (0 <= gap
   ∨ (StronglySorted not_after timeline
      ∧ (peaks = [] ∨ Forall (λ s, last <= ls_time s) timeline))) →
  let peaks' := (fold_left (peak_step threshold gap) timeline (peaks, last)).1 in
  Forall (λ p, threshold <= pk_volume p) peaks'
  ∧ StronglySorted (spaced gap) peaks'.
Proof.
  revert peaks last.
  induction timeline as [|point timeline IH]; intros peaks last Hv Hl Hs Ho.
  { done. }
  simpl. unfold peak_step at 2.
  destruct (Qle_bool threshold (ls_volume point)) eqn:Ev;
    [destruct (Qle_bool gap (ls_time point - last)) eqn:Eg|].
  - apply Qle_bool_iff in Ev, Eg.
    assert (Hbefore : Forall (λ p, pk_time p <= ls_time point) peaks).
    { destruct Ho as [Hg|[_ [->|Hf]]].
      - eapply Forall_impl; [exact Hl|]. simpl. intros p Hp. lra.
      - constructor.
      - apply Forall_cons_1 in Hf as [Hf _].
        eapply Forall_impl; [exact Hl|]. simpl. intros p Hp. lra. }
    apply IH.
    + apply Forall_app. split; [done|]. by repeat constructor.
    + apply Forall_app. split; [done|].
      repeat constructor. simpl. lra.
    + apply StronglySorted_app_2; [| done | repeat constructor].
      intros p q Hp Hq. apply list_elem_of_singleton in Hq as ->.
      unfold spaced. simpl.
      rewrite Forall_forall in Hl. specialize (Hl p Hp). simpl in Hl. lra.
    + destruct Ho as [Hg|[Hsorted _]]; [by left|right].
      apply StronglySorted_inv in Hsorted as [Hsorted Hall].
      split; [done|]. by right.
  - apply IH; try done.
    destruct Ho as [Hg|[Hsorted Hrest]]; [by left|right].
    apply StronglySorted_inv in Hsorted as [Hsorted Hall].
    split; [done|].
    destruct Hrest as [->|Hf]; [by left|right].
    by apply Forall_cons_1 in Hf as [_ Hf].
  - apply IH; try done.
    destruct Ho as [Hg|[Hsorted Hrest]]; [by left|right].
    apply StronglySorted_inv in Hsorted as [Hsorted Hall].
    split; [done|].
    destruct Hrest as [->|Hf]; [by left|right].
    by apply Forall_cons_1 in Hf as [_ Hf].
Qed.

(** C7: in the output of the peak scan every peak reaches the threshold,
    and a later peak is at least [min_gap_seconds] after every earlier
    one; this holds when the gap is non-negative or the samples come in
    time order, as the timeline always does. *)
Theorem detect_volume_peaks_spaced
    (timeline : list LoudnessSample) (threshold min_gap_seconds : Q) :
  0 <= min_gap_seconds ∨ chronological timeline →
  let peaks := detect_volume_peaks timeline threshold min_gap_seconds in
  (∀ p, p ∈ peaks → threshold <= pk_volume p)
  ∧ (∀ i j p q, (i < j)%nat → peaks !! i = Some p → peaks !! j = Some q →
                min_gap_seconds <= pk_time q - pk_time p).
Proof.
  intros H peaks. subst peaks. unfold detect_volume_peaks.
  destruct (peak_loop_invariant threshold min_gap_seconds timeline
              [] (- min_gap_seconds)) as [Hv Hs].
  - constructor.
  - constructor.
  - constructor.
  - destruct H as [Hg|Hc]; [by left|right]. split; [|by left].
    apply StronglySorted_of_lookup. intros i j a b Hij.
    apply Hc. lia.
  - split.
    + by apply Forall_forall.
    + by apply (StronglySorted_lookup (spaced min_gap_seconds)).
Qed.

Lemma detect_volume_peaks_spaced_witness :
  (0 <= 10 ∨ chronological scenario_timeline)
  ∧ (∀ p, p ∈ detect_volume_peaks scenario_timeline 0.6 10 → 0.6 <= pk_volume p)
  ∧ (∀ i j p q, (i < j)%nat →
       detect_volume_peaks scenario_timeline 0.6 10 !! i = Some p →
       detect_volume_peaks scenario_timeline 0.6 10 !! j = Some q →
       10 <= pk_time q - pk_time p).
Proof.
  assert (H : 0 <= 10 ∨ chronological scenario_timeline).
  { left. vm_compute. discriminate. }
  split; [exact H|].
  exact (detect_volume_peaks_spaced scenario_timeline 0.6 10 H).
Defined.

Example detect_volume_peaks_scenario :
  map pk_time (detect_volume_peaks scenario_timeline 0.6 10) = [5; 20].
Proof. reflexivity. Qed.

End peaks.

(** ** Intensity *)

Section analysis.
Import re information_extraction sentiment_analyzer spec.
Local Open Scope Q_scope.

Lemma no_model_excitement text :
  py.getitem (analyze_with_spacy None text) "excitement_score" = py.Ok (py.Num 0).
Proof. reflexivity. Qed.

Lemma no_model_word_count text :
  py.getitem (analyze_with_spacy None text) "word_count" = py.KeyError "word_count".
Proof. reflexivity. Qed.

Lemma counts_nonneg (doc : list Token) (c : Counts) :
  (0 ≤ excitement_count c)%Z → (0 ≤ tension_count c)%Z →
  (0 ≤ excitement_count (fold_left count_token doc c))%Z
  ∧ (0 ≤ tension_count (fold_left count_token doc c))%Z.
Proof.
  revert c. induction doc as [|token doc IH]; intros c He Ht; [done|].
  simpl. apply IH; unfold count_token; simpl.
  - case_match; lia.
  - case_match; lia.
Qed.

Lemma ratio_nonneg (a : Q) (n : Z) : 0 <= a → 0 <= a / inject_Z (Z.max n 1).
Proof.
  intros Ha. apply Qle_shift_div_l; [|lra].
  replace 0 with (inject_Z 0) by done. rewrite <- Zlt_Qlt. lia.
Qed.

Lemma inject_Z_nonneg (n : Z) : (0 ≤ n)%Z → 0 <= inject_Z n.
Proof. intros H. replace 0 with (inject_Z 0) by done. by rewrite <- Zle_Qle. Qed.

Lemma len_nonneg {A} (l : list A) : (0 ≤ len l)%Z.
Proof. unfold len. lia. Qed.

(** The three entries [calculate_intensity] reads are always present, and
    the two scores lie in [0,1]. *)
Lemma analysis_signals (nlp : option Language) (text : string) :
  ∃ e t h,
    py.getitem (analyze_with_spacy nlp text) "excitement_score" = py.Ok (py.Num e)
    ∧ py.getitem (analyze_with_spacy nlp text) "tension_score" = py.Ok (py.Num t)
    ∧ py.getitem (analyze_with_spacy nlp text) "has_intensifier" = py.Ok (py.Bool h)
    ∧ 0 <= e <= 1 ∧ 0 <= t <= 1.
Proof.
  destruct nlp as [nlp|].
  - unfold analyze_with_spacy.
    destruct (counts_nonneg (nlp text)
                {| excitement_count := 0; tension_count := 0;
                   intensifier_count := 0; has_negation := false |})
      as [He Ht]; [done | done |].
    do 3 eexists. do 3 (split; [reflexivity|]). split.
    + apply Qmin_bounds.
      apply Qmult_le_0_compat; [|lra].
      apply ratio_nonneg.
      pose proof (inject_Z_nonneg _ He).
      pose proof (inject_Z_nonneg _ (len_nonneg
        (List.filter (λ adj, py.contains EXCITEMENT_LEMMAS (py.lower (lemma_ adj)))
           (List.filter (λ token, py.contains ["ADJ"; "ADV"] (pos_ token)) (nlp text))))).
      lra.
    + apply Qmin_bounds.
      apply Qmult_le_0_compat; [|lra].
      apply ratio_nonneg. by apply inject_Z_nonneg.
  - exists 0, 0, false. do 3 (split; [reflexivity|]). lra.
Qed.

Lemma add_pattern_bonus_ge (patterns : list regex) (text : string)
    (bonus score : Q) :
  0 <= bonus → score <= add_pattern_bonus patterns text bonus score.
Proof.
  intros Hb. unfold add_pattern_bonus. revert score.
  induction patterns as [|p ps IH]; intros score; simpl; [lra|].
  eapply Qle_trans; [|apply IH]. destruct (search p text true); lra.
Qed.

Lemma count_if_nonneg (p : ascii → bool) (s : string) : (0 ≤ py.count_if p s)%Z.
Proof. unfold py.count_if. lia. Qed.

(** [calculate_intensity] never raises and its value lies in [0,1]. *)
Lemma calculate_intensity_bounds (nlp : option Language) (text : string) :
  ∃ v, calculate_intensity nlp text = py.Ok v ∧ 0 <= v <= 1.
Proof.
  unfold calculate_intensity.
  destruct (analysis_signals nlp text) as (e & t & h & -> & -> & -> & He & Ht).
  cbn [mbind result_bind py.bind mret result_ret py.num_of py.truthy].
  assert (∃ high, py.getitem INTENSITY_PATTERNS "high" = py.Ok high)
    as [high ->] by (eexists; reflexivity).
  assert (∃ medium, py.getitem INTENSITY_PATTERNS "medium" = py.Ok medium)
    as [medium ->] by (eexists; reflexivity).
  cbn [mbind result_bind py.bind mret result_ret].
  eexists. split; [reflexivity|].
  apply Qmin_bounds.
  set (base := if h then _ else _).
  assert (0 <= base) by (subst base; destruct h; lra).
  pose proof (add_pattern_bonus_ge high text 0.2 base).
  pose proof (add_pattern_bonus_ge medium text 0.08
                (add_pattern_bonus high text 0.2 base)).
  pose proof (Qmin_nonneg (inject_Z (py.count_char "!" text) * 0.08) 0.25).
  pose proof (Qmin_nonneg (inject_Z (py.count_char "?" text) * 0.05) 0.1).
  pose proof (inject_Z_nonneg _ (count_if_nonneg (Ascii.eqb "!") text)).
  pose proof (inject_Z_nonneg _ (count_if_nonneg (Ascii.eqb "?") text)).
  unfold py.count_char in *.
  repeat case_match; lra.
Qed.

Lemma calculate_intensity_with_volume_eq (nlp : option Language)
    (text : string) (volume_score text_intensity : Q) :
  calculate_intensity nlp text = py.Ok text_intensity →
  calculate_intensity_with_volume nlp text volume_score
  = py.Ok (py.round
             (if py.Qltb 0.5 text_intensity && py.Qltb 0.5 volume_score
              then py.Qmin
                     (py.fadd (weighted text_intensity volume_score)
                        (py.float 0.1)) 1
              else weighted text_intensity volume_score) 2).
Proof.
  intros H. unfold calculate_intensity_with_volume. by rewrite H.
Qed.

(** The float literals of the fusion: the weights add up to 1 exactly. *)
Lemma fusion_literals :
  0 <= py.float 0.6 ∧ 0 <= py.float 0.4 ∧ 0 <= py.float 0.1
  ∧ py.float 0.6 + py.float 0.4 == 1.
Proof. split_and!; by vm_compute. Qed.

Lemma weighted_nonneg (text_intensity volume_score : Q) :
  0 <= text_intensity → 0 <= volume_score →
  0 <= weighted text_intensity volume_score.
Proof.
  intros Ht Hv. destruct fusion_literals as (H6 & H4 & _).
  unfold weighted, py.fadd, py.fmul.
  apply float_nonneg.
  assert (0 <= py.float (text_intensity * py.float 0.6))
    by (apply float_nonneg; nra).
  assert (0 <= py.float (volume_score * py.float 0.4))
    by (apply float_nonneg; nra).
  lra.
Qed.

Lemma weighted_le_one (text_intensity volume_score : Q) :
  text_intensity <= 1 → volume_score <= 1 →
  weighted text_intensity volume_score <= 1.
Proof.
  intros Ht Hv.
  destruct fusion_literals as (H6 & H4 & _ & Hsum).
  unfold weighted, py.fadd, py.fmul.
  assert (py.float (text_intensity * py.float 0.6) <= py.float 0.6)
    by (apply float_le_double; [apply float_idempotent | nra]).
  assert (py.float (volume_score * py.float 0.4) <= py.float 0.4)
    by (apply float_le_double; [apply float_idempotent | nra]).
  apply float_le_double; [done | lra].
Qed.

Lemma weighted_unit (text_intensity volume_score : Q) :
  0 <= text_intensity <= 1 → 0 <= volume_score <= 1 →
  0 <= weighted text_intensity volume_score <= 1.
Proof.
  intros Ht Hv. split; [apply weighted_nonneg | apply weighted_le_one]; lra.
Qed.

Lemma weighted_double (text_intensity volume_score : Q) :
  py.float (weighted text_intensity volume_score)
  == weighted text_intensity volume_score.
Proof. apply float_idempotent. Qed.

Lemma weighted_monotone (text_intensity v1 v2 : Q) :
  v1 <= v2 → weighted text_intensity v1 <= weighted text_intensity v2.
Proof.
  intros Hv. destruct fusion_literals as (_ & H4 & _).
  unfold weighted, py.fadd, py.fmul.
  apply float_monotone.
  assert (py.float (v1 * py.float 0.4) <= py.float (v2 * py.float 0.4))
    by (apply float_monotone; nra).
  lra.
Qed.

Lemma bonus_nonneg (x : Q) : 0 <= x → 0 <= py.fadd x (py.float 0.1).
Proof.
  intros H. destruct fusion_literals as (_ & _ & H1 & _).
  apply float_nonneg. lra.
Qed.

(** C3: whatever the pipeline, the text and the bonuses that fire, the
    text-only intensity lies in [0,1], and so does the fused intensity for
    every volume score of [0,1]; neither computation raises. *)
Theorem intensity_in_unit_interval
    (nlp : option Language) (text : string) (volume_score : Q) :
  0 <= volume_score <= 1 →
  (∃ v, calculate_intensity nlp text = py.Ok v ∧ 0 <= v <= 1)
  ∧ (∃ v, calculate_intensity_with_volume nlp text volume_score = py.Ok v
          ∧ 0 <= v <= 1).
Proof.
  intros Hv.
  destruct (calculate_intensity_bounds nlp text) as (ti & Hti & Hb).
  split; [by exists ti|].
  rewrite (calculate_intensity_with_volume_eq _ _ _ _ Hti).
  eexists. split; [done|].
  apply round_unit_interval.
  destruct (weighted_unit ti volume_score Hb Hv) as [H0 H1].
  destruct (_ && _).
  - apply Qmin_bounds. by apply bonus_nonneg.
  - done.
Qed.

Lemma intensity_in_unit_interval_witness :
  0 <= 0.9 <= 1
  ∧ (∃ v, calculate_intensity None "GOAL!!! What a strike from Ronaldo!"
          = py.Ok v ∧ 0 <= v <= 1)
  ∧ (∃ v, calculate_intensity_with_volume None
            "GOAL!!! What a strike from Ronaldo!" 0.9 = py.Ok v
          ∧ 0 <= v <= 1).
Proof.
  assert (H : 0 <= 0.9 <= 1) by (split; vm_compute; discriminate).
  split; [exact H|].
  exact (intensity_in_unit_interval None
           "GOAL!!! What a strike from Ronaldo!" 0.9 H).
Defined.

Example scenario_clamps_at_one :
  calculate_intensity None "GOAL!!! What a strike from Ronaldo!" = py.Ok 1.
Proof. reflexivity. Qed.

(** Without a model the linguistic signals are all zero. *)
Lemma no_model_signals (text : string) :
  analyze_with_spacy None text
  = {[ "excitement_score" := py.Num 0; "tension_score" := py.Num 0;
       "has_intensifier" := py.Bool false; "has_negation" := py.Bool false ]}.
Proof. reflexivity. Qed.

Lemma analyze_segment_without_model
    (volume_lookup : gmap Qc Q) (segment : Segment) :
  analyze_segment None volume_lookup segment = py.KeyError "word_count".
Proof.
  unfold analyze_segment. cbv zeta.
  set (text := py.get (seg_text segment) EmptyString).
  set (volume_score := py.get (volume_lookup !! _) 0).
  destruct (calculate_intensity_bounds None text) as (ti & Hti & _).
  destruct (py.Qltb 0 volume_score).
  - by rewrite (calculate_intensity_with_volume_eq _ _ _ _ Hti).
  - by rewrite Hti.
Qed.

(** C1 (what the code does): with no model loaded, [analyze_sentiment]
    raises [KeyError] on its first segment, because the all-zero fallback
    dictionary has no [word_count] entry; no record is produced. *)
Theorem analyze_sentiment_without_model_raises
    (segment : Segment) (segments : list Segment)
    (segments_with_volume : option (list SegmentWithVolume)) :
  analyze_sentiment None (segment :: segments) segments_with_volume
  = py.KeyError "word_count".
Proof.
  unfold analyze_sentiment. cbn [py.for_loop].
  cbn [mbind result_bind].
  by rewrite analyze_segment_without_model.
Qed.

(** C2 (what the code does): under [re.IGNORECASE] the pattern
    [[A-Z]{3,}] matches the lowercase word "the" and the shout pattern
    matches the lowercase word "oh"; each text has no uppercase letter and
    still scores the 0.2 bonus. *)
Theorem lowercase_text_scores_caps_bonus :
  py.count_if py.isupper "the" = 0%Z
  ∧ search (AtLeast 3 (Range "A" "Z")) "the" true = true
  ∧ search (AtLeast 3 (Range "A" "Z")) "the" false = false
  ∧ (∃ v, calculate_intensity None "the" = py.Ok v ∧ v == 0.2)
  ∧ py.count_if py.isupper "oh" = 0%Z
  ∧ search (word_alts [lit "GOAL"; lit "YES"; lit "WOW"; lit "OH"]) "oh" true
    = true
  ∧ search (word_alts [lit "GOAL"; lit "YES"; lit "WOW"; lit "OH"]) "oh" false
    = false
  ∧ (∃ v, calculate_intensity None "oh" = py.Ok v ∧ v == 0.2).
Proof.
  split_and!; try reflexivity; by eexists.
Qed.

(** C9: the summary of an empty record list is defined: every number is
    0, every counter is 0 and there is no peak record. *)
Theorem get_intensity_summary_empty :
  get_intensity_summary [] = py.Ok empty_summary
  ∧ peak_of [] = None
  ∧ average_intensity empty_summary = 0
  ∧ peak_intensity empty_summary = 0
  ∧ total_segments empty_summary = 0%Z
  ∧ exciting_percentage empty_summary = 0.
Proof. split_and!; reflexivity. Qed.

(** A loop that appends one result per element returns the results in
    order, as long as no body raises. *)
Lemma for_loop_collect {A B} (f : A → py.result B)
    (xs : list A) (acc ys : list B) :
  Forall2 (λ x y, f x = py.Ok y) xs ys →
  py.for_loop (λ results x, y ← f x; mret (results ++ [y])) xs acc
  = py.Ok (acc ++ ys).
Proof.
  intros H. revert acc.
  induction H as [|x y xs ys Hxy _ IH]; intros acc; simpl.
  - by rewrite app_nil_r.
  - cbn [mbind result_bind]. rewrite Hxy. simpl.
    rewrite IH. by rewrite <- app_assoc.
Qed.

Lemma Forall2_choose {A B} (R : A → B → Prop) (xs : list A) :
  (∀ x, ∃ y, R x y) → ∃ ys, Forall2 R xs ys.
Proof.
  intros H. induction xs as [|x xs [ys IH]].
  - by exists [].
  - destruct (H x) as [y Hy]. exists (y :: ys). by constructor.
Qed.

(** With a model loaded the loop body returns a record; its intensity is
    the fused value when the looked-up volume is positive and the text-only
    value otherwise. *)
Lemma analyze_segment_with_model (nlp : Language)
    (volume_lookup : gmap Qc Q) (segment : Segment) :
  let text := py.get (seg_text segment) EmptyString in
  let volume_score :=
    py.get (volume_lookup !! time_key (py.get (seg_start segment) 0)) 0 in
  ∃ record text_intensity,
    analyze_segment (Some nlp) volume_lookup segment = py.Ok record
    ∧ calculate_intensity (Some nlp) text = py.Ok text_intensity
    ∧ 0 <= text_intensity <= 1
    ∧ (0 < volume_score →
       calculate_intensity_with_volume (Some nlp) text volume_score
       = py.Ok (ir_intensity record))
    ∧ (¬ 0 < volume_score → ir_intensity record = text_intensity).
Proof.
  intros text volume_score. unfold analyze_segment. cbv zeta.
  fold text. fold volume_score.
  destruct (calculate_intensity_bounds (Some nlp) text) as (ti & Hti & Hb).
  destruct (analysis_signals (Some nlp) text)
    as (e & t & h & -> & -> & -> & _ & _).
  assert (∃ w, py.getitem (analyze_with_spacy (Some nlp) text) "word_count"
               = py.Ok w) as [w ->] by (eexists; reflexivity).
  destruct (py.Qltb 0 volume_score) eqn:E.
  - rewrite (calculate_intensity_with_volume_eq _ _ _ _ Hti).
    eexists _, ti. split; [reflexivity|].
    split_and!; [done | apply Hb | apply Hb | done |].
    intros Hn. by apply Qltb_lt in E.
  - rewrite Hti. eexists _, ti. split; [reflexivity|].
    split_and!; [done | apply Hb | apply Hb | | done].
    intros Hp%Qltb_lt. congruence.
Qed.




(** The two paths on concrete segments: a volume of 0.5 stored under key
    1.0 is found by a segment starting at 0.96 and gives intensity 0.3,
    the rounding of the weighted sum of 6/35 and 0.5; a segment starting at
    3 finds no entry and keeps the text-only 6/35. *)
Example analyze_sentiment_both_paths :
  ir_intensity <$>
    default [] (match analyze_sentiment (Some seven_words)
                        [segment_at 0.96 "a b"; segment_at 3 "a b"]
                        (Some [ {| sv_start := Some 1.04;
                                   sv_volume_score := Some 0.5 |} ]) with
                | py.Ok records => Some records
                | py.KeyError _ => None
                end)
  = [0.3; 84000000 # 490000000].
Proof. vm_compute. reflexivity. Qed.

(** C10: with a model loaded, the stored intensity has two decimals
    whenever the looked-up volume is positive, and is exactly the value
    [calculate_intensity] returns otherwise; that value need not have two
    decimals: seven words, one of them "goal", give 6/35. *)
Theorem intensity_rounded_only_with_volume (nlp : Language)
    (segments : list Segment)
    (segments_with_volume : option (list SegmentWithVolume)) :
  let volume_lookup := build_volume_lookup segments_with_volume in
  (∃ records,
     analyze_sentiment (Some nlp) segments segments_with_volume
     = py.Ok records
     ∧ Forall2
         (λ segment record,
            let text := py.get (seg_text segment) EmptyString in
            let key := time_key (py.get (seg_start segment) 0) in
            let volume_score := py.get (volume_lookup !! key) 0 in
            (0 < volume_score →
             two_decimal (ir_intensity record)
             ∧ ir_intensity record = py.round (ir_intensity record) 2)
            ∧ (¬ 0 < volume_score →
               calculate_intensity (Some nlp) text
               = py.Ok (ir_intensity record)))
         segments records)
  ∧ ∃ record,
      analyze_sentiment (Some seven_words) [segment_at 0 "a b"] None
      = py.Ok [record]
      ∧ ir_intensity record == 6 # 35
      ∧ ¬ two_decimal (ir_intensity record).
Proof.
  intros volume_lookup. split.
  - destruct (Forall2_choose
                (λ segment record,
                   analyze_segment (Some nlp) volume_lookup segment
                   = py.Ok record) segments) as [records Hrecords].
    { intros segment.
      destruct (analyze_segment_with_model nlp volume_lookup segment)
        as (record & _ & H & _). by exists record. }
    exists records. split.
    + unfold analyze_sentiment. fold volume_lookup.
      by rewrite (for_loop_collect _ _ [] records Hrecords).
    + eapply Forall2_impl; [exact Hrecords|].
      intros segment record Hrecord. simpl in Hrecord.
      destruct (analyze_segment_with_model nlp volume_lookup segment)
        as (record' & ti & Hr & Hti & Hb & Hpos & Hneg).
      assert (record' = record) as -> by congruence.
      split.
      * intros Hp. specialize (Hpos Hp).
        rewrite (calculate_intensity_with_volume_eq _ _ _ _ Hti) in Hpos.
        injection Hpos as <-.
        split; [apply round_two_decimal | by rewrite round_idempotent].
      * intros Hn. by rewrite (Hneg Hn).
  - eexists. split; [reflexivity|].
    match goal with
    | |- ?x == _ ∧ _ => assert (H : x == 6 # 35) by reflexivity
    end.
    split; [exact H|].
    intros [n Hn]. rewrite H in Hn.
    unfold Qeq in Hn. simpl in Hn. lia.
Qed.

End analysis.

(** * Further properties *)

(** ** Deduplication and detection *)

Section deduplicator_more.
Import information_extraction spec spec_ext.
Local Open Scope Q_scope.

Lemma window_pos (type : string) : 0 < window type.
Proof. unfold window. case_decide; reflexivity. Qed.

Lemma within_window_refl (e : Event) : within_window e e.
Proof.
  split; [done|]. apply Qabs_diff_Qlt_condition.
  pose proof (window_pos (ev_type e)). lra.
Qed.

Lemma separated_lookup (l : list Event) :
  separated l →
  ∀ i j a b, (i < j)%nat → l !! i = Some a → l !! j = Some b →
             suppresses b a = false.
Proof.
  induction 1 as [|l e _ IH E]; intros i j a b Hij Ha Hb; [done|].
  destruct (decide (j < length l)%nat) as [Hj|Hj].
  - rewrite lookup_app_l in Ha, Hb by lia. by apply (IH i j).
  - assert (j = length l) as ->.
    { apply lookup_lt_Some in Hb. rewrite length_app in Hb. simpl in Hb. lia. }
    rewrite lookup_app_l in Ha by lia.
    rewrite list_lookup_middle in Hb by done. injection Hb as <-.
    apply not_true_iff_false. intros Hs.
    apply not_true_iff_false in E. apply E, existsb_exists.
    exists a. split; [|done]. apply list_elem_of_In. by eapply list_elem_of_lookup_2.
Qed.

Lemma window_predecessor (type : string) :
  py.float (window type - (1 # 562949953421312))
  == window type - (1 # 562949953421312).
Proof. unfold window. by case_decide. Qed.

(** X1: two events of one type that both survive deduplication are at
    least that type's window apart as the code measures it, on the float
    difference of their times; the times themselves are then more than the
    window less 2^-49 seconds apart. *)
Theorem deduplicate_keeps_window (events : list Event) (i j : nat) (a b : Event) :
  (i < j)%nat →
  deduplicate events !! i = Some a →
  deduplicate events !! j = Some b →
  ev_type a = ev_type b →
  window (ev_type a) <= Qabs (py.fsub (ev_time a) (ev_time b))
  ∧ window (ev_type a) - (1 # 562949953421312)
    < Qabs (ev_time a - ev_time b).
Proof.
  intros Hij Ha Hb Ht.
  pose proof (separated_lookup _ (deduplicate_separated events) i j a b Hij Ha Hb)
    as Hs.
  assert (Hm : window (ev_type a) <= Qabs (py.fsub (ev_time a) (ev_time b))).
  { unfold suppresses in Hs. rewrite Ht, window_of_spec in *.
    apply andb_false_iff in Hs as [Hs|Hs].
    - by rewrite String.eqb_refl in Hs.
    - by apply Qltb_ge in Hs. }
  split; [done|].
  apply Qnot_le_lt. intros Hle.
  pose proof (window_predecessor (ev_type a)) as Hr.
  unfold py.fsub in Hm. rewrite float_abs in Hm.
  pose proof (float_le_double _ _ Hr Hle). lra.
Qed.

Lemma deduplicate_keeps_window_witness :
  window "goal" <= Qabs (py.fsub 100 200)
  ∧ window "goal" - (1 # 562949953421312) < Qabs (100 - 200).
Proof.
  exact (deduplicate_keeps_window scenario_goals 0 1
           (goal_at "first" 100) (goal_at "second" 200)
           (Nat.lt_0_succ 0) eq_refl eq_refl eq_refl).
Defined.

Lemma dedup_step_keeps (accepted : list Event) (e a : Event) :
  a ∈ accepted → a ∈ dedup_step accepted e.
Proof.
  intros Ha. destruct (dedup_step_cases accepted e) as [[_ ->]|[_ ->]];
    [apply elem_of_app; by left | done].
Qed.

(** X2: deduplication loses no event without a stand-in: every candidate
    has a surviving event of its own type less than its window away
    (itself, if it was accepted). *)
Theorem deduplicate_covers (events : list Event) (candidate : Event) :
  candidate ∈ events →
  ∃ a, a ∈ deduplicate events ∧ within_window candidate a.
Proof.
  induction events as [|e events IH] using rev_ind; [by intros ?%elem_of_nil|].
  rewrite deduplicate_snoc. intros [Hin|Hin]%elem_of_app.
  2: apply list_elem_of_singleton in Hin as <-.
  - destruct (IH Hin) as (a & Ha & Hw). exists a. split; [|done].
    by apply dedup_step_keeps.
  - destruct (dedup_step_cases (deduplicate events) candidate)
      as [[_ ->]|[(a & Ha & Hw) ->]].
    + exists candidate. split; [|apply within_window_refl].
      apply elem_of_app. right. by apply list_elem_of_singleton.
    + exists a. split; [done | by apply measured_is_within].
Qed.

Lemma deduplicate_covers_witness :
  ∃ a, a ∈ deduplicate scenario_goals ∧ within_window (goal_at "again" 108) a.
Proof.
  apply (deduplicate_covers scenario_goals (goal_at "again" 108)).
  apply list_elem_of_In. right. left. reflexivity.
Defined.

Lemma existsb_suppresses_of_type (e : Event) (accepted : list Event) :
  existsb (suppresses e) (of_type (ev_type e) accepted)
  = existsb (suppresses e) accepted.
Proof.
  unfold of_type. induction accepted as [|a accepted IH]; [done|]. simpl.
  destruct (String.eqb (ev_type a) (ev_type e)) eqn:E; simpl.
  - by rewrite IH.
  - rewrite IH. unfold suppresses at 2. by rewrite E.
Qed.

(** X3: event types are deduplicated independently of each other: keeping
    one type before or after the pass gives the same events. *)
Theorem deduplicate_by_type (events : list Event) (T : string) :
  deduplicate (of_type T events) = of_type T (deduplicate events).
Proof.
  induction events as [|e events IH] using rev_ind; [done|].
  unfold of_type in *. rewrite List.filter_app, deduplicate_snoc. simpl.
  destruct (String.eqb_spec (ev_type e) T) as [<-|Hne].
  - rewrite deduplicate_snoc, IH. unfold dedup_step.
    fold (of_type (ev_type e) (deduplicate events)).
    rewrite existsb_suppresses_of_type. unfold of_type.
    destruct (existsb _ (deduplicate events)); simpl; [done|].
    rewrite List.filter_app. simpl. by rewrite String.eqb_refl.
  - rewrite app_nil_r, IH. unfold dedup_step.
    destruct (existsb _ (deduplicate events)); simpl; [done|].
    rewrite List.filter_app. simpl.
    apply String.eqb_neq in Hne. by rewrite Hne, app_nil_r.
Qed.

End deduplicator_more.

Section detection.
Import information_extraction spec spec_ext.
Local Open Scope Q_scope.

Lemma match_segment_complete (events : list Event) (segment : Segment) :
  complete segment →
  ∃ new, match_segment events segment = py.Ok (events ++ new)
         ∧ (length new ≤ 1)%nat
         ∧ Forall (detected_in segment) new.
Proof.
  destruct segment as [start end_time text]. intros [[t Ht] [s Hs]].
  simpl in Ht, Hs. subst.
  change (match_segment events _)
    with (py.Ok (match_patterns EVENT_PATTERNS t (py.lower t) s events)).
  rewrite match_patterns_find.
  destruct (find _ EVENT_PATTERNS) as [it|] eqn:E.
  - apply found_is_first_match in E. eexists. split_and!; [done | simpl; lia |].
    repeat constructor. by exists t.
  - exists []. split_and!; [done | simpl; lia | constructor].
Qed.

Lemma match_segment_incomplete (events : list Event) (segment : Segment) :
  ¬ complete segment →
  match_segment events segment
  = py.KeyError (match seg_text segment with
                 | None => "text"
                 | Some _ => "start"
                 end).
Proof.
  destruct segment as [[s|] end_time [t|]]; intros H; try done.
  destruct H. split; by eexists.
Qed.

(** The first loop on complete segments: the new events come, one each and
    in order, from some of the segments. *)
Lemma first_loop_complete (segments : list Segment) (acc : list Event) :
  Forall complete segments →
  ∃ new sources,
    py.for_loop match_segment segments acc = py.Ok (acc ++ new)
    ∧ sources `sublist_of` segments
    ∧ Forall2 detected_in sources new.
Proof.
  intros H. revert acc. induction H as [|segment segments Hc _ IH]; intros acc.
  - exists [], []. split_and!; [by rewrite app_nil_r | done | constructor].
  - destruct (match_segment_complete acc segment Hc) as (n1 & H1 & Hl1 & Hd1).
    destruct (IH (acc ++ n1)) as (n2 & s2 & H2 & Hs2 & Hd2).
    simpl. rewrite H1. simpl. rewrite H2.
    destruct n1 as [|e [|e' n1]]; [| |simpl in Hl1; lia].
    + exists n2, s2. split_and!; [by rewrite app_nil_r | by apply sublist_cons | done].
    + exists (e :: n2), (segment :: s2).
      split_and!; [by rewrite <- app_assoc | by apply sublist_skip |].
      constructor; [|done]. by apply Forall_inv in Hd1.
Qed.

Lemma Forall2_sublist_r {A B} (R : A → B → Prop) (xs : list A) (ys ys' : list B) :
  Forall2 R xs ys → ys' `sublist_of` ys →
  ∃ xs', xs' `sublist_of` xs ∧ Forall2 R xs' ys'.
Proof.
  intros H. revert ys'. induction H as [|x y xs ys Hxy _ IH]; intros ys' Hs.
  - apply sublist_nil_r in Hs as ->. by exists [].
  - apply sublist_cons_r in Hs as [Hs|(ys'' & -> & Hs)].
    + destruct (IH _ Hs) as (xs' & Hx & HR). exists xs'.
      split; [by apply sublist_cons | done].
    + destruct (IH _ Hs) as (xs' & Hx & HR). exists (x :: xs').
      split; [by apply sublist_skip | by constructor].
Qed.

(** X4: when every segment has its text and start, detection returns, and
    the events come, one each and in order, from some of the segments: no
    segment gives two events, and each event has the start of its segment
    as time, the stripped segment text as text and the first matching
    category as type. *)
Theorem detect_events_provenance (segments : list Segment) :
  Forall complete segments →
  ∃ events sources,
    detect_events_with_timestamps segments = py.Ok events
    ∧ sources `sublist_of` segments
    ∧ Forall2 detected_in sources events.
Proof.
  intros H.
  destruct (first_loop_complete segments [] H) as (new & srcs & Hn & Hs & Hd).
  unfold detect_events_with_timestamps. rewrite Hn. simpl.
  pose proof (dedup_loop_sublist new []) as Hsub. simpl in Hsub.
  fold (deduplicate new) in Hsub.
  destruct (Forall2_sublist_r _ _ _ _ Hd Hsub) as (sources & Hss & HR).
  exists (deduplicate new), sources. split_and!; [done | | done].
  by etrans.
Qed.

Lemma detect_events_provenance_witness :
  ∃ events sources,
    detect_events_with_timestamps scenario_segments = py.Ok events
    ∧ sources `sublist_of` scenario_segments
    ∧ Forall2 detected_in sources events.
Proof.
  apply (detect_events_provenance scenario_segments).
  repeat constructor; eexists; reflexivity.
Defined.

(** X5: the first segment that lacks [text] (or, having a text, lacks
    [start]) makes the whole call raise [KeyError] for that key, whatever
    was matched before it and whatever follows. *)
Theorem detect_events_missing_key (pre post : list Segment) (segment : Segment) :
  Forall complete pre →
  ¬ complete segment →
  detect_events_with_timestamps (pre ++ segment :: post)
  = py.KeyError (match seg_text segment with
                 | None => "text"
                 | Some _ => "start"
                 end).
Proof.
  intros Hpre Hseg. unfold detect_events_with_timestamps.
  assert (∀ acc, py.for_loop match_segment (pre ++ segment :: post) acc
                 = py.KeyError (match seg_text segment with
                                | None => "text"
                                | Some _ => "start"
                                end)) as ->; [|done].
  induction Hpre as [|s pre Hs _ IH]; intros acc; simpl.
  - by rewrite match_segment_incomplete.
  - destruct (match_segment_complete acc s Hs) as (n & -> & _). simpl. apply IH.
Qed.

Lemma detect_events_missing_key_witness :
  detect_events_with_timestamps
    (scenario_segments
     ++ {| seg_start := None; seg_end := None; seg_text := Some "He scores" |}
     :: [])
  = py.KeyError "start".
Proof.
  apply (detect_events_missing_key scenario_segments []
           {| seg_start := None; seg_end := None; seg_text := Some "He scores" |}).
  - repeat constructor; eexists; reflexivity.
  - intros [_ [x Hx]]. discriminate Hx.
Defined.

End detection.

(** ** Peak scan *)

Section peaks_more.
Import audio_volume spec spec_ext.
Local Open Scope Q_scope.

Lemma peak_step_cases (threshold gap : Q) (peaks : list Peak) (last : Q)
    (point : LoudnessSample) :
  (threshold <= ls_volume point ∧ gap <= ls_time point - last
   ∧ peak_step threshold gap (peaks, last) point
     = (peaks ++ [peak_at point], ls_time point))
  ∨ (¬ (threshold <= ls_volume point ∧ gap <= ls_time point - last)
     ∧ peak_step threshold gap (peaks, last) point = (peaks, last)).
Proof.
  unfold peak_step.
  destruct (Qle_bool threshold (ls_volume point)) eqn:Ev;
    [destruct (Qle_bool gap (ls_time point - last)) eqn:Eg|].
  - left. apply Qle_bool_iff in Ev, Eg. done.
  - right. split; [|done]. intros [_ H%Qle_bool_iff]. congruence.
  - right. split; [|done]. intros [H%Qle_bool_iff _]. congruence.
Qed.

Lemma peak_loop_extends (threshold gap : Q) (timeline : list LoudnessSample)
    (peaks : list Peak) (last : Q) :
  ∃ rest,
    (fold_left (peak_step threshold gap) timeline (peaks, last)).1
    = peaks ++ rest
    ∧ rest `sublist_of` map peak_at timeline.
Proof.
  revert peaks last. induction timeline as [|point timeline IH];
    intros peaks last; cbn [fold_left].
  - exists []. simpl. by rewrite app_nil_r.
  - destruct (peak_step_cases threshold gap peaks last point)
      as [(_ & _ & ->)|[_ ->]].
    + destruct (IH (peaks ++ [peak_at point]) (ls_time point))
        as (rest & -> & Hsub).
      exists (peak_at point :: rest). rewrite <- app_assoc.
      split; [done | by apply sublist_skip].
    + destruct (IH peaks last) as (rest & -> & Hsub).
      exists rest. split; [done | by apply sublist_cons].
Qed.

(** X6: the scan only selects: the peaks are samples of the timeline, in
    timeline order, each with its sample's time and volume and the type
    [high_volume_moment]. *)
Theorem detect_volume_peaks_selects
    (timeline : list LoudnessSample) (threshold min_gap_seconds : Q) :
  detect_volume_peaks timeline threshold min_gap_seconds
  `sublist_of` map peak_at timeline.
Proof.
  unfold detect_volume_peaks.
  by destruct (peak_loop_extends threshold min_gap_seconds timeline []
                 (- min_gap_seconds)) as (rest & -> & Hsub).
Qed.

Lemma tracks_snoc (gap : Q) (peaks : list Peak) (point : LoudnessSample) :
  tracks gap (peaks ++ [peak_at point]) (ls_time point).
Proof. unfold tracks. by rewrite last_snoc. Qed.

(** The scan keeps [last_peak_time] in step with the recorded peaks. *)
Lemma peak_loop_tracks (threshold gap : Q) (timeline : list LoudnessSample)
    (peaks : list Peak) (last_time : Q) :
  tracks gap peaks last_time →
  tracks gap
    (fold_left (peak_step threshold gap) timeline (peaks, last_time)).1
    (fold_left (peak_step threshold gap) timeline (peaks, last_time)).2.
Proof.
  revert peaks last_time. induction timeline as [|point timeline IH];
    intros peaks last_time Htr; cbn [fold_left]; [done|].
  destruct (peak_step_cases threshold gap peaks last_time point)
    as [(_ & _ & ->)|[_ ->]].
  - apply IH, tracks_snoc.
  - by apply IH.
Qed.

(** X7: no loud moment is missed: a sample that reaches the threshold, at
    a time that is not negative, becomes a peak itself, or a peak taken from
    an earlier sample of the timeline lies less than [min_gap_seconds]
    before it; in a timeline in time order that peak is not later than the
    sample. *)
Theorem detect_volume_peaks_covers
    (pre post : list LoudnessSample) (threshold min_gap_seconds : Q)
    (s : LoudnessSample) :
  threshold <= ls_volume s →
  0 <= ls_time s →
  ∃ p, p ∈ detect_volume_peaks (pre ++ s :: post) threshold min_gap_seconds
       ∧ (p = peak_at s
          ∨ ∃ q, q ∈ pre ∧ p = peak_at q
                 ∧ ls_time s - pk_time p < min_gap_seconds
                 ∧ (chronological (pre ++ s :: post) →
                    pk_time p <= ls_time s)).
Proof.
  intros Hv Ht. unfold detect_volume_peaks. rewrite fold_left_app.
  destruct (peak_loop_extends threshold min_gap_seconds pre []
              (- min_gap_seconds)) as (peaks1 & Hp1 & Hsub1).
  pose proof (peak_loop_tracks threshold min_gap_seconds pre []
                (- min_gap_seconds) eq_refl) as Htr.
  destruct (fold_left _ pre _) as [peaks last_time]. simpl in Hp1, Htr.
  subst peaks. cbn [fold_left].
  destruct (peak_step_cases threshold min_gap_seconds peaks1 last_time s)
    as [(_ & _ & ->)|[Hno ->]].
  - destruct (peak_loop_extends threshold min_gap_seconds post
                (peaks1 ++ [peak_at s]) (ls_time s)) as (rest & -> & _).
    exists (peak_at s). split; [|by left].
    apply elem_of_app. left. apply elem_of_app. right.
    by apply list_elem_of_singleton.
  - assert (Hlt : ls_time s - last_time < min_gap_seconds).
    { apply Qnot_le_lt. intros Hg. by apply Hno. }
    unfold tracks in Htr. destruct (last peaks1) as [p|] eqn:El; [|subst; lra].
    subst last_time.
    destruct (peak_loop_extends threshold min_gap_seconds post peaks1
                (pk_time p)) as (rest & -> & _).
    assert (Hin : p ∈ peaks1).
    { apply last_Some in El as [l' ->]. apply elem_of_app. right.
      by apply list_elem_of_singleton. }
    exists p. split; [apply elem_of_app; by left|]. right.
    assert (Hq : p ∈ map peak_at pre) by (by eapply elem_of_sublist).
    apply list_elem_of_fmap in Hq as (q & -> & Hq).
    exists q. split_and!; [done | done | done |].
    intros Hc. apply list_elem_of_lookup in Hq as [i Hi].
    apply (Hc i (length pre) q s).
    + apply lookup_lt_Some in Hi. lia.
    + by rewrite lookup_app_l by (by eapply lookup_lt_Some).
    + by rewrite list_lookup_middle.
Qed.

Lemma detect_volume_peaks_covers_witness :
  ∃ p, p ∈ detect_volume_peaks scenario_timeline 0.6 10
       ∧ (p = peak_at {| ls_time := 8; ls_volume := 0.8 |}
          ∨ ∃ q, q ∈ [ {| ls_time := 5; ls_volume := 0.7 |} ]
                 ∧ p = peak_at q
                 ∧ ls_time {| ls_time := 8; ls_volume := 0.8 |} - pk_time p < 10
                 ∧ (chronological scenario_timeline →
                    pk_time p
                    <= ls_time {| ls_time := 8; ls_volume := 0.8 |})).
Proof.
  apply (detect_volume_peaks_covers
           [ {| ls_time := 5; ls_volume := 0.7 |} ]
           [ {| ls_time := 20; ls_volume := 0.65 |} ] 0.6 10
           {| ls_time := 8; ls_volume := 0.8 |}).
  - vm_compute. discriminate.
  - vm_compute. discriminate.
Defined.

End peaks_more.

(** ** Sorting and slicing *)

Section sorting.
Import spec_ext.
Local Open Scope Q_scope.
Context {A : Type} (key : A → Q) (reverse : bool).

Lemma in_order_trans (a b c : A) :
  in_order key reverse a b → in_order key reverse b c → in_order key reverse a c.
Proof. unfold in_order. destruct reverse; lra. Qed.

Lemma place_perm (x : A) (l : list A) : py.place key reverse x l ≡ₚ x :: l.
Proof.
  induction l as [|y l IH]; simpl; [done|].
  case_match; [|done]. rewrite IH. apply Permutation_swap.
Qed.

Lemma sorted_perm (l : list A) : py.sorted l key reverse ≡ₚ l.
Proof.
  unfold py.sorted. induction l as [|x l IH]; simpl; [done|].
  by rewrite place_perm, IH.
Qed.

Lemma place_sorted (x : A) (l : list A) :
  StronglySorted (in_order key reverse) l →
  StronglySorted (in_order key reverse) (py.place key reverse x l).
Proof.
  induction 1 as [|y l Hs IH Hy]; simpl; [repeat constructor|].
  destruct (if reverse then _ else _) eqn:E.
  - constructor; [done|].
    apply Forall_forall. intros z Hz.
    rewrite place_perm in Hz. apply elem_of_cons in Hz as [->|Hz].
    + unfold in_order. destruct reverse.
      * apply Qltb_lt in E. lra.
      * apply Qltb_lt in E. lra.
    + rewrite Forall_forall in Hy. by apply Hy.
  - assert (Hxy : in_order key reverse x y).
    { unfold in_order. destruct reverse; by apply Qltb_ge in E. }
    constructor; [by constructor|].
    constructor; [done|].
    eapply Forall_impl; [exact Hy|]. simpl. intros z Hz.
    by eapply in_order_trans.
Qed.

Lemma sorted_sorted (l : list A) :
  StronglySorted (in_order key reverse) (py.sorted l key reverse).
Proof.
  unfold py.sorted. induction l as [|x l IH]; simpl; [constructor|].
  by apply place_sorted.
Qed.

End sorting.

Section prefixes.
Context {A : Type}.

Lemma slice_to_prefix (l : list A) (n : Z) :
  ∃ rest, l = py.slice_to l n ++ rest.
Proof.
  unfold py.slice_to. case_match; eexists; by rewrite take_drop.
Qed.

Lemma slice_to_length (l : list A) (n : Z) :
  (0 ≤ n)%Z → length (py.slice_to l n) = Z.to_nat n `min` length l.
Proof.
  intros Hn. unfold py.slice_to.
  destruct (Z.leb_spec 0 n); [|lia]. by rewrite length_take.
Qed.

Lemma slice_to_head (l : list A) (n : Z) :
  (0 < n)%Z → head (py.slice_to l n) = head l.
Proof.
  intros Hn. unfold py.slice_to.
  destruct (Z.leb_spec 0 n); [|lia].
  destruct (Z.to_nat n) as [|k] eqn:E; [lia|]. by destruct l.
Qed.

End prefixes.

Section moments.
Import sentiment_analyzer spec spec_ext.
Local Open Scope Q_scope.

Lemma keep_greater_assoc (m y g : IntensityRecord) :
  keep_greater (keep_greater m y) g = keep_greater m (keep_greater y g).
Proof.
  unfold keep_greater.
  destruct (py.Qltb (ir_intensity m) (ir_intensity y)) eqn:E1;
  destruct (py.Qltb (ir_intensity y) (ir_intensity g)) eqn:E2;
  destruct (py.Qltb (ir_intensity m) (ir_intensity g)) eqn:E3;
  rewrite ?E1, ?E2, ?E3; try done;
  rewrite ?Qltb_lt, ?Qltb_ge in *; lra.
Qed.

Lemma first_max_cons (rest : list IntensityRecord) (m y : IntensityRecord) :
  fold_left keep_greater (y :: rest) m
  = keep_greater m (fold_left keep_greater rest y).
Proof.
  revert m y. induction rest as [|z rest IH]; intros m y; [done|].
  change (fold_left keep_greater (y :: z :: rest) m)
    with (fold_left keep_greater (z :: rest) (keep_greater m y)).
  rewrite (IH (keep_greater m y) z), (IH y z).
  apply keep_greater_assoc.
Qed.

Lemma peak_of_cons (m : IntensityRecord) (rest : list IntensityRecord) :
  peak_of (m :: rest)
  = Some (match peak_of rest with
          | Some h => keep_greater m h
          | None => m
          end).
Proof.
  destruct rest as [|y rest]; [done|].
  unfold peak_of. fold keep_greater. by rewrite first_max_cons.
Qed.

Lemma head_place (x : IntensityRecord) (l : list IntensityRecord) :
  head (py.place ir_intensity true x l)
  = Some (match head l with
          | Some h => keep_greater x h
          | None => x
          end).
Proof.
  destruct l as [|y l]; [done|]. simpl. unfold keep_greater.
  by destruct (py.Qltb (ir_intensity x) (ir_intensity y)).
Qed.

Lemma head_sorted_is_peak (analyzed : list IntensityRecord) :
  head (py.sorted analyzed ir_intensity true) = peak_of analyzed.
Proof.
  induction analyzed as [|m rest IH]; [done|].
  rewrite peak_of_cons, <- IH. unfold py.sorted. simpl. apply head_place.
Qed.

(** X8: [get_peak_moments] returns the [top_n] most intense records, most
    intense first: the result and the records left out together are the
    input, nothing left out is more intense than anything returned, and for
    [top_n >= 0] the result has [min(top_n, len(analyzed))] records. *)
Theorem get_peak_moments_top (analyzed : list IntensityRecord) (top_n : Z) :
  let top := get_peak_moments analyzed top_n in
  (∃ rest, top ++ rest ≡ₚ analyzed
           ∧ ∀ a b, a ∈ top → b ∈ rest → ir_intensity b <= ir_intensity a)
  ∧ (∀ i j a b, (i < j)%nat → top !! i = Some a → top !! j = Some b →
                ir_intensity b <= ir_intensity a)
  ∧ ((0 ≤ top_n)%Z → length top = Z.to_nat top_n `min` length analyzed).
Proof.
  intros top. subst top. unfold get_peak_moments.
  pose proof (sorted_sorted ir_intensity true analyzed) as Hs.
  pose proof (sorted_perm ir_intensity true analyzed) as Hp.
  destruct (slice_to_prefix (py.sorted analyzed ir_intensity true) top_n)
    as [rest Hrest].
  set (top := py.slice_to _ top_n) in *.
  rewrite Hrest in Hs, Hp. split_and!.
  - exists rest. split; [done|]. intros a b Ha Hb.
    by apply (StronglySorted_app_1_elem_of _ _ _ a b Hs).
  - apply StronglySorted_app_1_l in Hs.
    intros i j a b Hij Ha Hb.
    by apply (StronglySorted_lookup _ _ Hs i j a b).
  - intros Hn. subst top. rewrite slice_to_length by done.
    by rewrite (Permutation_length (sorted_perm ir_intensity true analyzed)).
Qed.

(** X9: the first of the peak moments is the record the summary takes as
    its peak: among equally intense records both pick the earliest one. *)
Theorem first_peak_moment_is_summary_peak
    (analyzed : list IntensityRecord) (top_n : Z) :
  (0 < top_n)%Z →
  head (get_peak_moments analyzed top_n) = peak_of analyzed.
Proof.
  intros Hn. unfold get_peak_moments.
  rewrite slice_to_head by done. apply head_sorted_is_peak.
Qed.

End moments.

(** ** Records and labels *)

Section records.
Import re information_extraction sentiment_analyzer spec spec_ext.
Local Open Scope Q_scope.

Lemma for_loop_collect_inv {A B} (f : A → py.result B)
    (xs : list A) (acc out : list B) :
  py.for_loop (λ results x, y ← f x; mret (results ++ [y])) xs acc = py.Ok out →
  ∃ ys, out = acc ++ ys ∧ Forall2 (λ x y, f x = py.Ok y) xs ys.
Proof.
  revert acc. induction xs as [|x xs IH]; intros acc; simpl.
  - intros [= <-]. exists []. by rewrite app_nil_r.
  - cbn [mbind result_bind]. destruct (f x) as [y|k] eqn:E; simpl; [|done].
    intros H. destruct (IH _ H) as (ys & -> & Hys).
    exists (y :: ys). rewrite <- app_assoc. split; [done|]. by constructor.
Qed.

Lemma analyze_segment_record (nlp : option Language)
    (volume_lookup : gmap Qc Q) (segment : Segment) (r : IntensityRecord) :
  analyze_segment nlp volume_lookup segment = py.Ok r →
  record_of volume_lookup segment r.
Proof.
  unfold analyze_segment, record_of. cbv zeta.
  set (text := py.get (seg_text segment) EmptyString).
  set (volume_score := py.get (volume_lookup !! _) 0).
  destruct (calculate_intensity_bounds nlp text) as (ti & Hti & Hb).
  rewrite (calculate_intensity_with_volume_eq _ _ volume_score _ Hti), Hti.
  destruct (analysis_signals nlp text) as (e & t & h & -> & -> & -> & _ & _).
  cbn [mbind result_bind py.bind].
  destruct (py.getitem (analyze_with_spacy nlp text) "word_count") as [w|k];
    [|by destruct (py.Qltb 0 volume_score)].
  destruct (py.Qltb 0 volume_score) eqn:Ev; simpl; intros [= <-]; simpl;
    (split_and!; [done | done | done | by eexists | done |]).
  - intros Hv. apply Qltb_lt in Ev. apply round_unit_interval.
    destruct (weighted_unit ti volume_score) as [H0 H1]; [done | lra|].
    destruct (_ && _); [apply Qmin_bounds; by apply bonus_nonneg | done].
  - done.
Qed.

Lemma analyze_sentiment_inv (nlp : option Language) (segments : list Segment)
    (segments_with_volume : option (list SegmentWithVolume))
    (records : list IntensityRecord) :
  analyze_sentiment nlp segments segments_with_volume = py.Ok records →
  Forall2 (record_of (build_volume_lookup segments_with_volume))
    segments records.
Proof.
  unfold analyze_sentiment. intros H.
  apply for_loop_collect_inv in H as (ys & -> & Hys). simpl.
  eapply Forall2_impl; [exact Hys|].
  intros seg r. apply analyze_segment_record.
Qed.

End records.

Section labels.
Import sentiment_analyzer spec spec_ext.
Local Open Scope Q_scope.




End labels.

(** ** Summary *)

Section summary.
Import re information_extraction sentiment_analyzer spec spec_ext.
Local Open Scope Q_scope.

Lemma increment_cases (d : gmap string Z) (k : string) :
  match d !! k with
  | Some n => increment d k = py.Ok (<[ k := (n + 1)%Z ]> d)
  | None => increment d k = py.KeyError k
  end.
Proof. unfold increment, py.getitem. by destruct (d !! k). Qed.

Lemma count_label_cons (label_of : IntensityRecord → string) (label : string)
    (m : IntensityRecord) (analyzed : list IntensityRecord) :
  count_label label_of label (m :: analyzed)
  = ((if String.eqb (label_of m) label then 1 else 0)
     + count_label label_of label analyzed)%Z.
Proof.
  unfold count_label. simpl. destruct (String.eqb _ _); simpl; lia.
Qed.

(** One counter through the loop: each key present at the start ends with
    its start value plus the number of records carrying it. *)
Lemma counted_insert (label_of : IntensityRecord → string)
    (d d' : gmap string Z) (m : IntensityRecord)
    (analyzed : list IntensityRecord) (n : Z) :
  d !! label_of m = Some n →
  (∀ k, d' !! k = (λ c, c + count_label label_of k analyzed)%Z
                  <$> <[ label_of m := (n + 1)%Z ]> d !! k) →
  ∀ k, d' !! k = (λ c, c + count_label label_of k (m :: analyzed))%Z <$> d !! k.
Proof.
  intros Hn H k. rewrite H, count_label_cons.
  destruct (String.eqb_spec (label_of m) k) as [<-|Hne].
  - rewrite lookup_insert_eq, Hn. simpl. f_equal. lia.
  - rewrite lookup_insert_ne by done. destruct (d !! k); simpl; [f_equal; lia|done].
Qed.

Lemma tally_loop (analyzed : list IntensityRecord)
    (moods sentiments : gmap string Z) :
  Forall (λ m, is_Some (moods !! ir_mood m)
               ∧ is_Some (sentiments !! sentiment_of m)) analyzed →
  ∃ moods' sentiments',
    py.for_loop tally analyzed (moods, sentiments)
    = py.Ok (moods', sentiments')
    ∧ (∀ k, moods' !! k
            = (λ c, c + count_label ir_mood k analyzed)%Z <$> moods !! k)
    ∧ (∀ k, sentiments' !! k
            = (λ c, c + count_label sentiment_of k analyzed)%Z
              <$> sentiments !! k).
Proof.
  revert moods sentiments.
  induction analyzed as [|m analyzed IH]; intros moods sentiments H.
  - exists moods, sentiments. split; [done|].
    split; intros k; unfold count_label; simpl;
      (destruct (_ !! k); simpl; [f_equal; lia | done]).
  - apply Forall_cons_1 in H as [[[n Hn] [c Hc]] H].
    pose proof (increment_cases moods (ir_mood m)) as Hm. rewrite Hn in Hm.
    pose proof (increment_cases sentiments (sentiment_of m)) as Hs.
    rewrite Hc in Hs.
    assert (Ht : tally (moods, sentiments) m
                 = py.Ok (<[ir_mood m:=(n + 1)%Z]> moods,
                          <[sentiment_of m:=(c + 1)%Z]> sentiments)).
    { unfold tally. cbn [fst snd]. fold (sentiment_of m). rewrite Hm.
      cbn [mbind result_bind py.bind]. by rewrite Hs. }
    cbn [py.for_loop]. rewrite Ht. cbn [py.bind].
    destruct (IH (<[ir_mood m:=(n + 1)%Z]> moods)
                 (<[sentiment_of m:=(c + 1)%Z]> sentiments))
      as (moods' & sentiments' & -> & Hmoods & Hsents).
    { eapply Forall_impl; [exact H|]. simpl. intros x [Hx1 Hx2].
      split; by apply lookup_insert_is_Some'; right. }
    exists moods', sentiments'. split; [done|]. split.
    + by apply (counted_insert ir_mood moods _ m analyzed n).
    + by apply (counted_insert sentiment_of sentiments _ m analyzed c).
Qed.

Lemma initial_moods_lookup (k : string) :
  initial_moods !! k = if bool_decide (k ∈ MOODS) then Some 0%Z else None.
Proof.
  unfold initial_moods, MOODS. case_bool_decide as H.
  - set_unfold. destruct H as [->|[->|[->|[]]]]; reflexivity.
  - set_unfold. rewrite !lookup_insert_ne by naive_solver.
    apply lookup_singleton_ne. naive_solver.
Qed.

Lemma initial_sentiments_lookup (k : string) :
  initial_sentiments !! k
  = if bool_decide (k ∈ SENTIMENTS) then Some 0%Z else None.
Proof.
  unfold initial_sentiments, SENTIMENTS. case_bool_decide as H.
  - set_unfold. destruct H as [->|[->|[->|[->|[->|[]]]]]]; reflexivity.
  - set_unfold. rewrite !lookup_insert_ne by naive_solver.
    apply lookup_singleton_ne. naive_solver.
Qed.

Lemma labelled_counted (analyzed : list IntensityRecord) :
  Forall labelled analyzed →
  ∃ moods' sentiments',
    py.for_loop tally analyzed (initial_moods, initial_sentiments)
    = py.Ok (moods', sentiments')
    ∧ (∀ k, moods' !! k
            = if bool_decide (k ∈ MOODS)
              then Some (count_label ir_mood k analyzed) else None)
    ∧ (∀ k, sentiments' !! k
            = if bool_decide (k ∈ SENTIMENTS)
              then Some (count_label sentiment_of k analyzed) else None).
Proof.
  intros H.
  destruct (tally_loop analyzed initial_moods initial_sentiments)
    as (moods' & sentiments' & Hloop & Hm & Hs).
  { eapply Forall_impl; [exact H|]. simpl. intros m [H1 H2].
    rewrite initial_moods_lookup, initial_sentiments_lookup.
    rewrite !bool_decide_eq_true_2 by done. split; by eexists. }
  exists moods', sentiments'. split; [done|]. split; intros k.
  - rewrite Hm, initial_moods_lookup. by case_bool_decide.
  - rewrite Hs, initial_sentiments_lookup. by case_bool_decide.
Qed.

(** The value returned once the counting loop has returned. *)
Lemma summary_after_loop (analyzed : list IntensityRecord)
    (moods' sentiments' : gmap string Z) (exciting : Z) :
  py.for_loop tally analyzed (initial_moods, initial_sentiments)
  = py.Ok (moods', sentiments') →
  moods' !! "exciting" = Some exciting →
  get_intensity_summary analyzed
  = py.Ok
      {| average_intensity :=
           py.round (if (0 <? len analyzed)%Z
                     then py.fdiv (total_intensity analyzed)
                            (inject_Z (len analyzed))
                     else 0) 2;
         peak_intensity :=
           match peak_of analyzed with
           | Some peak => py.round (ir_intensity peak) 2
           | None => 0
           end;
         peak_moment_time :=
           match peak_of analyzed with
           | Some peak => ir_time peak
           | None => 0
           end;
         mood_distribution := moods';
         sentiment_distribution := sentiments';
         total_segments := len analyzed;
         exciting_percentage :=
           if (0 <? len analyzed)%Z
           then py.round
                  (py.fmul
                     (py.fdiv (inject_Z exciting) (inject_Z (len analyzed)))
                     100) 1
           else 0 |}.
Proof.
  intros Hloop He. unfold get_intensity_summary. cbv zeta.
  fold initial_moods initial_sentiments. rewrite Hloop.
  cbn [mbind result_bind py.bind fst snd].
  unfold py.getitem. rewrite He.
  by destruct (0 <? len analyzed)%Z.
Qed.

Lemma mood_counts_total (analyzed : list IntensityRecord) :
  Forall labelled analyzed →
  (count_label ir_mood "exciting" analyzed
   + count_label ir_mood "moderate" analyzed
   + count_label ir_mood "calm" analyzed = len analyzed)%Z.
Proof.
  induction 1 as [|m analyzed [Hm _] _ IH]; [done|].
  rewrite !count_label_cons. unfold len in *. simpl length.
  unfold MOODS in Hm. set_unfold.
  destruct Hm as [->|[->|[->|[]]]]; simpl; lia.
Qed.

(** X12: for records whose mood and sentiment are among the known labels,
    the summary returns; it counts every record once, each counter holds the
    number of records with that label, and the three mood counters add up
    to [total_segments]. *)
Theorem summary_counts_every_record (analyzed : list IntensityRecord) :
  Forall labelled analyzed →
  ∃ s, get_intensity_summary analyzed = py.Ok s
       ∧ total_segments s = len analyzed
       ∧ (∀ label, label ∈ MOODS →
            mood_distribution s !! label
            = Some (count_label ir_mood label analyzed))
       ∧ (∀ label, label ∈ SENTIMENTS →
            sentiment_distribution s !! label
            = Some (count_label sentiment_of label analyzed))
       ∧ (∃ e m c, mood_distribution s !! "exciting" = Some e
                   ∧ mood_distribution s !! "moderate" = Some m
                   ∧ mood_distribution s !! "calm" = Some c
                   ∧ (e + m + c)%Z = total_segments s).
Proof.
  intros H.
  destruct (labelled_counted analyzed H) as (moods' & sents' & Hloop & Hm & Hs).
  rewrite (summary_after_loop analyzed moods' sents'
             (count_label ir_mood "exciting" analyzed) Hloop)
    by (by rewrite Hm).
  eexists. split; [done|]. simpl. split_and!; [done | | |].
  - intros label Hl. by rewrite Hm, bool_decide_eq_true_2.
  - intros label Hl. by rewrite Hs, bool_decide_eq_true_2.
  - do 3 eexists.
    rewrite !Hm. split_and!; [done | done | done |].
    by apply mood_counts_total.
Qed.

Lemma for_loop_app {S A} (body : S → A → py.result S) (xs ys : list A) (s : S) :
  py.for_loop body (xs ++ ys) s
  = py.bind (py.for_loop body xs s) (py.for_loop body ys).
Proof.
  revert s. induction xs as [|x xs IH]; intros s; simpl; [done|].
  destruct (body s x); simpl; [apply IH | done].
Qed.

(** X13: a record whose mood (or, the mood being known, whose sentiment)
    is not a key of the counters makes the summary raise [KeyError] with
    that label, wherever the record stands among labelled ones. *)
Theorem summary_unknown_label_raises
    (pre post : list IntensityRecord) (m : IntensityRecord) :
  Forall labelled pre →
  ¬ labelled m →
  get_intensity_summary (pre ++ m :: post)
  = py.KeyError (if bool_decide (ir_mood m ∈ MOODS)
                 then sentiment_of m else ir_mood m).
Proof.
  intros Hpre Hm.
  destruct (labelled_counted pre Hpre) as (moods' & sents' & Hloop & Hmd & Hsd).
  unfold get_intensity_summary. cbv zeta.
  fold initial_moods initial_sentiments.
  rewrite for_loop_app, Hloop. cbn [py.bind py.for_loop].
  assert (Ht : tally (moods', sents') m
               = py.KeyError (if bool_decide (ir_mood m ∈ MOODS)
                              then sentiment_of m else ir_mood m));
    [|by rewrite Ht].
  unfold tally. cbn [fst snd]. fold (sentiment_of m).
  pose proof (increment_cases moods' (ir_mood m)) as Hi.
  rewrite Hmd in Hi. case_bool_decide as Hmood.
  - rewrite Hi. cbn [mbind result_bind py.bind].
    pose proof (increment_cases sents' (sentiment_of m)) as Hj.
    rewrite Hsd in Hj. rewrite bool_decide_eq_false_2 in Hj; [by rewrite Hj|].
    intros Hs. by apply Hm.
  - by rewrite Hi.
Qed.

Lemma keep_greater_cases (best x : IntensityRecord) :
  let k := if py.Qltb (ir_intensity best) (ir_intensity x) then x else best in
  (k = best ∨ k = x)
  ∧ ir_intensity best <= ir_intensity k ∧ ir_intensity x <= ir_intensity k.
Proof.
  simpl. destruct (py.Qltb _ _) eqn:E.
  - apply Qltb_lt in E. split; [by right|]. lra.
  - apply Qltb_ge in E. split; [by left|]. lra.
Qed.

Lemma running_max (rest : list IntensityRecord) (m : IntensityRecord) :
  let best := fold_left
                (λ best x, if py.Qltb (ir_intensity best) (ir_intensity x)
                           then x else best) rest m in
  best ∈ m :: rest ∧ ∀ x, x ∈ m :: rest → ir_intensity x <= ir_intensity best.
Proof.
  revert m. induction rest as [|y rest IH]; intros m; simpl.
  - split; [by left|]. intros x ->%list_elem_of_singleton. lra.
  - destruct (keep_greater_cases m y) as (Hk & Hm & Hy). simpl in *.
    destruct (IH (if py.Qltb (ir_intensity m) (ir_intensity y) then y else m))
      as [Hin Hmax]. simpl in *.
    split.
    + apply elem_of_cons in Hin as [Hin|Hin].
      * rewrite Hin. destruct Hk as [->| ->]; [by left | right; by left].
      * right. by right.
    + intros x Hx.
      assert (Hk' := Hmax _ (list_elem_of_here _ _)).
      apply elem_of_cons in Hx as [->|Hx]; [lra|].
      apply elem_of_cons in Hx as [->|Hx]; [lra|].
      apply Hmax. by right.
Qed.

Lemma peak_of_greatest (analyzed : list IntensityRecord) :
  analyzed ≠ [] →
  ∃ peak, peak_of analyzed = Some peak
          ∧ peak ∈ analyzed
          ∧ ∀ x, x ∈ analyzed → ir_intensity x <= ir_intensity peak.
Proof.
  destruct analyzed as [|m rest]; [done|]. intros _.
  eexists. split; [done|]. apply running_max.
Qed.

(** X14: the summary's peak is the greatest intensity: for a non-empty
    list of labelled records, [peak_intensity] is the two-decimal rounding of
    an intensity that no record exceeds, [peak_moment_time] is the time of a
    record that has it, and no record's two-decimal intensity is above
    [peak_intensity]. *)
Theorem summary_peak_is_greatest (analyzed : list IntensityRecord) :
  Forall labelled analyzed →
  analyzed ≠ [] →
  ∃ s peak,
    get_intensity_summary analyzed = py.Ok s
    ∧ peak ∈ analyzed
    ∧ (∀ x, x ∈ analyzed → ir_intensity x <= ir_intensity peak)
    ∧ peak_intensity s = py.round (ir_intensity peak) 2
    ∧ peak_moment_time s = ir_time peak
    ∧ ∀ x, x ∈ analyzed → py.round (ir_intensity x) 2 <= peak_intensity s.
Proof.
  intros H Hne.
  destruct (labelled_counted analyzed H) as (moods' & sents' & Hloop & Hm & Hs).
  destruct (peak_of_greatest analyzed Hne) as (peak & Hpeak & Hin & Hmax).
  rewrite (summary_after_loop analyzed moods' sents'
             (count_label ir_mood "exciting" analyzed) Hloop)
    by (by rewrite Hm).
  rewrite Hpeak. eexists _, peak. split; [done|]. simpl.
  split_and!; [done | done | done | done |].
  intros x Hx. apply round_monotone. by apply Hmax.
Qed.

End summary.

(** ** Analysis, moments and summary together *)

Section composition.
Import re information_extraction sentiment_analyzer spec spec_ext.
Local Open Scope Q_scope.

(** X10: every record [analyze_sentiment] returns belongs to the segment
    at its position: one record per segment, carrying the segment's start
    time (0 when missing) and stripped text, a mood and a sentiment computed
    from the stored intensity, the looked-up volume as [audio_features]
    exactly when it is positive, and an intensity in [0,1] whenever that
    volume is at most 1. *)
Theorem analyze_sentiment_records (nlp : option Language)
    (segments : list Segment)
    (segments_with_volume : option (list SegmentWithVolume))
    (records : list IntensityRecord) :
  analyze_sentiment nlp segments segments_with_volume = py.Ok records →
  length records = length segments
  ∧ Forall2 (record_of (build_volume_lookup segments_with_volume))
      segments records.
Proof.
  intros H. apply analyze_sentiment_inv in H.
  split; [by apply Forall2_length in H | done].
Qed.

Lemma analyze_sentiment_records_witness :
  length sample_records = length sample_segments
  ∧ Forall2 (record_of (build_volume_lookup (Some sample_volumes)))
      sample_segments sample_records.
Proof.
  apply (analyze_sentiment_records (Some seven_words) sample_segments
           (Some sample_volumes) sample_records).
  reflexivity.
Defined.

Lemma classify_exciting (i : Q) :
  String.eqb (classify_moment i) "exciting" = Qle_bool 0.6 i.
Proof.
  unfold classify_moment. destruct (Qle_bool 0.6 i); [done|].
  by destruct (Qle_bool 0.3 i).
Qed.

Lemma sentiment_excited_label (i t : Q) :
  py.contains ["very_exciting"; "exciting"; "tense"] (get_sentiment_label i t)
  = Qle_bool 0.5 i.
Proof.
  unfold get_sentiment_label.
  destruct (Qle_bool 0.7 i) eqn:E7.
  - apply Qle_bool_iff in E7. symmetry. apply Qle_bool_iff. lra.
  - destruct (Qle_bool 0.5 i); [by destruct (py.Qltb 0.3 t)|].
    by destruct (Qle_bool 0.3 i).
Qed.

(** X11: on the records [analyze_sentiment] returns, the moments at or
    above 0.6 are exactly the records whose mood is exciting, and the
    moments at or above the default 0.5 are exactly those whose sentiment is
    very_exciting, exciting or tense. *)
Theorem exciting_moments_match_labels (nlp : option Language)
    (segments : list Segment)
    (segments_with_volume : option (list SegmentWithVolume))
    (records : list IntensityRecord) :
  analyze_sentiment nlp segments segments_with_volume = py.Ok records →
  get_exciting_moments records 0.6 = List.filter is_exciting records
  ∧ get_exciting_moments records 0.5 = List.filter sentiment_excited records.
Proof.
  intros H. apply analyze_sentiment_inv in H.
  unfold get_exciting_moments.
  induction H as [|seg r segs recs (_ & _ & Hmood & [t Hsent] & _) _ [IH1 IH2]];
    [done|].
  simpl. rewrite IH1, IH2. unfold is_exciting, sentiment_excited.
  rewrite Hmood, Hsent. simpl py.get.
  by rewrite classify_exciting, sentiment_excited_label.
Qed.

Lemma exciting_moments_match_labels_witness :
  get_exciting_moments sample_records 0.6
  = List.filter is_exciting sample_records
  ∧ get_exciting_moments sample_records 0.5
    = List.filter sentiment_excited sample_records.
Proof.
  apply (exciting_moments_match_labels (Some seven_words) sample_segments
           (Some sample_volumes) sample_records).
  reflexivity.
Defined.

Lemma classify_moment_label (i : Q) : classify_moment i ∈ MOODS.
Proof.
  unfold classify_moment, MOODS.
  destruct (Qle_bool 0.6 i); [set_solver|].
  destruct (Qle_bool 0.3 i); set_solver.
Qed.

Lemma get_sentiment_label_label (i t : Q) : get_sentiment_label i t ∈ SENTIMENTS.
Proof.
  unfold get_sentiment_label, SENTIMENTS.
  destruct (Qle_bool 0.7 i); [set_solver|].
  destruct (Qle_bool 0.5 i); [destruct (py.Qltb 0.3 t); set_solver|].
  destruct (Qle_bool 0.3 i); set_solver.
Qed.

Lemma analyzed_records_labelled (volume_lookup : gmap Qc Q)
    (segments : list Segment) (records : list IntensityRecord) :
  Forall2 (record_of volume_lookup) segments records →
  Forall labelled records.
Proof.
  induction 1 as [|seg r segs recs (_ & _ & Hmood & [t Hsent] & _) _ IH];
    constructor; [|done].
  split.
  - rewrite Hmood. apply classify_moment_label.
  - unfold sentiment_of. rewrite Hsent. apply get_sentiment_label_label.
Qed.

(** X16: the summary of what [analyze_sentiment] returned never raises,
    and its [total_segments] is the number of segments analysed. *)
Theorem summary_of_analysis_returns (nlp : option Language)
    (segments : list Segment)
    (segments_with_volume : option (list SegmentWithVolume))
    (records : list IntensityRecord) :
  analyze_sentiment nlp segments segments_with_volume = py.Ok records →
  ∃ s, get_intensity_summary records = py.Ok s
       ∧ total_segments s = len segments.
Proof.
  intros H. apply analyze_sentiment_inv in H.
  pose proof (analyzed_records_labelled _ _ _ H) as Hl.
  destruct (labelled_counted records Hl) as (moods' & sents' & Hloop & Hm & Hs).
  rewrite (summary_after_loop records moods' sents'
             (count_label ir_mood "exciting" records) Hloop)
    by (by rewrite Hm).
  eexists. split; [done|]. simpl. unfold len.
  by rewrite (Forall2_length _ _ _ H).
Qed.

Lemma summary_of_analysis_returns_witness :
  ∃ s, get_intensity_summary sample_records = py.Ok s
       ∧ total_segments s = len sample_segments.
Proof.
  apply (summary_of_analysis_returns (Some seven_words) sample_segments
           (Some sample_volumes) sample_records).
  reflexivity.
Defined.

End composition.

(** ** Volume *)

Section volume.
Import re information_extraction sentiment_analyzer spec spec_ext.
Local Open Scope Q_scope.

(** X17: a louder segment is never rated lower: with the text fixed, the
    fused intensity does not decrease when the volume score grows. *)
Theorem fused_intensity_monotone_in_volume (nlp : option Language)
    (text : string) (v1 v2 : Q) :
  v1 <= v2 →
  ∃ i1 i2,
    calculate_intensity_with_volume nlp text v1 = py.Ok i1
    ∧ calculate_intensity_with_volume nlp text v2 = py.Ok i2
    ∧ i1 <= i2.
Proof.
  intros Hv.
  destruct (calculate_intensity_bounds nlp text) as (ti & Hti & Hb).
  rewrite !(calculate_intensity_with_volume_eq _ _ _ _ Hti).
  do 2 eexists. split; [done|]. split; [done|].
  apply round_monotone.
  pose proof (weighted_monotone ti v1 v2 Hv) as Hw.
  destruct fusion_literals as (_ & _ & H1 & _).
  assert (Hb1 : py.fadd (weighted ti v1) (py.float 0.1)
                <= py.fadd (weighted ti v2) (py.float 0.1))
    by (apply float_monotone; lra).
  assert (Hb2 : weighted ti v2 <= py.fadd (weighted ti v2) (py.float 0.1))
    by (apply float_ge_double; [apply weighted_double | lra]).
  destruct (py.Qltb 0.5 ti) eqn:Et; simpl; [|done].
  destruct (py.Qltb 0.5 v1) eqn:E1; destruct (py.Qltb 0.5 v2) eqn:E2;
    rewrite ?Qltb_lt, ?Qltb_ge in *.
  - destruct (Qmin_cases (py.fadd (weighted ti v1) (py.float 0.1)) 1)
      as [[? ->]|[? ->]];
    destruct (Qmin_cases (py.fadd (weighted ti v2) (py.float 0.1)) 1)
      as [[? ->]|[? ->]]; lra.
  - lra.
  - assert (weighted ti v1 <= 1) by (apply weighted_le_one; lra).
    destruct (Qmin_cases (py.fadd (weighted ti v2) (py.float 0.1)) 1)
      as [[? ->]|[? ->]]; lra.
  - done.
Qed.

Lemma fused_intensity_monotone_in_volume_witness :
  ∃ i1 i2,
    calculate_intensity_with_volume None "What a save!" 0.3 = py.Ok i1
    ∧ calculate_intensity_with_volume None "What a save!" 0.8 = py.Ok i2
    ∧ i1 <= i2.
Proof.
  apply (fused_intensity_monotone_in_volume None "What a save!" 0.3 0.8).
  vm_compute. discriminate.
Defined.

Lemma lookup_loop (segs : list SegmentWithVolume) (lookup : gmap Qc Q) (k : Qc) :
  fold_left (λ volume_lookup seg,
               <[ time_key (py.get (sv_start seg) 0) :=
                    py.get (sv_volume_score seg) 0 ]> volume_lookup)
    segs lookup !! k
  = match last (List.filter (λ seg, bool_decide (key_of seg = k)) segs) with
    | Some seg => Some (volume_of seg)
    | None => lookup !! k
    end.
Proof.
  revert lookup. induction segs as [|seg segs IH]; intros lookup; [done|].
  simpl. rewrite IH. fold (key_of seg) (volume_of seg).
  case_bool_decide as Hk.
  - destruct (List.filter _ segs) as [|s l] eqn:E; simpl.
    + by rewrite Hk, lookup_insert_eq.
    + destruct (last (s :: l)) eqn:El; [done|]. by apply last_None in El.
  - destruct (last _); [done|]. by rewrite lookup_insert_ne.
Qed.

(** X18: the volume lookup keeps, for each rounded start time, the volume
    of the last segment stored under it: earlier segments with the same
    rounded start are overwritten, and a key no segment rounds to is
    absent. *)
Theorem volume_lookup_last_wins
    (segments_with_volume : list SegmentWithVolume) (k : Qc) :
  build_volume_lookup (Some segments_with_volume) !! k
  = volume_of
      <$> last (List.filter (λ seg, bool_decide (key_of seg = k))
                  segments_with_volume).
Proof.
  unfold build_volume_lookup. rewrite lookup_loop.
  by destruct (last _).
Qed.

End volume.

(** ** Case of the text *)

Section case_blind.
Import re sentiment_analyzer spec_ext.

Lemma lower_char_idempotent (c : ascii) :
  py.lower_char (py.lower_char c) = py.lower_char c.
Proof. by destruct c as [[] [] [] [] [] [] [] []]. Qed.

Lemma upper_lower_char (c : ascii) :
  py.upper_char (py.lower_char c) = py.upper_char c.
Proof. by destruct c as [[] [] [] [] [] [] [] []]. Qed.

Lemma lower_or_upper (c : ascii) :
  c = py.lower_char c ∨ c = py.upper_char c.
Proof. destruct c as [[] [] [] [] [] [] [] []]; (by left) || (by right). Qed.

Lemma is_word_lower (c : ascii) : is_word (py.lower_char c) = is_word c.
Proof. by destruct c as [[] [] [] [] [] [] [] []]. Qed.

Lemma atom_match_lower (a : atom) (c : ascii) :
  atom_match true a (py.lower_char c) = atom_match true a c.
Proof.
  destruct a as [x|lo hi]; simpl.
  - by rewrite lower_char_idempotent.
  - rewrite lower_char_idempotent, upper_lower_char.
    destruct (lower_or_upper c) as [H|H]; rewrite H at 4;
      destruct (py.between lo hi (py.lower_char c));
      destruct (py.between lo hi (py.upper_char c)); done.
Qed.

Lemma word_boundary_lower (prev : option ascii) (s : list ascii) :
  word_boundary (py.lower_char <$> prev) (lower_list s) = word_boundary prev s.
Proof.
  unfold word_boundary. f_equal.
  - destruct prev; simpl; [apply is_word_lower | done].
  - destruct s; simpl; [done | apply is_word_lower].
Qed.

Lemma atleast_lower (a : atom) (n : nat) (prev : option ascii)
    (s : list ascii) (k k' : option ascii → list ascii → bool) :
  case_blind k k' →
  atleast true a n (py.lower_char <$> prev) (lower_list s) k'
  = atleast true a n prev s k.
Proof.
  intros Hk. revert n prev. induction s as [|c s IH]; intros n prev.
  - destruct n; simpl; [apply (Hk prev []) | done].
  - destruct n; simpl.
    + rewrite atom_match_lower.
      pose proof (IH 0%nat (Some c)) as H. simpl in H. rewrite H.
      f_equal. apply (Hk prev (c :: s)).
    + rewrite atom_match_lower.
      pose proof (IH n (Some c)) as H. simpl in H. by rewrite H.
Qed.

Lemma matches_lower (r : regex) (prev : option ascii) (s : list ascii)
    (k k' : option ascii → list ascii → bool) :
  case_blind k k' →
  matches true r (py.lower_char <$> prev) (lower_list s) k'
  = matches true r prev s k.
Proof.
  revert prev s k k'.
  induction r as [|a|r1 IH1 r2 IH2|r1 IH1 r2 IH2|r IH|n a| |];
    intros prev s k k' Hk; simpl.
  - apply Hk.
  - destruct s as [|c s]; simpl; [done|].
    rewrite atom_match_lower. f_equal. apply (Hk (Some c) s).
  - apply IH1. intros p t. by apply IH2.
  - by rewrite (IH1 _ _ k k'), (IH2 _ _ k k').
  - rewrite (IH _ _ k k') by done. f_equal. apply Hk.
  - by apply atleast_lower.
  - rewrite word_boundary_lower. f_equal. apply Hk.
  - done.
Qed.

Lemma search_from_eq (ignorecase : bool) (r : regex) (prev : option ascii)
    (s : list ascii) :
  search_from ignorecase r prev s
  = matches ignorecase r prev s (λ _ _, true)
    || match s with
       | c :: s' => search_from ignorecase r (Some c) s'
       | [] => false
       end.
Proof. by destruct s. Qed.

Lemma search_from_lower (r : regex) (prev : option ascii) (s : list ascii) :
  search_from true r (py.lower_char <$> prev) (lower_list s)
  = search_from true r prev s.
Proof.
  revert prev. induction s as [|c s IH]; intros prev;
    rewrite (search_from_eq true r prev), search_from_eq;
    rewrite (matches_lower r prev _ (λ _ _, true) (λ _ _, true)) by done.
  - done.
  - f_equal. apply (IH (Some c)).
Qed.

Lemma search_lower (r : regex) (text : string) :
  search r (py.lower text) true = search r text true.
Proof.
  unfold search, py.lower. rewrite list_ascii_of_string_of_list_ascii.
  apply (search_from_lower r None).
Qed.

(** X19: the pattern bonuses are blind to case: two texts that differ
    only in the case of their letters earn the same high and medium pattern
    bonuses, so no pattern can tell a shouted text from a quiet one. *)
Theorem pattern_bonus_case_blind (patterns : list regex)
    (text1 text2 : string) (bonus score : Q) :
  py.lower text1 = py.lower text2 →
  add_pattern_bonus patterns text1 bonus score
  = add_pattern_bonus patterns text2 bonus score.
Proof.
  intros H. unfold add_pattern_bonus. revert score.
  induction patterns as [|p ps IH]; intros score; simpl; [done|].
  rewrite <- (search_lower p text1), <- (search_lower p text2), H.
  apply IH.
Qed.

Lemma pattern_bonus_case_blind_witness :
  add_pattern_bonus [AtLeast 3 (Range "A" "Z")] "GOAL by Kane" 0.2 0
  = add_pattern_bonus [AtLeast 3 (Range "A" "Z")] "goal by kane" 0.2 0.
Proof.
  apply (pattern_bonus_case_blind [AtLeast 3 (Range "A" "Z")]
           "GOAL by Kane" "goal by kane" 0.2 0).
  reflexivity.
Defined.

End case_blind.

(** ** Linguistic signals *)

Section signals.
Import sentiment_analyzer spec spec_ext.
Local Open Scope Q_scope.

Lemma len_filter_cons {A} (p : A → bool) (x : A) (l : list A) :
  len (List.filter p (x :: l))
  = ((if p x then 1 else 0) + len (List.filter p l))%Z.
Proof. unfold len. simpl. destruct (p x); simpl length; lia. Qed.

Lemma count_token_fold (doc : list Token) (c : Counts) :
  fold_left count_token doc c
  = {| excitement_count :=
         excitement_count c + len (List.filter (in_vocabulary EXCITEMENT_LEMMAS) doc);
       tension_count :=
         tension_count c + len (List.filter (in_vocabulary TENSION_LEMMAS) doc);
       intensifier_count :=
         intensifier_count c + len (List.filter (in_vocabulary INTENSIFIERS) doc);
       has_negation :=
         has_negation c || existsb (in_vocabulary NEGATIONS) doc |}.
Proof.
  revert c. induction doc as [|token doc IH]; intros c.
  - destruct c. unfold len. simpl. f_equal; try lia. by rewrite orb_false_r.
  - cbn [fold_left]. rewrite IH, !len_filter_cons.
    unfold count_token.
    cbn [excitement_count tension_count intensifier_count has_negation existsb].
    change (py.contains EXCITEMENT_LEMMAS (py.lower (lemma_ token)))
      with (in_vocabulary EXCITEMENT_LEMMAS token).
    change (py.contains TENSION_LEMMAS (py.lower (lemma_ token)))
      with (in_vocabulary TENSION_LEMMAS token).
    change (py.contains INTENSIFIERS (py.lower (lemma_ token)))
      with (in_vocabulary INTENSIFIERS token).
    change (py.contains NEGATIONS (py.lower (lemma_ token)))
      with (in_vocabulary NEGATIONS token).
    f_equal.
    + destruct (in_vocabulary EXCITEMENT_LEMMAS token); lia.
    + destruct (in_vocabulary TENSION_LEMMAS token); lia.
    + destruct (in_vocabulary INTENSIFIERS token); lia.
    + destruct (in_vocabulary NEGATIONS token); [by rewrite orb_true_r | done].
Qed.

Lemma filter_positive {A} (p : A → bool) (l : list A) :
  (0 <? len (List.filter p l))%Z = existsb p l.
Proof.
  unfold len. induction l as [|x l IH]; [done|]. simpl.
  destruct (p x); simpl; [|done].
  apply Z.ltb_lt. lia.
Qed.

Lemma filter_none {A} (p : A → bool) (l : list A) :
  existsb p l = false → List.filter p l = [].
Proof.
  induction l as [|x l IH]; [done|]. simpl.
  destruct (p x); [done | apply IH].
Qed.

Lemma filter_filter_none {A} (p q : A → bool) (l : list A) :
  existsb p l = false → List.filter p (List.filter q l) = [].
Proof.
  induction l as [|x l IH]; [done|]. simpl.
  destruct (p x) eqn:E; [done|]. simpl. intros H.
  destruct (q x); simpl; rewrite ?E; by apply IH.
Qed.

Lemma Qmin_zero (x : Q) : x == 0 → py.Qmin x 1 == 0.
Proof. intros H. destruct (Qmin_cases x 1) as [[_ ->]|[Hlt _]]; lra. Qed.

(** X20: with a model loaded, the analysis has all six entries; both
    scores lie in [0,1]; [has_intensifier] and [has_negation] are true
    exactly when some token's lowercased lemma is an intensifier, or a
    negation; and [word_count] counts the tokens that are neither
    punctuation nor space. *)
Theorem analyze_with_spacy_signals (nlp : Language) (text : string) :
  ∃ e t a,
    analyze_with_spacy (Some nlp) text
    = {[ "excitement_score" := py.Num e;
         "tension_score" := py.Num t;
         "has_intensifier" :=
           py.Bool (existsb (in_vocabulary INTENSIFIERS) (nlp text));
         "has_negation" :=
           py.Bool (existsb (in_vocabulary NEGATIONS) (nlp text));
         "adjective_count" := py.Num a;
         "word_count" :=
           py.Num (inject_Z (len (List.filter
                     (λ t, negb (is_punct t) && negb (is_space t))
                     (nlp text)))) ]}
    ∧ 0 <= e <= 1 ∧ 0 <= t <= 1
    ∧ (existsb (in_vocabulary EXCITEMENT_LEMMAS) (nlp text) = false → e == 0)
    ∧ (existsb (in_vocabulary TENSION_LEMMAS) (nlp text) = false → t == 0).
Proof.
  unfold analyze_with_spacy. cbv zeta.
  rewrite count_token_fold.
  cbn [excitement_count tension_count intensifier_count has_negation].
  rewrite !Z.add_0_l, filter_positive, orb_false_l.
  do 3 eexists. split; [reflexivity|].
  set (ec := len (List.filter (in_vocabulary EXCITEMENT_LEMMAS) (nlp text))).
  set (tc := len (List.filter (in_vocabulary TENSION_LEMMAS) (nlp text))).
  set (sac := len (List.filter _ (List.filter _ (nlp text)))).
  set (wc := len (List.filter _ (nlp text))).
  assert (Hec : 0 <= inject_Z ec) by apply inject_Z_nonneg, len_nonneg.
  assert (Htc : 0 <= inject_Z tc) by apply inject_Z_nonneg, len_nonneg.
  assert (Hsac : 0 <= inject_Z sac) by apply inject_Z_nonneg, len_nonneg.
  split_and!.
  - apply Qmin_bounds, Qmult_le_0_compat; [apply ratio_nonneg|]; lra.
  - apply Qmin_bounds, Qmult_le_0_compat; [apply ratio_nonneg|]; lra.
  - apply Qmin_bounds, Qmult_le_0_compat; [apply ratio_nonneg|]; lra.
  - apply Qmin_bounds, Qmult_le_0_compat; [apply ratio_nonneg|]; lra.
  - intros Hnone. apply Qmin_zero. subst ec sac.
    unfold in_vocabulary in Hnone.
    rewrite (filter_filter_none _ _ _ Hnone).
    fold (in_vocabulary EXCITEMENT_LEMMAS).
    unfold in_vocabulary at 1.
    rewrite (filter_none _ _ Hnone).
    unfold len. simpl length. change (inject_Z (Z.of_nat 0)) with 0.
    unfold Qdiv. ring.
  - intros Hnone. apply Qmin_zero. subst tc.
    rewrite (filter_none _ _ Hnone).
    unfold len. simpl length. change (inject_Z (Z.of_nat 0)) with 0.
    unfold Qdiv. ring.
Qed.

End signals.

(** ** Volume timeline *)

Section slices.
Context {A : Type}.

Lemma clip_inside (n i : Z) : (0 ≤ i ≤ n)%Z → py.clip n i = Z.to_nat i.
Proof.
  intros H. unfold py.clip. destruct (Z.ltb_spec i 0); [lia|]. f_equal. lia.
Qed.

Lemma clip_beyond (n i : Z) : (0 ≤ n ≤ i)%Z → py.clip n i = Z.to_nat n.
Proof.
  intros H. unfold py.clip. destruct (Z.ltb_spec i 0); [lia|]. f_equal. lia.
Qed.

Lemma clip_le (n i : Z) : (0 ≤ n)%Z → (py.clip n i ≤ Z.to_nat n)%nat.
Proof.
  intros H. unfold py.clip. destruct (Z.ltb_spec i 0); lia.
Qed.

Lemma slice_length (l : list A) (a b : Z) :
  length (py.slice l a b)
  = (py.clip (Z.of_nat (length l)) b - py.clip (Z.of_nat (length l)) a)%nat.
Proof.
  unfold py.slice. rewrite length_take, length_drop.
  pose proof (clip_le (Z.of_nat (length l)) b). lia.
Qed.

(** A slice that starts inside the list and ends after its start holds at
    least one element. *)
Lemma slice_nonempty (l : list A) (a b : Z) :
  (0 ≤ a < Z.of_nat (length l))%Z → (a < b)%Z →
  (0 < length (py.slice l a b))%nat.
Proof.
  intros Ha Hb. rewrite slice_length, (clip_inside _ a) by lia.
  unfold py.clip. destruct (Z.ltb_spec b 0); lia.
Qed.

End slices.

Section ranges.
Import audio_volume spec_ext.

Lemma range_positive (stop step : Z) :
  (0 < step)%Z →
  range stop step
  = Returned (map (λ k, (step * Z.of_nat k)%Z)
                (seq 0 (Z.to_nat ((stop + step - 1) / step)))).
Proof.
  intros H. unfold range.
  destruct (Z.eqb_spec step 0); [lia|].
  by destruct (Z.ltb_spec 0 step); [|lia].
Qed.

Lemma range_members (stop step : Z) (k : nat) :
  (0 < step)%Z →
  (k < Z.to_nat ((stop + step - 1) / step))%nat →
  (0 ≤ step * Z.of_nat k < stop)%Z.
Proof.
  intros Hs Hk. split; [lia|].
  assert (Hq : (Z.of_nat k < (stop + step - 1) / step)%Z) by lia.
  assert (Hq' : (Z.of_nat k + 1 ≤ (stop + step - 1) / step)%Z) by lia.
  pose proof (Z.mul_div_le (stop + step - 1) step Hs) as Hd.
  nia.
Qed.

End ranges.

Section rounding_bounds.
Local Open Scope Q_scope.

Lemma round_unit (x : Q) (ndigits : nat) :
  0 <= x <= 1 → 0 <= py.round x ndigits <= 1.
Proof.
  intros Hx. rewrite round_eq.
  pose proof (scale_pos ndigits) as Hs.
  set (s := (10 ^ Z.of_nat ndigits)%Z) in *.
  destruct (round_half_even_bounds (x * inject_Z s) 0 s) as [H0 H1].
  { change (inject_Z 0) with 0. nra. }
  rewrite Zle_Qle in H0, H1. change (inject_Z 0) with 0 in H0.
  split.
  - apply Qle_shift_div_l; lra.
  - apply Qle_shift_div_r; lra.
Qed.

Lemma round_integer (x : Q) (k : Z) (ndigits : nat) :
  x == inject_Z k → py.round x ndigits = inject_Z k.
Proof.
  intros H. unfold py.round.
  set (s := (10 ^ Z.of_nat ndigits)%Z).
  rewrite (round_half_even_comp (x * inject_Z s) (inject_Z (k * s))).
  - rewrite round_half_even_Z.
    rewrite <- (Qred_identity (inject_Z k)) by apply Z.gcd_1_r.
    apply Qred_complete. rewrite inject_Z_mult. field.
    apply Qnot_eq_sym, Qlt_not_eq, scale_pos.
  - rewrite H, inject_Z_mult. reflexivity.
Qed.


End rounding_bounds.


Section timeline.
Import audio_volume spec spec_ext.
Local Open Scope Q_scope.

Lemma append_loop {X Y} (cond : X → bool) (f : X → Y) (xs : list X) (acc : list Y) :
  Forall (λ x, cond x = true) xs →
  fold_left (λ l x, if cond x then l ++ [f x] else l) xs acc = acc ++ map f xs.
Proof.
  intros H. revert acc. induction H as [|x xs Hx _ IH]; intros acc; simpl.
  - by rewrite app_nil_r.
  - rewrite Hx, IH. by rewrite <- app_assoc.
Qed.

Lemma timeline_positive (calculate_rms : list Q → Q) (sample_rate : positive)
    (audio_data : list Q) (window_seconds : Q) :
  let w := py.int (window_seconds * inject_Z (Zpos sample_rate)) in
  (0 < w)%Z →
  get_volume_timeline calculate_rms sample_rate audio_data window_seconds
  = Returned (map (λ k, point_at calculate_rms sample_rate audio_data w
                          (w * Z.of_nat k))
                (seq 0 (window_count audio_data w))).
Proof.
  intros w Hw. unfold get_volume_timeline. cbv zeta. fold w.
  rewrite range_positive by done. cbn [and_then]. f_equal.
  rewrite (append_loop
             (λ i, (0 <? Z.of_nat (length (py.slice audio_data i (i + w))))%Z)
             (point_at calculate_rms sample_rate audio_data w)).
  - by rewrite map_map.
  - apply Forall_forall. intros i Hi.
    apply list_elem_of_In, in_map_iff in Hi as (k & <- & Hk).
    apply in_seq in Hk.
    pose proof (range_members (Z.of_nat (length audio_data)) w k Hw) as Hr.
    apply Z.ltb_lt.
    pose proof (slice_nonempty audio_data (w * Z.of_nat k) (w * Z.of_nat k + w)).
    lia.
Qed.

Lemma normalize_rms_unit (rms global_rms : Q) :
  0 <= rms → 0 <= normalize_rms rms global_rms <= 1.
Proof.
  intros H. unfold normalize_rms.
  destruct (py.Qltb 0 global_rms) eqn:E; [|lra].
  apply Qltb_lt in E. apply Qmin_bounds, Qle_shift_div_l; lra.
Qed.

Lemma normalize_peak_unit (peak global_peak : Q) :
  0 <= peak → 0 <= normalize_peak peak global_peak <= 1.
Proof.
  intros H. unfold normalize_peak.
  destruct (py.Qltb 0 global_peak) eqn:E; [|lra].
  apply Qltb_lt in E. apply Qmin_bounds, Qle_shift_div_l; lra.
Qed.

Lemma point_time_monotone (calculate_rms : list Q → Q) (sample_rate : positive)
    (audio_data : list Q) (w i j : Z) :
  (i ≤ j)%Z →
  ls_time (point_at calculate_rms sample_rate audio_data w i)
  <= ls_time (point_at calculate_rms sample_rate audio_data w j).
Proof.
  intros H. simpl. apply round_monotone, float_monotone.
  apply Qmult_le_compat_r.
  - by rewrite <- Zle_Qle.
  - apply Qinv_le_0_compat. done.
Qed.




Lemma int_of_rate (sample_rate : positive) :
  py.int (1 * inject_Z (Zpos sample_rate)) = Zpos sample_rate.
Proof. unfold py.int. simpl. apply Z.quot_1_r. Qed.

Lemma second_point_time (calculate_rms : list Q → Q) (sample_rate : positive)
    (audio_data : list Q) (k : nat) :
  ∃ second : nat,
    ls_time (point_at calculate_rms sample_rate audio_data (Zpos sample_rate)
               (Zpos sample_rate * Z.of_nat k))
    = inject_Z (Z.of_nat second).
Proof.
  cbn [ls_time point_at]. unfold py.fdiv.
  assert (inject_Z (Z.pos sample_rate * Z.of_nat k)
          / inject_Z (Z.pos sample_rate) == inject_Z (Z.of_nat k)) as Hq
    by (rewrite inject_Z_mult; field; done).
  rewrite (float_comp _ _ Hq).
  destruct (float_integer (Z.of_nat k)) as [n Hn].
  assert (0 <= py.float (inject_Z (Z.of_nat k))) as H0.
  { apply float_nonneg. change 0 with (inject_Z 0). rewrite <- Zle_Qle. lia. }
  rewrite Hn in H0. change 0 with (inject_Z 0) in H0. rewrite <- Zle_Qle in H0.
  exists (Z.to_nat n). rewrite Z2Nat.id by done. by apply round_integer.
Qed.

(** X22: the peaks detected in an audio track: the scan runs on a
    timeline with one point per second, so it always returns; every peak sits
    on a whole second and reaches the threshold, and a later peak is at least
    [min_gap_seconds] after every earlier one, whatever the gap's sign. *)
Theorem peaks_of_audio_spaced (calculate_rms : list Q → Q)
    (sample_rate : positive) (audio_data : list Q)
    (threshold min_gap_seconds : Q) :
  ∃ peaks,
    detect_volume_peaks_of_audio calculate_rms sample_rate audio_data
      threshold min_gap_seconds = Returned peaks
    ∧ (∀ p, p ∈ peaks →
         threshold <= pk_volume p
         ∧ ∃ second : nat, pk_time p = inject_Z (Z.of_nat second))
    ∧ (∀ i j p q, (i < j)%nat → peaks !! i = Some p → peaks !! j = Some q →
         min_gap_seconds <= pk_time q - pk_time p).
Proof.
  unfold detect_volume_peaks_of_audio.
  pose proof (timeline_positive calculate_rms sample_rate audio_data 1) as Ht.
  cbv zeta in Ht. rewrite int_of_rate in Ht. rewrite Ht by done.
  cbn [and_then]. eexists. split; [done|].
  set (timeline := map _ _).
  assert (Hsorted : StronglySorted not_after timeline).
  { apply StronglySorted_of_lookup. intros i j a b Hij Ha Hb.
    subst timeline. rewrite list_lookup_fmap in Ha, Hb.
    destruct (seq 0 _ !! i) as [ki|] eqn:Ei; [|done].
    destruct (seq 0 _ !! j) as [kj|] eqn:Ej; [|done].
    apply lookup_seq in Ei as [-> _]. apply lookup_seq in Ej as [-> _].
    simpl in Ha, Hb. injection Ha as <-. injection Hb as <-.
    apply point_time_monotone. nia. }
  destruct (peak_loop_invariant threshold min_gap_seconds timeline
              [] (- min_gap_seconds)) as [Hv Hs];
    [constructor | constructor | constructor | right; split; [done | by left] |].
  fold (detect_volume_peaks timeline threshold min_gap_seconds) in Hv, Hs.
  split.
  - intros p Hp. split; [by eapply Forall_forall in Hv|].
    pose proof (peak_loop_extends threshold min_gap_seconds timeline []
                  (- min_gap_seconds)) as (rest & Hrest & Hsub).
    fold (detect_volume_peaks timeline threshold min_gap_seconds) in Hrest.
    rewrite Hrest in Hp. simpl in Hp.
    eapply elem_of_sublist in Hp; [|exact Hsub].
    apply list_elem_of_fmap in Hp as (s & -> & Hs').
    subst timeline. apply list_elem_of_fmap in Hs' as (k & -> & _).
    apply second_point_time.
  - by apply (StronglySorted_lookup (spaced min_gap_seconds)).
Qed.

End timeline.

(** ** Volume of the segments *)

Section segment_volume.
Import information_extraction audio_volume sentiment_analyzer main spec spec_ext.
Local Open Scope Q_scope.

Lemma sample_range_inside (sample_rate : positive) (n : Z) (segment : Segment) :
  (1 ≤ n)%Z →
  (0 ≤ (sample_range sample_rate n segment).1
   < (sample_range sample_rate n segment).2)%Z
  ∧ ((sample_range sample_rate n segment).2 ≤ n)%Z.
Proof. intros H. unfold sample_range. cbv zeta. simpl. lia. Qed.

(** X23: for a track with at least one sample, the sample range of every
    segment, whatever its start and end, lies inside the track and holds at
    least one sample; the fallback for an empty chunk is never taken. *)
Theorem segment_chunk_never_empty (sample_rate : positive)
    (audio_data : list Q) (segment : Segment) :
  audio_data ≠ [] →
  let n := Z.of_nat (length audio_data) in
  let range := sample_range sample_rate n segment in
  (0 ≤ range.1 < range.2)%Z ∧ (range.2 ≤ n)%Z
  ∧ Z.of_nat (length (py.slice audio_data range.1 range.2))
    = (range.2 - range.1)%Z.
Proof.
  intros Hne n range.
  assert (Hn : (1 ≤ n)%Z) by (subst n; destruct audio_data; [done | simpl; lia]).
  pose proof (sample_range_inside sample_rate n segment Hn) as Hr.
  fold range in Hr. destruct Hr as [Hr1 Hr2]. split; [done|]. split; [done|].
  rewrite slice_length. fold n.
  rewrite !clip_inside by lia. lia.
Qed.

Lemma segment_chunk_never_empty_witness :
  let n := Z.of_nat (length sample_audio) in
  let range := sample_range 2 n (segment_at 100 "late") in
  (0 ≤ range.1 < range.2)%Z ∧ (range.2 ≤ n)%Z
  ∧ Z.of_nat (length (py.slice sample_audio range.1 range.2))
    = (range.2 - range.1)%Z.
Proof.
  apply (segment_chunk_never_empty 2 sample_audio (segment_at 100 "late")).
  discriminate.
Defined.

Lemma running_peak_ge (rest : list Q) (m : Q) :
  m <= fold_left (λ m y, py.Qmax m (Qabs y)) rest m.
Proof.
  revert m. induction rest as [|y rest IH]; intros m; simpl; [lra|].
  eapply Qle_trans; [|apply IH].
  unfold py.Qmax. destruct (Qle_bool (Qabs y) m) eqn:E; [lra|].
  apply Qlt_le_weak, Qnot_le_lt. intros H%Qle_bool_iff. congruence.
Qed.

Lemma calculate_peak_nonneg (chunk : list Q) (peak : Q) :
  calculate_peak chunk = Returned peak → 0 <= peak.
Proof.
  destruct chunk as [|x rest]; [done|]. intros [= <-].
  eapply Qle_trans; [apply Qabs_nonneg | apply running_peak_ge].
Qed.

Lemma volume_of_segment_normalized (calculate_rms : list Q → Q)
    (sample_rate : positive) (audio_data : list Q) (global_rms global_peak : Q)
    (segment : Segment) :
  (∀ chunk, 0 <= calculate_rms chunk) →
  audio_data ≠ [] →
  ∃ r, volume_of_segment calculate_rms sample_rate audio_data
         global_rms global_peak segment = Returned r
       ∧ vr_segment r = segment ∧ normalized r.
Proof.
  intros Hrms Hne. unfold volume_of_segment.
  destruct (segment_chunk_never_empty sample_rate audio_data segment Hne)
    as (Hr & Hr' & Hlen). cbv zeta in Hr, Hr', Hlen.
  destruct (sample_range _ _ segment) as [a b]. simpl in Hr, Hr', Hlen.
  set (chunk := py.slice audio_data a b) in *.
  destruct (Z.ltb_spec 0 (Z.of_nat (length chunk))); [|lia].
  destruct (calculate_peak chunk) as [peak|] eqn:Ep;
    [|destruct chunk; [simpl in *; lia | done]].
  cbn [and_then]. eexists. split; [done|]. split; [done|].
  pose proof (normalize_rms_unit (calculate_rms chunk) global_rms (Hrms chunk)).
  pose proof (normalize_peak_unit peak global_peak (calculate_peak_nonneg _ _ Ep)).
  unfold normalized. simpl. split_and!; apply round_unit; lra.
Qed.

Lemma collect_all {X Y} (f : X → outcome Y) (P : X → Y → Prop)
    (xs : list X) (acc : list Y) :
  (∀ x, ∃ y, f x = Returned y ∧ P x y) →
  ∃ ys, collect f xs acc = Returned (acc ++ ys) ∧ Forall2 P xs ys.
Proof.
  intros H. revert acc. induction xs as [|x xs IH]; intros acc.
  - exists []. by rewrite app_nil_r.
  - destruct (H x) as (y & Hy & HP). destruct (IH (acc ++ [y])) as (ys & Hys & HF).
    exists (y :: ys). simpl. rewrite Hy. cbn [and_then]. rewrite Hys.
    split; [by rewrite <- app_assoc | by constructor].
Qed.

Lemma volume_for_segments_returns (calculate_rms : list Q → Q)
    (sample_rate : positive) (audio_data : list Q) (segments : list Segment) :
  audio_data ≠ [] →
  (∀ chunk, 0 <= calculate_rms chunk) →
  ∃ records,
    get_volume_for_segments calculate_rms sample_rate audio_data segments
    = Returned records
    ∧ vr_segment <$> records = segments
    ∧ Forall normalized records.
Proof.
  intros Hne Hrms. unfold get_volume_for_segments.
  destruct (calculate_peak audio_data) as [global_peak|] eqn:Ep;
    [|by destruct audio_data].
  cbn [and_then].
  destruct (collect_all
              (volume_of_segment calculate_rms sample_rate audio_data
                 (calculate_rms audio_data) global_peak)
              (λ seg r, vr_segment r = seg ∧ normalized r) segments [])
    as (records & -> & HF).
  { intros seg. by apply volume_of_segment_normalized. }
  exists records. split; [done|]. split.
  - induction HF as [|seg r segs recs [Hs _] _ IH]; [done|].
    rewrite fmap_cons. by rewrite Hs, IH.
  - induction HF as [|seg r segs recs [_ Hn] _ IH]; by constructor.
Qed.


Lemma lookup_from_records (records : list VolumeRecord) (k : Qc) (v : Q) :
  build_volume_lookup (Some (as_segment_with_volume <$> records)) !! k = Some v →
  ∃ r, r ∈ records ∧ v = vr_volume_score r.
Proof.
  unfold build_volume_lookup. rewrite lookup_loop.
  destruct (last _) as [seg|] eqn:El; [|done]. intros [= <-].
  apply last_Some_elem_of, list_elem_of_In, filter_In in El as [Hin _].
  apply list_elem_of_In, list_elem_of_fmap in Hin as (r & -> & Hr).
  by exists r.
Qed.

(** X25: audio and text joined as [analyze_match] joins them: with a root
    mean square that is never negative, whenever the two steps return, there
    is one record per segment and every intensity lies in [0,1]. *)
Theorem audio_pipeline_intensity_in_unit_interval (nlp : option Language)
    (calculate_rms : list Q → Q) (sample_rate : positive)
    (audio_data : list Q) (segments : list Segment)
    (records : list IntensityRecord) :
  (∀ chunk, 0 <= calculate_rms chunk) →
  analyze_with_audio nlp calculate_rms sample_rate audio_data segments
  = Some (py.Ok records) →
  length records = length segments
  ∧ ∀ r, r ∈ records → 0 <= ir_intensity r <= 1.
Proof.
  intros Hrms. unfold analyze_with_audio.
  destruct audio_data as [|x rest]; [done|].
  destruct (volume_for_segments_returns calculate_rms sample_rate
              (x :: rest) segments) as (vrecords & Hv & _ & Hnorm);
    [done | done |].
  rewrite Hv. intros [= H].
  apply analyze_sentiment_inv in H. split; [by apply Forall2_length in H|].
  intros r Hr. apply list_elem_of_lookup_1 in Hr as [i Hi].
  destruct (Forall2_lookup_r _ _ _ _ _ H Hi) as (seg & _ & Hrec).
  destruct Hrec as (_ & _ & _ & _ & _ & Hb). apply Hb.
  destruct (build_volume_lookup _ !! _) as [v|] eqn:El; simpl; [|lra].
  apply lookup_from_records in El as (vr & Hin & ->).
  rewrite Forall_forall in Hnorm. by destruct (Hnorm vr Hin) as (_ & _ & _ & ?).
Qed.

Lemma audio_pipeline_intensity_in_unit_interval_witness :
  length sample_records_audio = length sample_segments
  ∧ ∀ r, r ∈ sample_records_audio → 0 <= ir_intensity r <= 1.
Proof.
  apply (audio_pipeline_intensity_in_unit_interval (Some seven_words) loudest 2
           sample_audio sample_segments sample_records_audio).
  - intros chunk. unfold loudest.
    destruct (calculate_peak chunk) eqn:E; [by eapply calculate_peak_nonneg | done].
  - reflexivity.
Defined.

End segment_volume.

(** ** Event timeline *)

Section event_timeline.
Import information_extraction insights spec spec_ext.
Local Open Scope Q_scope.

Lemma collect_loop {X Y} (f : X → Y) (xs : list X) (acc : list Y) :
  fold_left (λ l x, l ++ [f x]) xs acc = acc ++ (f <$> xs).
Proof.
  revert acc. induction xs as [|x xs IH]; intros acc; simpl.
  - by rewrite app_nil_r.
  - rewrite IH. by rewrite <- app_assoc.
Qed.

Lemma timeline_is_map (events : list EventDict) :
  generate_event_timeline events = entry_of <$> py.sorted events time_of false.
Proof.
  unfold generate_event_timeline. fold time_of.
  exact (collect_loop entry_of (py.sorted events time_of false) []).
Qed.

Lemma floordiv_bounds (x : Q) :
  inject_Z (60 * py.floordiv x 60) <= x
  ∧ x < inject_Z (60 * py.floordiv x 60 + 60).
Proof.
  unfold py.floordiv.
  pose proof (Qfloor_le (x / inject_Z 60)) as Hl.
  pose proof (Qlt_floor (x / inject_Z 60)) as Hu.
  set (f := Qfloor (x / inject_Z 60)) in *.
  rewrite inject_Z_plus in *. rewrite !inject_Z_mult.
  change (inject_Z 60) with 60 in *. change (inject_Z 1) with 1 in *.
  assert (x == x / 60 * 60) as Hx by (field; done).
  split; lra.
Qed.

Lemma floordiv_monotone (x y : Q) :
  x <= y → (py.floordiv x 60 ≤ py.floordiv y 60)%Z.
Proof.
  intros H. unfold py.floordiv. apply Qfloor_resp_le.
  apply Qmult_le_compat_r; [done|]. by apply Qinv_le_0_compat.
Qed.

Lemma entry_of_entry_for (event : EventDict) : entry_for event (entry_of event).
Proof.
  unfold entry_for, entry_of, time_of. simpl.
  destruct (floordiv_bounds (py.get (ed_time event) 0)) as [Hl Hu].
  split_and!; [done | done | done | done |].
  unfold py.str_slice_to, py.slice_to. simpl.
  by rewrite list_ascii_of_string_of_list_ascii.
Qed.

(** X26: the event timeline is in time order whatever order the events
    came in: it has one entry per event, times and minutes never decrease
    along it, and every entry belongs to an event: its time is the event's
    time rounded to one decimal, its minute the whole minute containing the
    event's time, its description the first 100 characters of the text. *)
Theorem event_timeline_in_time_order (events : list EventDict) :
  let timeline := generate_event_timeline events in
  length timeline = length events
  ∧ (∀ i j a b, (i ≤ j)%nat → timeline !! i = Some a → timeline !! j = Some b →
                te_time a <= te_time b ∧ (te_minute a ≤ te_minute b)%Z)
  ∧ (∀ entry, entry ∈ timeline →
              ∃ event, event ∈ events ∧ entry_for event entry)
  ∧ (∀ event, event ∈ events →
              ∃ entry, entry ∈ timeline ∧ entry_for event entry).
Proof.
  intros timeline. subst timeline. rewrite timeline_is_map.
  pose proof (sorted_perm time_of false events) as Hp.
  pose proof (sorted_sorted time_of false events) as Hs.
  set (l := py.sorted events time_of false) in *. split_and!.
  - by rewrite length_fmap, (Permutation_length Hp).
  - intros i j a b Hij Ha Hb. rewrite list_lookup_fmap in Ha, Hb.
    destruct (l !! i) as [x|] eqn:Ex; [|done].
    destruct (l !! j) as [y|] eqn:Ey; [|done].
    simpl in Ha, Hb. injection Ha as <-. injection Hb as <-.
    assert (Hxy : time_of x <= time_of y).
    { destruct (decide (i = j)) as [->|Hne].
      - rewrite Ex in Ey. injection Ey as ->. lra.
      - apply (StronglySorted_lookup _ _ Hs i j x y); [lia | done | done]. }
    split; [by apply round_monotone | by apply floordiv_monotone].
  - intros entry (event & -> & Hin)%list_elem_of_fmap.
    exists event. split; [by rewrite <- Hp | apply entry_of_entry_for].
  - intros event Hin. exists (entry_of event).
    split; [|apply entry_of_entry_for].
    apply list_elem_of_fmap. exists event. split; [done | by rewrite Hp].
Qed.

End event_timeline.

(** ** Entities *)

Section entities.
Import information_extraction spec spec_ext.

Lemma extends_refl (c : Entities) : extends c c.
Proof. by unfold extends. Qed.

Lemma extends_trans (a b c : Entities) : extends a b → extends b c → extends a c.
Proof.
  unfold extends. intros (?&?&?&?&?&?&?) (?&?&?&?&?&?&?).
  split_and!; etrans; eauto.
Qed.

Lemma Forall_grow (P Q : string → Prop) (l : list string) (x : string) :
  (∀ y, P y → Q y) → Q x → Forall P l → Forall Q (l ++ [x]).
Proof.
  intros HPQ Hx Hl. apply Forall_app. split.
  - by eapply Forall_impl.
  - by constructor.
Qed.

Lemma entity_step_keeps (fc oc : bool) (c : Entities) (sp st : list string)
    (ent : Entity) :
  consistent c → Forall (λ p, p ∈ persons c) sp → Forall (λ t, t ∈ teams c) st →
  ∃ c' sp' st',
    entity_step fc oc (c, sp, st) ent = (c', sp', st')
    ∧ consistent c' ∧ extends c c'
    ∧ Forall (λ p, p ∈ persons c') sp' ∧ Forall (λ t, t ∈ teams c') st'.
Proof.
  intros (Hm & Hs & Hl) Hsp Hst. unfold entity_step.
  destruct (String.eqb (label_ ent) "PERSON");
    [destruct oc|
     destruct (py.contains _ (label_ ent));
       [destruct fc|
        destruct (py.contains _ (label_ ent));
          [destruct (names_stadium (py.strip (ent_text ent))) eqn:E|]]].
  all: eexists _, _, _; (split; [done|]); unfold consistent, extends; simpl.
  all: split_and!; try done.
  all: try (intros p t H; destruct (Hm p t H); split; [try done..]).
  all: try (apply elem_of_union; by right).
  all: try apply union_subseteq_r.
  all: try (by intros v [->%elem_of_singleton|H]%elem_of_union;
              [done | first [apply Hs | apply Hl]]).
  - eapply Forall_grow; [| |exact Hsp].
    + intros y Hy. apply elem_of_union. by right.
    + apply elem_of_union. left. by apply elem_of_singleton.
  - eapply Forall_grow; [| |exact Hst].
    + intros y Hy. apply elem_of_union. by right.
    + apply elem_of_union. left. by apply elem_of_singleton.
Qed.

Lemma entity_loop_keeps (fc oc : bool) (ents : list Entity) (c : Entities)
    (sp st : list string) :
  consistent c → Forall (λ p, p ∈ persons c) sp → Forall (λ t, t ∈ teams c) st →
  ∃ c' sp' st',
    fold_left (entity_step fc oc) ents (c, sp, st) = (c', sp', st')
    ∧ consistent c' ∧ extends c c'
    ∧ Forall (λ p, p ∈ persons c') sp' ∧ Forall (λ t, t ∈ teams c') st'.
Proof.
  revert c sp st. induction ents as [|ent ents IH]; intros c sp st Hc Hsp Hst.
  - exists c, sp, st. split_and!; first [done | apply extends_refl].
  - cbn [fold_left].
    destruct (entity_step_keeps fc oc c sp st ent Hc Hsp Hst)
      as (c1 & sp1 & st1 & -> & Hc1 & He1 & Hsp1 & Hst1).
    destruct (IH c1 sp1 st1 Hc1 Hsp1 Hst1)
      as (c2 & sp2 & st2 & -> & Hc2 & He2 & Hsp2 & Hst2).
    exists c2, sp2, st2. split_and!; first [done | by eapply extends_trans].
Qed.

Lemma associate_keeps (team : string) (c : Entities) (person : string) :
  consistent c → person ∈ persons c → team ∈ teams c →
  consistent (associate team c person) ∧ extends c (associate team c person)
  ∧ persons (associate team c person) = persons c
  ∧ teams (associate team c person) = teams c.
Proof.
  intros (Hm & Hs & Hl) Hp Ht. unfold associate.
  destruct (player_team_map c !! person) eqn:E.
  - split_and!; first [done | apply extends_refl].
  - unfold consistent, extends. simpl. split_and!; try done.
    + intros p t [[<- <-]|[_ H]]%lookup_insert_Some; [done | by apply Hm].
    + by apply insert_subseteq.
Qed.

Lemma associate_loop_keeps (team : string) (sp : list string) (c : Entities) :
  consistent c → Forall (λ p, p ∈ persons c) sp → team ∈ teams c →
  consistent (fold_left (associate team) sp c)
  ∧ extends c (fold_left (associate team) sp c).
Proof.
  revert c. induction sp as [|p sp IH]; intros c Hc Hsp Ht; cbn [fold_left].
  - split; [done | apply extends_refl].
  - apply Forall_cons in Hsp as [Hp Hsp].
    destruct (associate_keeps team c p Hc Hp Ht) as (Hc1 & He1 & Ep & Et).
    destruct (IH (associate team c p) Hc1) as [Hc2 He2].
    + by rewrite Ep.
    + by rewrite Et.
    + split; [done | by eapply extends_trans].
Qed.

Lemma sentence_step_keeps (c : Entities) (sent : Sentence) :
  consistent c →
  consistent (sentence_step c sent) ∧ extends c (sentence_step c sent).
Proof.
  intros Hc. unfold sentence_step.
  set (fc := existsb _ FOOTBALL_CONTEXT_PATTERNS).
  set (oc := existsb _ OFFICIAL_KEYWORDS).
  destruct (entity_loop_keeps fc oc (sent_ents sent) c [] [] Hc)
    as (c1 & sp1 & st1 & -> & Hc1 & He1 & Hsp1 & Hst1); [constructor..|].
  destruct st1 as [|team st1]; [done|].
  destruct sp1 as [|p sp1]; [done|].
  apply Forall_cons in Hst1 as [Ht _].
  destruct (associate_loop_keeps team (p :: sp1) c1 Hc1 Hsp1 Ht) as [Hc2 He2].
  split; [done | by eapply extends_trans].
Qed.

Lemma sentence_loop_keeps (sents : list Sentence) (c : Entities) :
  consistent c →
  consistent (fold_left sentence_step sents c)
  ∧ extends c (fold_left sentence_step sents c).
Proof.
  revert c. induction sents as [|s sents IH]; intros c Hc; cbn [fold_left].
  - split; [done | apply extends_refl].
  - destruct (sentence_step_keeps c s Hc) as [Hc1 He1].
    destruct (IH _ Hc1) as [Hc2 He2].
    split; [done | by eapply extends_trans].
Qed.

Lemma no_entities_consistent : consistent no_entities.
Proof. unfold consistent, no_entities. simpl. split_and!; set_solver. Qed.

(** X27: whatever the pipeline finds, the collections [extract_entities]
    returns are consistent: every player of the player-team map is among the
    persons and their team among the teams, and no value is both a stadium
    and a location. *)
Theorem extract_entities_consistent (nlp : option Pipeline) (text : string) :
  let found := extract_entities nlp text in
  (∀ person team, player_team_map found !! person = Some team →
                  person ∈ persons found ∧ team ∈ teams found)
  ∧ stadiums found ## locations found.
Proof.
  intros found.
  assert (consistent found) as (Hm & Hs & Hl).
  { subst found. unfold extract_entities. destruct nlp as [nlp|].
    - apply sentence_loop_keeps, no_entities_consistent.
    - apply no_entities_consistent. }
  split; [done|].
  intros v H1 H2. apply Hs in H1. apply Hl in H2. congruence.
Qed.

(** X28: reading more sentences only adds: every person, team, possible
    team, stadium, location and official collected from the first sentences
    of a text is still there after the whole text, and a player keeps the
    team of the first sentence that gave them one. *)
Theorem extract_entities_first_team_kept (nlp : Pipeline) (text : string)
    (first rest : list Sentence) :
  nlp text = first ++ rest →
  let early := fold_left sentence_step first no_entities in
  let found := extract_entities (Some nlp) text in
  extends early found
  ∧ ∀ person team, player_team_map early !! person = Some team →
                   player_team_map found !! person = Some team.
Proof.
  intros E early found. subst early found.
  unfold extract_entities. rewrite E, fold_left_app.
  destruct (sentence_loop_keeps first no_entities no_entities_consistent)
    as [Hc _].
  destruct (sentence_loop_keeps rest _ Hc) as [_ He].
  split; [done|]. intros person team H.
  destruct He as (_&_&_&_&_&_&Hsub). by eapply lookup_weaken.
Qed.

Lemma extract_entities_first_team_kept_witness :
  player_team_map (extract_entities (Some sample_pipeline) "commentary")
    !! "Kane" = Some "Spurs".
Proof.
  apply (extract_entities_first_team_kept sample_pipeline "commentary"
           sample_sentences.1 sample_sentences.2).
  - reflexivity.
  - vm_compute. reflexivity.
Defined.

End entities.

(** ** Information *)

Section information.
Import information_extraction spec spec_ext.

Lemma group_loop (events : list Event) (summary : gmap string (list Event))
    (T : string) :
  fold_left group_step events summary !! T
  = match of_type T events with
    | [] => summary !! T
    | group => Some (default [] (summary !! T) ++ group)
    end.
Proof.
  revert summary. induction events as [|e events IH]; intros summary.
  - done.
  - cbn [fold_left]. rewrite IH. unfold of_type. cbn [List.filter].
    fold (of_type T events). unfold group_step.
    destruct (String.eqb_spec (ev_type e) T) as [->|Hne].
    + rewrite lookup_insert_eq. simpl.
      destruct (of_type T events) as [|x group].
      * done.
      * by rewrite <- app_assoc.
    + by rewrite lookup_insert_ne.
Qed.

(** X29: the event summary groups the returned events by type: a type has
    an entry exactly when some returned event has it, and the entry lists
    the events of that type in the order they were returned. Without
    segments there are no events and no entries. *)
Theorem event_summary_groups_by_type (nlp : option Pipeline) (text : string)
    (segments : option (list Segment)) (info : Information) :
  extract_information nlp text segments = py.Ok info →
  (∀ T, event_summary info !! T
        = match of_type T (events info) with
          | [] => None
          | group => Some group
          end)
  ∧ (segments = None ∨ segments = Some [] →
     events info = [] ∧ event_summary info = ∅).
Proof.
  unfold extract_information. intros H.
  assert (∃ found, info = {| entities := extract_entities nlp text;
                             events := found;
                             event_summary := fold_left group_step found ∅ |}
                   ∧ (segments = None ∨ segments = Some [] → found = []))
    as (found & -> & Hempty).
  { destruct segments as [[|s l]|].
    - injection H as <-. exists []. split; [done|]. done.
    - destruct (detect_events_with_timestamps (s :: l)) as [found|k]; [|done].
      injection H as <-. exists found. split; [done|].
      by intros [?|?].
    - injection H as <-. exists []. split; [done|]. done. }
  cbn [events event_summary]. split.
  - intros T. rewrite group_loop. rewrite lookup_empty.
    by destruct (of_type T found).
  - intros Hs. by rewrite (Hempty Hs).
Qed.

Lemma event_summary_groups_by_type_witness :
  ∃ info, extract_information None "text" (Some scenario_segments) = py.Ok info
          ∧ event_summary info !! "goal"
            = match of_type "goal" (events info) with
              | [] => None
              | group => Some group
              end.
Proof.
  eexists. split; [vm_compute; reflexivity|].
  eapply (event_summary_groups_by_type None "text" (Some scenario_segments)).
  vm_compute. reflexivity.
Defined.

End information.

(** ** Player mentions *)

Section player_mentions.
Import insights spec spec_ext.













End player_mentions.

(** ** Worked examples *)

Section witnesses.
Import re information_extraction sentiment_analyzer spec spec_ext.
Local Open Scope Q_scope.

Lemma first_peak_moment_is_summary_peak_witness :
  head (get_peak_moments sample_records 5) = peak_of sample_records.
Proof. apply (first_peak_moment_is_summary_peak sample_records 5). lia. Defined.

Lemma summary_counts_every_record_witness :
  ∃ s, get_intensity_summary sample_records = py.Ok s
       ∧ total_segments s = len sample_records
       ∧ (∀ label, label ∈ MOODS →
            mood_distribution s !! label
            = Some (count_label ir_mood label sample_records))
       ∧ (∀ label, label ∈ SENTIMENTS →
            sentiment_distribution s !! label
            = Some (count_label sentiment_of label sample_records))
       ∧ (∃ e m c, mood_distribution s !! "exciting" = Some e
                   ∧ mood_distribution s !! "moderate" = Some m
                   ∧ mood_distribution s !! "calm" = Some c
                   ∧ (e + m + c)%Z = total_segments s).
Proof.
  apply (summary_counts_every_record sample_records).
  unfold labelled. repeat constructor.
Defined.

Lemma summary_unknown_label_raises_witness :
  get_intensity_summary (sample_records ++ foreign_record :: sample_records)
  = py.KeyError "thrilling".
Proof.
  apply (summary_unknown_label_raises sample_records sample_records
           foreign_record).
  - unfold labelled. repeat constructor.
  - unfold labelled. intros [H _]. vm_compute in H.
    by repeat (apply elem_of_cons in H as [H|H]; [discriminate H|]);
       apply elem_of_nil in H.
Defined.

Lemma summary_peak_is_greatest_witness :
  ∃ s peak,
    get_intensity_summary sample_records = py.Ok s
    ∧ peak ∈ sample_records
    ∧ (∀ x, x ∈ sample_records → ir_intensity x <= ir_intensity peak)
    ∧ peak_intensity s = py.round (ir_intensity peak) 2
    ∧ peak_moment_time s = ir_time peak
    ∧ ∀ x, x ∈ sample_records → py.round (ir_intensity x) 2 <= peak_intensity s.
Proof.
  apply (summary_peak_is_greatest sample_records).
  - unfold labelled. repeat constructor.
  - discriminate.
Defined.

End witnesses.
